(** * Feishu channel adapter: admission policy, message router and
      connection supervisor

    A shallow embedding of [extensions/feishu/src/policy.ts] and of the
    monitor ([handleFeishuMessage], [monitorFeishuProvider] and their
    helpers), followed by the properties the specification states about
    them. The targets of [send.ts], the outbound adapter, the delivery of
    a reply and its status, the credentials of [accounts.ts] and the
    directory of [channel.ts] are embedded after them, with further
    properties of the whole at the end.

    Conventions of the embedding.
    - JavaScript strings are [string]s of ASCII characters: [trim] removes
      the ASCII white space and line terminators, [toLowerCase] maps [A-Z]
      to [a-z], every other character is left alone.
    - JavaScript numbers that hold epoch times, second counts and counters
      are integers ([Z]); the reconnect delay, which multiplies by the
      non-integer factor 1.8, is computed on IEEE 754 doubles ([Double]),
      with [**] left to the engine.
    - [undefined]/[null] is [None]; an object used as a dictionary is a
      [gmap] keyed by strings.
    - Functions of the plugin SDK and of the core runtime that the adapter
      calls but does not define are parameters of the sections below; so
      are the platform's client, the process environment and the file
      system. *)

From Stdlib Require Import Floats.SpecFloat.
From Stdlib Require Import ZArith QArith Qround Qminmax Qpower Lia Lqa Bool List Ascii String.
From stdpp Require Import base option strings gmap.
Import ListNotations.

Local Open Scope string_scope.
Local Open Scope bool_scope.

(** ** JavaScript string primitives *)

Module JS.

(** White space and line terminators of the ASCII range, the characters
    [String.prototype.trim] removes. *)
Definition isWhiteSpace (c : ascii) : bool :=
  let n := nat_of_ascii c in
  Nat.eqb n 9 || Nat.eqb n 10 || Nat.eqb n 11 || Nat.eqb n 12
  || Nat.eqb n 13 || Nat.eqb n 32.

Fixpoint trimStart (s : string) : string :=
  match s with
  | EmptyString => EmptyString
  | String c r => if isWhiteSpace c then trimStart r else s
  end.

Fixpoint trimEnd (s : string) : string :=
  match s with
  | EmptyString => EmptyString
  | String c r =>
      match trimEnd r with
      | EmptyString => if isWhiteSpace c then EmptyString else String c EmptyString
      | r' => String c r'
      end
  end.

Definition trim (s : string) : string := trimEnd (trimStart s).

Definition lowerChar (c : ascii) : ascii :=
  let n := nat_of_ascii c in
  if Nat.leb 65 n && Nat.leb n 90 then ascii_of_nat (n + 32) else c.

Fixpoint toLowerCase (s : string) : string :=
  match s with
  | EmptyString => EmptyString
  | String c r => String (lowerChar c) (toLowerCase r)
  end.

(** [dropPrefix p s] is the rest of [s] after the literal prefix [p]. *)
Fixpoint dropPrefix (p s : string) : option string :=
  match p with
  | EmptyString => Some s
  | String a p' =>
      match s with
      | EmptyString => None
      | String b s' => if Ascii.eqb a b then dropPrefix p' s' else None
      end
  end.

(** [s.replace(/^(p1|p2|...):/, "")]: the first alternative that matches
    at the start of [s] is removed, once. *)
Fixpoint replacePrefix (alts : list string) (s : string) : string :=
  match alts with
  | [] => s
  | p :: rest =>
      match dropPrefix p s with
      | Some r => r
      | None => replacePrefix rest s
      end
  end.

(** Truthiness of a string: [Boolean(s)]. *)
Definition truthy (s : string) : bool :=
  match s with EmptyString => false | _ => true end.

(** [a || b] on strings that may be [undefined]. *)
Definition orElse (a b : option string) : option string :=
  match a with
  | Some s => if truthy s then a else b
  | None => b
  end.

Definition startsWithWhiteSpace (s : string) : bool :=
  match s with
  | EmptyString => false
  | String c _ => isWhiteSpace c
  end.

Definition hasPrefix (p s : string) : bool :=
  match dropPrefix p s with Some _ => true | None => false end.

End JS.

(** ** policy.ts: allow-list normalisation and matching *)

Definition platformPrefixes : list string := ["feishu:"; "lark:"].
Definition kindPrefixes : list string := ["user:"; "open:"; "chat:"].

(** The regular expressions carry the [i] flag, but they are applied to a
    string that has just been lower-cased, so they match the lower-case
    spellings only. *)
Definition normalizeFeishuAllowEntry (raw : string) : string :=
  JS.replacePrefix kindPrefixes
    (JS.replacePrefix platformPrefixes
       (JS.toLowerCase (JS.trim raw))).

Definition normalizeFeishuAllowlist (values : option (list string)) : list string :=
  List.filter (fun s => JS.truthy s)
    (map normalizeFeishuAllowEntry (default [] values)).

Inductive MatchSource := MatchWildcard | MatchId | MatchName.

(** [AllowlistMatch<"wildcard" | "id" | "name">] of the plugin SDK. *)
Record AllowlistMatch := {
  allowed : bool;
  matchKey : option string;
  matchSource : option MatchSource;
}.

Definition notAllowed : AllowlistMatch :=
  {| allowed := false; matchKey := None; matchSource := None |}.

(** [Array.prototype.includes] on strings. *)
Definition includes (l : list string) (s : string) : bool :=
  existsb (String.eqb s) l.

Definition resolveFeishuAllowlistMatch
    (allowFrom : option (list string)) (senderId : string)
    (senderUserId senderName : option string) : AllowlistMatch :=
  let allowFrom := normalizeFeishuAllowlist allowFrom in
  if Nat.eqb (List.length allowFrom) 0 then notAllowed
  else if includes allowFrom "*" then
    {| allowed := true; matchKey := Some "*"; matchSource := Some MatchWildcard |}
  else
    let candidates :=
      List.filter (fun s => JS.truthy s)
        (map normalizeFeishuAllowEntry [senderId; default "" senderUserId]) in
    match find (fun c => includes allowFrom c) candidates with
    | Some candidate =>
        {| allowed := true; matchKey := Some candidate; matchSource := Some MatchId |}
    | None =>
        let senderName :=
          match senderName with
          | Some n => if JS.truthy n then normalizeFeishuAllowEntry n else ""
          | None => ""
          end in
        if JS.truthy senderName && includes allowFrom senderName then
          {| allowed := true; matchKey := Some senderName; matchSource := Some MatchName |}
        else notAllowed
    end.

(** [FeishuChatConfig] of types.ts; the [tools] entry, which only
    [resolveFeishuGroupToolPolicy] reads, is left out. *)
Record FeishuChatConfig := {
  requireMention : option bool;
  skills : option (list string);
  enabled : option bool;
  allowFrom : option (list string);
  systemPrompt : option string;
}.

Inductive EntryMatchSource := SourceDirect | SourceParent | SourceWildcard.

(** Result of the SDK's [resolveChannelEntryMatchWithFallback]. *)
Record ChannelEntryMatch := {
  entry : option FeishuChatConfig;
  wildcardEntry : option FeishuChatConfig;
  key : option string;
  entryMatchKey : option string;
  entryMatchSource : option EntryMatchSource;
}.

Inductive GroupPolicy := GroupOpen | GroupDisabled | GroupAllowlist.
Inductive DmPolicy := DmPairing | DmAllowlist | DmOpen | DmDisabled.

Record MentionGateParams := {
  mg_isGroup : bool;
  mg_requireMention : bool;
  mg_canDetectMention : bool;
  mg_wasMentioned : bool;
  mg_allowTextCommands : bool;
  mg_hasControlCommand : bool;
  mg_commandAuthorized : bool;
}.

Record MentionGate := {
  shouldSkip : bool;
  shouldBypassMention : bool;
}.

Record CommandGate := {
  commandAuthorized : bool;
  shouldBlock : bool;
}.

(** The functions imported from ["clawdbot/plugin-sdk"]: the adapter calls
    them, their code is not part of it. *)
Class PluginSdk := {
  buildChannelKeyCandidates : list (option string) -> list string;
  normalizeChannelSlug : string -> string;
  resolveChannelEntryMatchWithFallback :
    gmap string FeishuChatConfig -> list string -> string ->
    (string -> string) -> ChannelEntryMatch;
  resolveNestedAllowlistDecision :
    forall (outerConfigured outerMatched innerConfigured innerMatched : bool), bool;
  resolveMentionGatingWithBypass : MentionGateParams -> MentionGate;
  (** [resolveControlCommandGate {useAccessGroups, authorizers,
      allowTextCommands, hasControlCommand}]; an authorizer is the pair
      [(configured, allowed)]. *)
  resolveControlCommandGate :
    bool -> list (bool * bool) -> bool -> bool -> CommandGate;
}.

Record FeishuChatMatch := {
  chatConfig : option FeishuChatConfig;
  wildcardConfig : option FeishuChatConfig;
  chatKey : option string;
  chatMatchSource : option EntryMatchSource;
  chatAllowed : bool;
  allowlistConfigured : bool;
}.

Section Policy.
Context `{sdk : PluginSdk}.

Definition resolveFeishuChatMatch
    (chats : option (gmap string FeishuChatConfig)) (chatId : string)
    (chatName : option string) : FeishuChatMatch :=
  let chats := default ∅ chats in
  let allowlistConfigured := negb (Nat.eqb (size chats) 0) in
  let chatName := JS.orElse (JS.trim <$> chatName) None in
  let candidates :=
    buildChannelKeyCandidates
      [Some chatId; chatName; normalizeChannelSlug <$> chatName] in
  let m :=
    resolveChannelEntryMatchWithFallback chats candidates "*" normalizeChannelSlug in
  let chatConfig := entry m in
  let allowed :=
    resolveNestedAllowlistDecision allowlistConfigured (bool_decide (is_Some chatConfig))
      false false in
  {| chatConfig := chatConfig;
     wildcardConfig := wildcardEntry m;
     chatKey := match entryMatchKey m with Some k => Some k | None => key m end;
     chatMatchSource := entryMatchSource m;
     chatAllowed := allowed;
     allowlistConfigured := allowlistConfigured |}.

Definition resolveFeishuRequireMention
    (chatConfig wildcardConfig : option FeishuChatConfig) : bool :=
  match chatConfig ≫= requireMention with
  | Some b => b
  | None =>
      match wildcardConfig ≫= requireMention with
      | Some b => b
      | None => true
      end
  end.

Record GroupAllow := {
  groupAllowed : bool;
  outerMatch : AllowlistMatch;
  innerMatch : AllowlistMatch;
}.

Definition policyMatch (b : bool) : AllowlistMatch :=
  {| allowed := b; matchKey := None; matchSource := None |}.

Definition resolveFeishuGroupAllow
    (groupPolicy : GroupPolicy) (outerAllowFrom innerAllowFrom : option (list string))
    (senderId : string) (senderUserId senderName : option string) : GroupAllow :=
  match groupPolicy with
  | GroupDisabled =>
      {| groupAllowed := false; outerMatch := policyMatch false; innerMatch := policyMatch false |}
  | GroupOpen =>
      {| groupAllowed := true; outerMatch := policyMatch true; innerMatch := policyMatch true |}
  | GroupAllowlist =>
      let outerAllow := normalizeFeishuAllowlist outerAllowFrom in
      let innerAllow := normalizeFeishuAllowlist innerAllowFrom in
      if Nat.eqb (List.length outerAllow) 0 && Nat.eqb (List.length innerAllow) 0 then
        {| groupAllowed := false; outerMatch := policyMatch false; innerMatch := policyMatch false |}
      else
        let outerMatch :=
          resolveFeishuAllowlistMatch outerAllowFrom senderId senderUserId senderName in
        let innerMatch :=
          resolveFeishuAllowlistMatch innerAllowFrom senderId senderUserId senderName in
        let allowed :=
          resolveNestedAllowlistDecision
            (negb (Nat.eqb (List.length outerAllow) 0) || negb (Nat.eqb (List.length innerAllow) 0))
            (if negb (Nat.eqb (List.length outerAllow) 0) then allowed outerMatch else true)
            (negb (Nat.eqb (List.length innerAllow) 0))
            (allowed innerMatch) in
        {| groupAllowed := allowed; outerMatch := outerMatch; innerMatch := innerMatch |}
  end.

Definition resolveFeishuMentionGate
    (isGroup requireMention wasMentioned allowTextCommands hasControlCommand
     commandAuthorized : bool) : MentionGate :=
  let result :=
    resolveMentionGatingWithBypass
      {| mg_isGroup := isGroup;
         mg_requireMention := requireMention;
         mg_canDetectMention := true;
         mg_wasMentioned := wasMentioned;
         mg_allowTextCommands := allowTextCommands;
         mg_hasControlCommand := hasControlCommand;
         mg_commandAuthorized := commandAuthorized |} in
  {| shouldSkip := shouldSkip result; shouldBypassMention := shouldBypassMention result |}.

End Policy.

(** ** types.ts: the inbound event *)

Record FeishuSenderId := {
  open_id : option string;
  user_id : option string;
  union_id : option string;
}.

Record FeishuMention := {
  mention_id : option FeishuSenderId;
  mention_name : option string;
  mention_key : option string;
}.

(** [FeishuMessage]; [msg_chatId] and [msg_chatType] are the camel-case
    keys the handler reads, through a cast, when the snake-case ones are
    absent. *)
Record FeishuMessage := {
  message_id : option string;
  msg_create_time : option string;
  chat_id : option string;
  chat_type : option string;
  message_type : option string;
  content : option string;
  mentions : option (list FeishuMention);
  msg_chatId : option string;
  msg_chatType : option string;
}.

(** [FeishuSender]; [flat_sender_id] holds the [open_id]/[user_id] keys
    found on the sender object itself ("some payloads flatten sender_id"). *)
Record FeishuSender := {
  sender_id : option FeishuSenderId;
  sender_type : option string;
  sender_tenant_key : option string;
  flat_sender_id : FeishuSenderId;
}.

Record FeishuEventHeader := {
  event_id : option string;
  event_type : option string;
  hdr_create_time : option string;
  hdr_tenant_key : option string;
  app_id : option string;
}.

(** The record that carries [sender] and [message]: either the [event]
    member of the payload or, in the flattened shape, the payload itself. *)
Record FeishuEventBody := {
  sender : option FeishuSender;
  message : option FeishuMessage;
  msg : option FeishuMessage;
  evt_tenant_key : option string;
}.

Record FeishuMessageEventPayload := {
  schema : option string;
  header : option FeishuEventHeader;
  event : option FeishuEventBody;
  flattened : FeishuEventBody;
}.

(** Account configuration: the entries of [FeishuAccountConfig] the
    monitor reads. *)
Record FeishuAccountConfig := {
  dmPolicy : option DmPolicy;
  cfg_allowFrom : option (list string);
  groupAllowFrom : option (list string);
  groupPolicy : option GroupPolicy;
  routeBySenderId : option bool;
  chats : option (gmap string FeishuChatConfig);
  wsIdleTimeoutSeconds : option Z;
  wsWatchdogIntervalSeconds : option Z;
  config_replyStatusReaction : option string;
  config_replyStatusText : option string;
}.

Record ResolvedFeishuAccount := {
  accountId : string;
  configured : bool;
  botOpenId : option string;
  config : FeishuAccountConfig;
}.

(** The entries of [ClawdbotConfig] the handler reads:
    [channels.defaults.groupPolicy] and [commands.useAccessGroups]. *)
Record ClawdbotConfig := {
  defaultGroupPolicy : option GroupPolicy;
  useAccessGroups : option bool;
}.

(** ** monitor: pure helpers *)

Definition digitValue (c : ascii) : option Z :=
  let n := nat_of_ascii c in
  if Nat.leb 48 n && Nat.leb n 57 then Some (Z.of_nat (n - 48)) else None.

(** The longest run of decimal digits at the start of [s], as a number;
    [acc] is [None] until a digit has been read. *)
Fixpoint parseDigits (acc : option Z) (s : string) : option Z :=
  match s with
  | EmptyString => acc
  | String c r =>
      match digitValue c with
      | Some d => parseDigits (Some (10 * default 0%Z acc + d)%Z) r
      | None => acc
      end
  end.

(** [Number.parseInt(s, 10)]; [None] is [NaN]. The value is the exact
    integer: a double holds it exactly up to 2^53, past that JavaScript
    rounds it to the nearest double. *)
Definition parseInt (s : string) : option Z :=
  match JS.trimStart s with
  | String "-" r => Z.opp <$> parseDigits None r
  | String "+" r => parseDigits None r
  | r => parseDigits None r
  end.

(** [Number.isFinite]: a parsed integer is [Infinity] as soon as it rounds
    past the largest double. *)
Definition Number_isFinite (n : Z) : bool :=
  (Z.abs n <? 2 ^ 1024 - 2 ^ 970)%Z.

Definition parseTimestamp (raw : option string) : option Z :=
  match raw with
  | None => None
  | Some raw =>
      if negb (JS.truthy raw) then None
      else
        match parseInt raw with
        | None => None
        | Some parsed =>
            if negb (Number_isFinite parsed) then None
            else if (parsed <? 10 ^ 11)%Z then Some (parsed * 1000)%Z
            else Some parsed
        end
  end.

(** [a ?? b] *)
Definition nullish {A} (a : option A) (b : option A) : option A :=
  match a with Some _ => a | None => b end.

Definition unwrapFeishuEvent (payload : FeishuMessageEventPayload)
    : FeishuEventBody * option FeishuMessage * option FeishuSender :=
  let evt := default (flattened payload) (event payload) in
  (evt, nullish (message evt) (msg evt), sender evt).

Record SenderIds := {
  senderId : string;
  senderOpenId : option string;
  senderUserId : option string;
}.

(** [sender.sender_id || sender]: the object the ids are read from. *)
Definition senderIdObject (s : FeishuSender) : FeishuSenderId :=
  match sender_id s with Some i => i | None => flat_sender_id s end.

Definition resolveSenderIds (payload : FeishuMessageEventPayload) : option SenderIds :=
  let '(_, _, sender) := unwrapFeishuEvent payload in
  let senderIdObj := senderIdObject <$> sender in
  let openId := JS.trim <$> (senderIdObj ≫= open_id) in
  let userId := JS.trim <$> (senderIdObj ≫= user_id) in
  match JS.orElse openId userId with
  | Some senderId =>
      if JS.truthy senderId then
        Some {| senderId := senderId;
                senderOpenId := JS.orElse openId None;
                senderUserId := JS.orElse userId None |}
      else None
  | None => None
  end.

Definition resolveTenantKey (payload : FeishuMessageEventPayload)
    (sender : option FeishuSender) (event : FeishuEventBody) : option string :=
  JS.orElse (JS.trim <$> (header payload ≫= hdr_tenant_key))
    (JS.orElse (JS.trim <$> (sender ≫= sender_tenant_key))
       (JS.orElse (JS.trim <$> evt_tenant_key event) None)).

Definition wasMentionedByFeishu (message : FeishuMessage) (botOpenId : option string) : bool :=
  let mentions := default [] (mentions message) in
  if Nat.eqb (List.length mentions) 0 then false
  else
    match JS.orElse botOpenId None with
    | None => true
    | Some botOpenId =>
        let target := JS.trim botOpenId in
        if negb (JS.truthy target) then true
        else
          existsb
            (fun mention =>
               bool_decide (JS.trim <$> (mention_id mention ≫= open_id) = Some target))
            mentions
    end.




(** ** monitor: the reply status of one inbound message *)

(** What the status closures of [handleFeishuMessage] read: the two
    settings of the account and the id of the inbound message. *)
Record ReplyStatusSettings := {
  cfg_replyStatusReaction : option string;
  cfg_replyStatusText : option string;
  inbound_message_id : option string;
}.

(** [account.config.replyStatusReaction?.trim()], as far as its
    truthiness and value are read. *)
Definition replyStatusReaction (c : ReplyStatusSettings) : option string :=
  JS.orElse (JS.trim <$> cfg_replyStatusReaction c) None.

Definition replyStatusText (c : ReplyStatusSettings) : option string :=
  match replyStatusReaction c with
  | Some _ => None
  | None => JS.orElse (JS.trim <$> cfg_replyStatusText c) None
  end.

Definition inboundMessageId (c : ReplyStatusSettings) : option string :=
  JS.orElse (JS.trim <$> inbound_message_id c) None.

(** [replyStatusReactionPromise]: not created, pending, or settled with
    the reaction id it resolved to. *)
Inductive ReactionPromise :=
  | NoPromise
  | PromisePending
  | PromiseSettled (reactionId : option string).

(** Calls of [addReactionFeishu], [deleteReactionFeishu] and, for the
    status text, [sendTextFeishu]. *)
Inductive StatusCall :=
  | AddReaction (messageId emojiType : string)
  | DeleteReaction (messageId reactionId : string)
  | SendStatusText (text : string).

(** The variables the closures share; [clearAwaiting] is whether a call of
    [clearReplyStatusReactionOnce] is suspended at its await. *)
Record ReplyStatus := {
  replyStatusReactionId : option string;
  replyStatusReactionPromise : ReactionPromise;
  replyStatusCleared : bool;
  clearAwaiting : bool;
  replyStatusTextSent : bool;
  statusCalls : list StatusCall;
}.

Definition statusCall (call : StatusCall) (s : ReplyStatus) : ReplyStatus :=
  {| replyStatusReactionId := replyStatusReactionId s;
     replyStatusReactionPromise := replyStatusReactionPromise s;
     replyStatusCleared := replyStatusCleared s;
     clearAwaiting := clearAwaiting s;
     replyStatusTextSent := replyStatusTextSent s;
     statusCalls := (statusCalls s ++ [call])%list |}.

(** [ensureReplyStatusReaction], up to the await inside the promise it
    creates. *)
Definition ensureReplyStatusReaction (c : ReplyStatusSettings) (s : ReplyStatus)
    : ReplyStatus :=
  match replyStatusReaction c, inboundMessageId c with
  | Some emoji, Some messageId =>
      match JS.orElse (replyStatusReactionId s) None with
      | Some _ => s
      | None =>
          match replyStatusReactionPromise s with
          | NoPromise =>
              statusCall (AddReaction messageId emoji)
                {| replyStatusReactionId := replyStatusReactionId s;
                   replyStatusReactionPromise := PromisePending;
                   replyStatusCleared := replyStatusCleared s;
                   clearAwaiting := clearAwaiting s;
                   replyStatusTextSent := replyStatusTextSent s;
                   statusCalls := statusCalls s |}
          | _ => s
          end
      end
  | _, _ => s
  end.

(** The end of [clearReplyStatusReactionOnce], once the reaction id is
    known. *)
Definition deleteStatusReaction (c : ReplyStatusSettings) (reactionId : option string)
    (s : ReplyStatus) : ReplyStatus :=
  match JS.orElse reactionId None, inboundMessageId c with
  | Some reaction, Some messageId => statusCall (DeleteReaction messageId reaction) s
  | _, _ => s
  end.

Definition clearReplyStatusReactionOnce (c : ReplyStatusSettings) (s : ReplyStatus)
    : ReplyStatus :=
  if replyStatusCleared s then s
  else
    let cleared awaiting :=
      {| replyStatusReactionId := replyStatusReactionId s;
         replyStatusReactionPromise := replyStatusReactionPromise s;
         replyStatusCleared := true;
         clearAwaiting := awaiting;
         replyStatusTextSent := replyStatusTextSent s;
         statusCalls := statusCalls s |} in
    match replyStatusReactionId s with
    | Some reaction => deleteStatusReaction c (Some reaction) (cleared false)
    | None =>
        match replyStatusReactionPromise s with
        | NoPromise => cleared false
        | PromisePending => cleared true
        | PromiseSettled reaction => deleteStatusReaction c reaction (cleared false)
        end
    end.

(** The promise settles: [result] is the reaction id [addReactionFeishu]
    resolved with, [None] when it threw. A suspended clear goes on. *)
Definition reactionSettled (c : ReplyStatusSettings) (result : option (option string))
    (s : ReplyStatus) : ReplyStatus :=
  match replyStatusReactionPromise s with
  | PromisePending =>
      let value := match result with Some v => v | None => None end in
      let s' :=
        {| replyStatusReactionId :=
             match result with Some v => v | None => replyStatusReactionId s end;
           replyStatusReactionPromise := PromiseSettled value;
           replyStatusCleared := replyStatusCleared s;
           clearAwaiting := false;
           replyStatusTextSent := replyStatusTextSent s;
           statusCalls := statusCalls s |} in
      if clearAwaiting s then deleteStatusReaction c value s' else s'
  | _ => s
  end.

Definition ensureReplyStatusText (c : ReplyStatusSettings) (s : ReplyStatus) : ReplyStatus :=
  match replyStatusText c with
  | Some text =>
      if replyStatusTextSent s then s
      else
        statusCall (SendStatusText text)
          {| replyStatusReactionId := replyStatusReactionId s;
             replyStatusReactionPromise := replyStatusReactionPromise s;
             replyStatusCleared := replyStatusCleared s;
             clearAwaiting := clearAwaiting s;
             replyStatusTextSent := true;
             statusCalls := statusCalls s |}
  | None => s
  end.

(** [ReplyStart] is a call of [onReplyStart]; [ClearRequested] one of the
    places that clear the reaction: before a chunk is sent, on a reply
    error, after the dispatch. *)
Inductive StatusEvent :=
  | ReplyStart
  | ClearRequested
  | ReactionSettled (result : option (option string)).

Definition statusStep (c : ReplyStatusSettings) (e : StatusEvent) (s : ReplyStatus)
    : ReplyStatus :=
  match e with
  | ReplyStart =>
      match replyStatusReaction c with
      | Some _ => ensureReplyStatusReaction c s
      | None =>
          match replyStatusText c with
          | Some _ => ensureReplyStatusText c s
          | None => s
          end
      end
  | ClearRequested =>
      match replyStatusReaction c with
      | Some _ => clearReplyStatusReactionOnce c s
      | None => s
      end
  | ReactionSettled result => reactionSettled c result s
  end.

(** The closures as the handler leaves them when it starts the dispatch:
    the status has been asked for once. *)
Definition statusStart (c : ReplyStatusSettings) : ReplyStatus :=
  statusStep c ReplyStart
    {| replyStatusReactionId := None; replyStatusReactionPromise := NoPromise;
       replyStatusCleared := false; clearAwaiting := false;
       replyStatusTextSent := false; statusCalls := [] |}.

Fixpoint statusRun (c : ReplyStatusSettings) (events : list StatusEvent) (s : ReplyStatus)
    : ReplyStatus :=
  match events with
  | [] => s
  | e :: rest => statusRun c rest (statusStep c e s)
  end.

(** The calls a state of the closures accounts for. *)
Definition expectedStatusCalls (c : ReplyStatusSettings) (s : ReplyStatus)
    : list StatusCall :=
  let messageId := default "" (inboundMessageId c) in
  ((if replyStatusTextSent s then [SendStatusText (default "" (replyStatusText c))] else [])
   ++ match replyStatusReactionPromise s with
      | NoPromise => []
      | _ => [AddReaction messageId (default "" (replyStatusReaction c))]
      end
   ++ match replyStatusReactionPromise s with
      | PromiseSettled (Some reaction) =>
          if replyStatusCleared s && JS.truthy reaction
          then [DeleteReaction messageId reaction] else []
      | _ => []
      end)%list.

(** What holds of the closures throughout a dispatch. *)
Definition statusInv (c : ReplyStatusSettings) (s : ReplyStatus) : Prop :=
  statusCalls s = expectedStatusCalls c s
  /\ (replyStatusTextSent s = true -> replyStatusText c <> None)
  /\ (replyStatusReactionPromise s = NoPromise
      <-> replyStatusReaction c = None \/ inboundMessageId c = None)
  /\ replyStatusReactionId s
     = match replyStatusReactionPromise s with PromiseSettled v => v | _ => None end
  /\ (clearAwaiting s = true <->
      replyStatusCleared s = true /\ replyStatusReactionPromise s = PromisePending)
  /\ (replyStatusCleared s = true -> replyStatusReaction c <> None).

(** ** monitor: the message handler *)

Inductive ChatType := ChatGroup | ChatDirect.
Inductive PeerKind := PeerGroup | PeerDm.

Record RouteParams := {
  route_accountId : string;
  route_senderId : string;
  route_teamId : option string;
  route_peerKind : PeerKind;
  route_peerId : string;
  route_fallbackAgentId : option string;
}.

Record AgentRoute := {
  agentId : string;
  sessionKey : string;
  routeAccountId : string;
  matchedByFallback : bool;
}.

(** The envelope [finalizeInboundContext] receives. *)
Record InboundContext := {
  ctx_RawBody : string;
  ctx_From : string;
  ctx_To : string;
  ctx_SessionKey : string;
  ctx_AccountId : string;
  ctx_ChatType : ChatType;
  ctx_SenderId : string;
  ctx_GroupSubject : option string;
  ctx_GroupSystemPrompt : option string;
  ctx_WasMentioned : option bool;
  ctx_MessageSid : option string;
  ctx_Timestamp : Z;
  ctx_CommandAuthorized : bool;
}.

(** What the agent runtime and the platform do to the status closures
    during a dispatch: the dispatcher calls [onReplyStart], a delivery
    calls [onBeforeSend], the dispatcher reports an error to [onError], the
    pending call of [addReactionFeishu] settles. *)
Inductive DispatchEvent :=
  | OnReplyStart
  | OnBeforeSend
  | OnReplyError
  | AddReactionSettles.

(** The collaborators reached through [core.channel], the JSON parser and
    the platform's send API. *)
Class CoreRuntime := {
  (** [JSON.parse(raw)] gave a non-array object whose [text] is a string. *)
  jsonTextOf : string -> option string;
  shouldHandleTextCommands : ClawdbotConfig -> bool;
  hasControlCommand : string -> ClawdbotConfig -> bool;
  (** [buildMentionRegexes(config).length] is not zero. *)
  hasMentionRegexes : ClawdbotConfig -> bool;
  matchesMentionPatterns : string -> ClawdbotConfig -> bool;
  buildPairingReply : string -> string -> string;
  resolveAgentRoute : ClawdbotConfig -> RouteParams -> AgentRoute;
  (** [client.im.message.create] resolved (rather than threw). *)
  apiCreateMessage : string -> string -> bool;
  (** What [addReactionFeishu messageId emojiType] settles with: the
      reaction id it resolves to, [None] when it throws. *)
  addReactionFeishu : string -> string -> option (option string);
  (** What happens to the status closures while
      [dispatchReplyFromConfig] is awaited, in order. *)
  dispatchEvents : InboundContext -> list DispatchEvent;
}.

(** The pairing collaborator: [upsertPairingRequest store id userId] is
    the new store, the code and the [created] flag. *)
Class PairingStore := {
  pairing : Type;
  upsertPairingRequest : pairing -> string -> option string -> pairing * (string * bool);
}.

Inductive DropReason :=
  | ChatNotAllowlisted
  | ChatDisabled
  | ControlCommandUnauthorized
  | GroupSenderPolicy (policy : GroupPolicy)
  | DmDisabledPolicy
  | DmSenderPolicy (policy : DmPolicy)
  | NoMention.

(** What the handler does to the outside, in order. *)
Inductive Effect :=
  | StatusInbound (lastInboundAt : Z)
  | ActivityInbound (at_ : Z)
  | LogDrop (target : string) (reason : DropReason)
  | LogPairingReplyFailed (senderId : string)
  | SendTextFeishu (chatId : string) (text : string)
  | PersistSenderBinding (senderId : string) (agent : string)
  | RecordInboundSession (ctx : InboundContext)
  | AddReactionFeishu (messageId emojiType : string)
  | DeleteReactionFeishu (messageId reactionId : string)
  | DispatchReply (ctx : InboundContext).

Section Handler.
Context `{sdk : PluginSdk} `{core : CoreRuntime} `{store : PairingStore}.

Record World := {
  pairingStore : pairing;
  effects : list Effect;
}.

(** Handler code: a state transformer that may [return] early. [None] is
    the early return. *)
Definition Handler (A : Type) : Type := World -> World * option A.

Definition ret {A} (a : A) : Handler A := fun w => (w, Some a).

Definition andThen {A B} (m : Handler A) (k : A -> Handler B) : Handler B :=
  fun w =>
    match m w with
    | (w', Some a) => k a w'
    | (w', None) => (w', None)
    end.

Definition returnEarly {A} : Handler A := fun w => (w, None).

Definition emit (e : Effect) : Handler unit :=
  fun w => ({| pairingStore := pairingStore w; effects := (effects w ++ [e])%list |}, Some tt).

Definition orReturn {A} (a : option A) : Handler A :=
  match a with Some x => ret x | None => returnEarly end.

Definition returnIf (b : bool) : Handler unit :=
  if b then returnEarly else ret tt.

Definition upsert (id : string) (userId : option string) : Handler (string * bool) :=
  fun w =>
    let '(s, r) := upsertPairingRequest (pairingStore w) id userId in
    ({| pairingStore := s; effects := effects w |}, Some r).

Notation "x <- m ;; k" := (andThen m (fun x => k))
  (at level 100, m at next level, right associativity).
Notation "m ;;; k" := (andThen m (fun _ => k))
  (at level 100, right associativity).

Definition parseMessageContent (message : FeishuMessage) : option string :=
  match JS.orElse (JS.trim <$> content message) None with
  | None => None
  | Some raw =>
      match jsonTextOf raw with
      | Some text => if JS.truthy (JS.trim text) then Some (JS.trim text) else Some raw
      | None => Some raw
      end
  end.

(** send.ts [sendTextFeishu]: [true] when the call resolves, [false] when
    it throws. *)
Definition sendTextFeishu (account : ResolvedFeishuAccount) (chatId text : string)
    : Handler bool :=
  emit (SendTextFeishu chatId text) ;;;
  if negb (configured account) then ret false
  else
    let body := JS.trim text in
    if negb (JS.truthy body) then ret false
    else ret (apiCreateMessage chatId body).

(** The timestamp of an event: the message's [create_time], else the
    header's, else the local receipt time [now]. *)
Definition resolveTimestamp (message : FeishuMessage)
    (payload : FeishuMessageEventPayload) (now : Z) : Z :=
  default now
    (nullish (parseTimestamp (msg_create_time message))
       (parseTimestamp (header payload ≫= hdr_create_time))).

(** The allow-lists the handler derives from the account configuration
    and from the persisted pairing store. *)
Definition effectiveAllowFromOf (account : ResolvedFeishuAccount)
    (storeAllowFrom : list string) : list string :=
  let configAllowFrom := normalizeFeishuAllowlist (cfg_allowFrom (config account)) in
  let storeAllowList := normalizeFeishuAllowlist (Some storeAllowFrom) in
  List.filter (fun s => JS.truthy s) (configAllowFrom ++ storeAllowList)%list.

Definition effectiveGroupAllowFromOf (account : ResolvedFeishuAccount)
    (storeAllowFrom : list string) : list string :=
  let configAllowFrom := normalizeFeishuAllowlist (cfg_allowFrom (config account)) in
  let configGroupAllowFrom := normalizeFeishuAllowlist (groupAllowFrom (config account)) in
  let storeAllowList := normalizeFeishuAllowlist (Some storeAllowFrom) in
  let baseGroupAllowFrom :=
    if Nat.ltb 0 (List.length configGroupAllowFrom) then configGroupAllowFrom
    else configAllowFrom in
  List.filter (fun s => JS.truthy s) (baseGroupAllowFrom ++ storeAllowList)%list.

(** The direct-message branch of the admission step. *)
Definition admitDirect (account : ResolvedFeishuAccount) (dmPolicy : DmPolicy)
    (effectiveAllowFrom : list string) (senderIds : SenderIds) (chatId : string)
    : Handler unit :=
  match dmPolicy with
  | DmDisabled => emit (LogDrop (senderId senderIds) DmDisabledPolicy) ;;; returnEarly
  | DmOpen => ret tt
  | _ =>
      let dmAllowed :=
        allowed (resolveFeishuAllowlistMatch (Some effectiveAllowFrom)
                   (senderId senderIds) (senderUserId senderIds)
                   (Some (senderId senderIds))) in
      if dmAllowed then ret tt
      else
        (match dmPolicy with
         | DmPairing =>
             r <- upsert (senderId senderIds) (senderUserId senderIds) ;;
             let '(code, created) := r in
             if created then
               sent <- sendTextFeishu account chatId
                         (buildPairingReply
                            (String.append "Your Feishu user id: " (senderId senderIds))
                            code) ;;
               if sent then ret tt
               else emit (LogPairingReplyFailed (senderId senderIds))
             else ret tt
         | _ => ret tt
         end) ;;;
        emit (LogDrop (senderId senderIds) (DmSenderPolicy dmPolicy)) ;;;
        returnEarly
  end.

(** The group branch of the admission step. *)
Definition admitGroup (groupPolicy : GroupPolicy)
    (effectiveGroupAllowFrom chatAllowFrom : list string) (senderIds : SenderIds)
    : Handler unit :=
  let groupAllow :=
    resolveFeishuGroupAllow groupPolicy (Some effectiveGroupAllowFrom) (Some chatAllowFrom)
      (senderId senderIds) (senderUserId senderIds) (Some (senderId senderIds)) in
  if negb (groupAllowed groupAllow) then
    emit (LogDrop (senderId senderIds) (GroupSenderPolicy groupPolicy)) ;;; returnEarly
  else ret tt.

(** [message.chat_type?.trim().toLowerCase() ?? message.chatType?.toLowerCase()] *)
Definition chatTypeOf (message : FeishuMessage) : option string :=
  nullish ((fun s => JS.toLowerCase (JS.trim s)) <$> chat_type message)
    (JS.toLowerCase <$> msg_chatType message).

(** [event.sender.sender_type], trimmed and lower-cased. *)
Definition senderTypeOf (evt : FeishuEventBody) : option string :=
  (fun s => JS.toLowerCase (JS.trim s)) <$> (sender evt ≫= sender_type).

(** [account.botOpenId && senderIds.senderOpenId === account.botOpenId] *)
Definition sentByBot (account : ResolvedFeishuAccount) (senderIds : SenderIds) : bool :=
  match JS.orElse (botOpenId account) None with
  | Some bot => bool_decide (senderOpenId senderIds = Some bot)
  | None => false
  end.

(** The first stretch of [handleFeishuMessage], the checks that come
    before any effect: the message, the sender ids, the chat id and the
    trimmed body of an event that passes them, [None] for an event the
    handler returns on silently. *)
Definition routeInbound (payload : FeishuMessageEventPayload)
    (account : ResolvedFeishuAccount)
    : option (FeishuMessage * SenderIds * string * string) :=
  let '(evt, message, _) := unwrapFeishuEvent payload in
  message ← message;
  if bool_decide (senderTypeOf evt = Some "app") then None
  else
    senderIds ← resolveSenderIds payload;
    if sentByBot account senderIds then None
    else
      chatId ← JS.orElse (nullish (JS.trim <$> chat_id message) (msg_chatId message)) None;
      text ← parseMessageContent message;
      if negb (JS.truthy text) then None
      else if negb (JS.truthy (JS.trim text)) then None
      else Some (message, senderIds, chatId, JS.trim text).

(** The settings the status closures of one message read. *)
Definition replyStatusSettings (account : ResolvedFeishuAccount) (message : FeishuMessage)
    : ReplyStatusSettings :=
  {| cfg_replyStatusReaction := config_replyStatusReaction (config account);
     cfg_replyStatusText := config_replyStatusText (config account);
     inbound_message_id := message_id message |}.

(** The calls the status closures make, as effects of the handler: the
    status text goes out through [sendTextFeishu]. Each call sits in a
    [try]; the error line of a call that throws is not part of the
    trace. *)
Fixpoint performStatusCalls (account : ResolvedFeishuAccount) (chatId : string)
    (calls : list StatusCall) : Handler unit :=
  match calls with
  | [] => ret tt
  | call :: rest =>
      (match call with
       | AddReaction messageId emojiType => emit (AddReactionFeishu messageId emojiType)
       | DeleteReaction messageId reactionId =>
           emit (DeleteReactionFeishu messageId reactionId)
       | SendStatusText text => sendTextFeishu account chatId text ;;; ret tt
       end) ;;;
      performStatusCalls account chatId rest
  end.

Definition statusEventOf (settings : ReplyStatusSettings) (e : DispatchEvent) : StatusEvent :=
  match e with
  | OnReplyStart => ReplyStart
  | OnBeforeSend | OnReplyError => ClearRequested
  | AddReactionSettles =>
      ReactionSettled
        (addReactionFeishu (default "" (inboundMessageId settings))
           (default "" (replyStatusReaction settings)))
  end.

(** The closures once everything the handler started has run: after the
    dispatch it clears the reaction; if the call that adds the reaction is
    still pending, a clear is suspended on it (this one, awaited by the
    handler, or an earlier one, in which case the handler returns at
    once) and goes on when that call settles. *)
Definition statusAfterDispatch (settings : ReplyStatusSettings) (ctx : InboundContext)
    : ReplyStatus :=
  let dispatched :=
    statusRun settings (map (statusEventOf settings) (dispatchEvents ctx))
      (statusStart settings) in
  let cleared := statusStep settings ClearRequested dispatched in
  if clearAwaiting cleared then
    statusStep settings (statusEventOf settings AddReactionSettles) cleared
  else cleared.

(** The end of [handleFeishuMessage], from the session record on: the
    status is asked for, the reply is dispatched, the status reaction is
    cleared. *)
Definition dispatchWithStatus (account : ResolvedFeishuAccount) (chatId : string)
    (message : FeishuMessage) (ctxPayload : InboundContext) : Handler unit :=
  emit (RecordInboundSession ctxPayload) ;;;
  let settings := replyStatusSettings account message in
  let started := statusStart settings in
  performStatusCalls account chatId (statusCalls started) ;;;
  emit (DispatchReply ctxPayload) ;;;
  let finished := statusAfterDispatch settings ctxPayload in
  performStatusCalls account chatId
    (skipn (List.length (statusCalls started)) (statusCalls finished)).

(** The effect a call of the status closures is. *)
Definition statusEffect (chatId : string) (call : StatusCall) : Effect :=
  match call with
  | AddReaction messageId emojiType => AddReactionFeishu messageId emojiType
  | DeleteReaction messageId reactionId => DeleteReactionFeishu messageId reactionId
  | SendStatusText text => SendTextFeishu chatId text
  end.

(** What the handler asks for before the dispatch: the reaction on the
    inbound message, or else the status text. *)
Definition statusRequest (chatId : string) (settings : ReplyStatusSettings) : list Effect :=
  match replyStatusReaction settings with
  | Some emoji =>
      match inboundMessageId settings with
      | Some messageId => [AddReactionFeishu messageId emoji]
      | None => []
      end
  | None =>
      match replyStatusText settings with
      | Some text => [SendTextFeishu chatId text]
      | None => []
      end
  end.

(** What it takes back: the reaction, if the call that added it resolved
    with an id. *)
Definition statusCleanup (settings : ReplyStatusSettings) : list Effect :=
  match replyStatusReaction settings, inboundMessageId settings with
  | Some emoji, Some messageId =>
      match addReactionFeishu messageId emoji with
      | Some (Some reactionId) =>
          if JS.truthy reactionId then [DeleteReactionFeishu messageId reactionId] else []
      | _ => []
      end
  | _, _ => []
  end.

(** What a step keeps: whether the status text has been sent, and, when
    the settlements carry what the add call settles with, the value of
    the settled promise. *)
Definition statusKept (c : ReplyStatusSettings) (value : option string) (s : ReplyStatus)
    : Prop :=
  replyStatusTextSent s = match replyStatusText c with Some _ => true | None => false end
  /\ (forall v, replyStatusReactionPromise s = PromiseSettled v -> v = value).

Definition settledValue (result : option (option string)) : option string :=
  match result with Some v => v | None => None end.

(** The texts sent through [sendTextFeishu], with the chats they go to. *)
Definition sentTexts (l : list Effect) : list (string * string) :=
  omap (fun e => match e with SendTextFeishu chatId text => Some (chatId, text) | _ => None end)
    l.

Definition handleFeishuMessage (payload : FeishuMessageEventPayload)
    (account : ResolvedFeishuAccount) (cfg : ClawdbotConfig)
    (now : Z) (storeAllowFrom : list string) : Handler unit :=
  routed <- orReturn (routeInbound payload account) ;;
  let '(message, senderIds, chatId, rawBody) := routed in
  let '(evt, _, evtSender) := unwrapFeishuEvent payload in
  let tenantKey := resolveTenantKey payload evtSender evt in
  let senderRouteId := default (senderId senderIds) (senderOpenId senderIds) in
  let routeBySenderId := bool_decide (routeBySenderId (config account) = Some true) in
  let timestamp := resolveTimestamp message payload now in
  emit (StatusInbound timestamp) ;;;
  emit (ActivityInbound timestamp) ;;;
  let chatType := chatTypeOf message in
  let isGroup := negb (bool_decide (chatType = Some "p2p")) in
  let dmPolicy := default DmPairing (dmPolicy (config account)) in
  let groupPolicy :=
    default GroupAllowlist
      (nullish (groupPolicy (config account)) (defaultGroupPolicy cfg)) in
  let chatMatch := resolveFeishuChatMatch (chats (config account)) chatId None in
  let chatConfig := chatConfig chatMatch in
  (if isGroup && negb (chatAllowed chatMatch) then
     emit (LogDrop chatId ChatNotAllowlisted) ;;; returnEarly
   else ret tt) ;;;
  (if bool_decide (chatConfig ≫= enabled = Some false) then
     emit (LogDrop chatId ChatDisabled) ;;; returnEarly
   else ret tt) ;;;
  let chatAllowFrom := normalizeFeishuAllowlist (chatConfig ≫= allowFrom) in
  let effectiveAllowFrom := effectiveAllowFromOf account storeAllowFrom in
  let effectiveGroupAllowFrom := effectiveGroupAllowFromOf account storeAllowFrom in
  let allowTextCommands := shouldHandleTextCommands cfg in
  let useAccessGroups := negb (bool_decide (useAccessGroups cfg = Some false)) in
  let senderAllowedForCommands :=
    allowed
      (resolveFeishuAllowlistMatch
         (Some (if isGroup then (effectiveGroupAllowFrom ++ chatAllowFrom)%list
                else effectiveAllowFrom))
         (senderId senderIds) (senderUserId senderIds) (Some (senderId senderIds))) in
  let hasControlCommand := hasControlCommand rawBody cfg in
  let commandGate :=
    resolveControlCommandGate useAccessGroups
      [(Nat.ltb 0 (List.length (if isGroup then effectiveGroupAllowFrom
                                else effectiveAllowFrom)),
        senderAllowedForCommands)]
      allowTextCommands hasControlCommand in
  let commandAuthorized := commandAuthorized commandGate in
  (if isGroup && shouldBlock commandGate then
     emit (LogDrop (senderId senderIds) ControlCommandUnauthorized) ;;; returnEarly
   else ret tt) ;;;
  (if isGroup then admitGroup groupPolicy effectiveGroupAllowFrom chatAllowFrom senderIds
   else admitDirect account dmPolicy effectiveAllowFrom senderIds chatId) ;;;
  let wasMentionedByPatterns :=
    if hasMentionRegexes cfg then matchesMentionPatterns rawBody cfg else false in
  let wasMentioned :=
    if isGroup then wasMentionedByPatterns || wasMentionedByFeishu message (botOpenId account)
    else false in
  let shouldRequireMention :=
    if isGroup then resolveFeishuRequireMention chatConfig (wildcardConfig chatMatch)
    else false in
  let mentionGate :=
    resolveFeishuMentionGate isGroup shouldRequireMention wasMentioned allowTextCommands
      hasControlCommand commandAuthorized in
  (if isGroup && shouldSkip mentionGate then
     emit (LogDrop chatId NoMention) ;;; returnEarly
   else ret tt) ;;;
  let byFallback := routeBySenderId && JS.truthy senderRouteId in
  let route :=
    resolveAgentRoute cfg
      {| route_accountId := accountId account;
         route_senderId := senderRouteId;
         route_teamId := tenantKey;
         route_peerKind := if isGroup then PeerGroup else PeerDm;
         route_peerId := if isGroup then chatId else senderId senderIds;
         route_fallbackAgentId := if byFallback then Some senderRouteId else None |} in
  (if byFallback && matchedByFallback route then
     emit (PersistSenderBinding senderRouteId (agentId route))
   else ret tt) ;;;
  let ctxPayload :=
    {| ctx_RawBody := rawBody;
       ctx_From := if isGroup then String.append "feishu:chat:" chatId
                   else String.append "feishu:" (senderId senderIds);
       ctx_To := String.append "feishu:" chatId;
       ctx_SessionKey := sessionKey route;
       ctx_AccountId := routeAccountId route;
       ctx_ChatType := if isGroup then ChatGroup else ChatDirect;
       ctx_SenderId := senderId senderIds;
       ctx_GroupSubject := if isGroup then Some chatId else None;
       ctx_GroupSystemPrompt :=
         if isGroup then JS.orElse (JS.trim <$> (chatConfig ≫= systemPrompt)) None
         else None;
       ctx_WasMentioned := if isGroup then Some wasMentioned else None;
       ctx_MessageSid := message_id message;
       ctx_Timestamp := timestamp;
       ctx_CommandAuthorized := commandAuthorized |} in
  dispatchWithStatus account chatId message ctxPayload.

(** [DispatchReply] stands for [dispatchReplyFromConfig] with the reply
    dispatcher the handler builds; the deliveries the agent runtime asks
    that dispatcher for happen inside the call and are not followed here,
    the calls of the status closures are. [PersistSenderBinding] stands for
    the detached call of [persistFeishuSenderBinding]; [markDispatchIdle],
    a call on the dispatcher, is not traced. Every awaited call is taken
    to settle. *)

(** Messages handled one after the other; [now] and the payload vary, the
    account, the configuration and the persisted allow-list do not. *)
Fixpoint handleAll (events : list (FeishuMessageEventPayload * Z))
    (account : ResolvedFeishuAccount) (cfg : ClawdbotConfig)
    (storeAllowFrom : list string) (w : World) : World :=
  match events with
  | [] => w
  | (payload, now) :: rest =>
      handleAll rest account cfg storeAllowFrom
        (fst (handleFeishuMessage payload account cfg now storeAllowFrom w))
  end.

(** The chat entry that applies to [chatId] is explicitly disabled. *)
Definition chatDisabled (account : ResolvedFeishuAccount) (chatId : string) : bool :=
  bool_decide
    (chatConfig (resolveFeishuChatMatch (chats (config account)) chatId None) ≫= enabled
     = Some false).

(** The sender of a direct message is on the effective DM allow-list. *)
Definition dmAllowed (account : ResolvedFeishuAccount) (storeAllowFrom : list string)
    (senderIds : SenderIds) : bool :=
  allowed
    (resolveFeishuAllowlistMatch (Some (effectiveAllowFromOf account storeAllowFrom))
       (senderId senderIds) (senderUserId senderIds) (Some (senderId senderIds))).

(** Effects that neither reply nor hand anything to the agent runtime. *)
Definition isBookkeeping (e : Effect) : bool :=
  match e with
  | StatusInbound _ | ActivityInbound _ | LogDrop _ _ => true
  | _ => false
  end.

(** What the pairing branch does after the upsert: the reply, sent only
    for a request that was just created, and the error line when the send
    throws. *)
Definition pairingReplyEffects (account : ResolvedFeishuAccount) (chatId : string)
    (senderIds : SenderIds) (code : string) (created : bool) : list Effect :=
  if created then
    let text :=
      buildPairingReply (String.append "Your Feishu user id: " (senderId senderIds)) code in
    SendTextFeishu chatId text
    :: (if configured account && JS.truthy (JS.trim text)
           && apiCreateMessage chatId (JS.trim text)
        then [] else [LogPairingReplyFailed (senderId senderIds)])
  else [].

(** A direct message from [id] that reaches the DM admission step while
    [id] is not on the effective allow-list: it passes the checks of
    [routeInbound], its chat is a [p2p] chat whose entry is not disabled. *)
Definition unapprovedDirect (account : ResolvedFeishuAccount)
    (storeAllowFrom : list string) (id : string)
    (payload : FeishuMessageEventPayload) : Prop :=
  exists message senderIds chatId rawBody,
    routeInbound payload account = Some (message, senderIds, chatId, rawBody)
    /\ senderId senderIds = id
    /\ chatTypeOf message = Some "p2p"
    /\ chatDisabled account chatId = false
    /\ dmAllowed account storeAllowFrom senderIds = false.

(** A text sent through [sendTextFeishu]; on a path that ends in a drop
    the only such text is the pairing reply. *)
Definition isPairingReply (e : Effect) : bool :=
  match e with SendTextFeishu _ _ => true | _ => false end.

Definition isDispatch (e : Effect) : bool :=
  match e with DispatchReply _ | RecordInboundSession _ => true | _ => false end.

Definition countIf {A} (p : A -> bool) (l : list A) : nat :=
  List.length (List.filter p l).

End Handler.

(** ** JavaScript numbers *)

(** The Number type: IEEE 754 binary64, with the operations of the
    Standard Library's specification of floating-point arithmetic. *)
Module Double.

Definition prec : Z := 53.
Definition emax : Z := 1024.

Definition number : Type := spec_float.

Definition NaN : number := S754_nan.

(** The double nearest to an integer: the integer itself up to 2^53. *)
Definition ofZ (n : Z) : number := binary_normalize prec emax n 0 false.

Definition mul : number -> number -> number := SFmul prec emax.
Definition add : number -> number -> number := SFadd prec emax.
Definition div : number -> number -> number := SFdiv prec emax.

Definition isNaN (x : number) : bool :=
  match x with S754_nan => true | _ => false end.

(** [x <= y], false when either is [NaN]. *)
Definition leb : number -> number -> bool := SFleb.

(** The exact value of a finite number; 0 for infinities and [NaN]. *)
Definition toQ (x : number) : Q :=
  match x with
  | S754_finite s m e =>
      if (0 <=? e)%Z then inject_Z (cond_Zopp s (Zpos m) * 2 ^ e)
      else cond_Zopp s (Zpos m) # Z.to_pos (2 ^ (- e))
  | _ => 0
  end.

End Double.

(** [Math.round]: the nearest whole number, halves upwards; infinities,
    [NaN] and zeros are returned as they are, and a value that rounds to
    zero keeps its sign. For a finite [m * 2^e] with [e < 0] the nearest
    whole number is [floor ((2 m + 2^-e) / 2^(1-e))]. *)
Definition Math_round (x : Double.number) : Double.number :=
  match x with
  | S754_finite s m e =>
      if (0 <=? e)%Z then x
      else
        let n := Z.shiftr (2 * cond_Zopp s (Zpos m) + 2 ^ (- e)) (1 - e) in
        if (n =? 0)%Z then S754_zero s else Double.ofZ n
  | _ => x
  end.

(** [Math.min] of two numbers: [NaN] when either is, and [-0] below [+0]. *)
Definition Math_min (a b : Double.number) : Double.number :=
  match SFcompare a b with
  | None => Double.NaN
  | Some Lt => a
  | Some Gt => b
  | Some Eq =>
      match b with
      | S754_zero true => b
      | _ => a
      end
  end.

(** What the language leaves to the engine: the last step of [**], "an
    implementation-approximated Number value" for the power. *)
Class NumberEngine := {
  approximatePower : Double.number -> Double.number -> Double.number;
}.

(** [base ** exponent]: [NaN] for a [NaN] exponent, exactly 1 for a zero
    exponent, otherwise what the engine computes. *)
Definition exponentiate `{engine : NumberEngine} (base exponent : Double.number)
    : Double.number :=
  match exponent with
  | S754_nan => Double.NaN
  | S754_zero _ => Double.ofZ 1
  | _ => approximatePower base exponent
  end.

(** ** monitor: reconnect back-off *)

Record ReconnectPolicy := {
  initialMs : Double.number;
  maxMs : Double.number;
  factor : Double.number;
  jitter : Double.number;
}.

(** [{ initialMs: 2000, maxMs: 30000, factor: 1.8, jitter: 0.25 }]; the
    literals [1.8] and [0.25] are the doubles nearest to 18/10 and 25/100. *)
Definition WS_RECONNECT_POLICY : ReconnectPolicy :=
  {| initialMs := Double.ofZ 2000;
     maxMs := Double.ofZ 30000;
     factor := Double.div (Double.ofZ 18) (Double.ofZ 10);
     jitter := Double.div (Double.ofZ 25) (Double.ofZ 100) |}.

(** [computeBackoff policy attempt]; [random] is the value [Math.random()]
    returns. The attempt is a counter, held exactly as long as it stays
    below 2^53. *)
Definition computeBackoff `{engine : NumberEngine} (policy : ReconnectPolicy)
    (attempt : Z) (random : Double.number) : Double.number :=
  let base :=
    Double.mul (initialMs policy)
      (exponentiate (factor policy) (Double.ofZ (Z.max (attempt - 1) 0))) in
  let jitter := Double.mul (Double.mul base (jitter policy)) random in
  Math_min (maxMs policy) (Math_round (Double.add base jitter)).

(** ** monitor: the connection supervisor *)

(** Which of its optional methods the SDK's [WSClient] object has. *)
Record FeishuWsClient := {
  hasStart : bool;
  hasStop : bool;
  hasClose : bool;
}.

(** The await at which the body of a restart is suspended; [Settling] is
    the body finished, its [finally] callback not yet run. *)
Inductive RestartStage := AwaitStop | AwaitSleep | AwaitStart | Settling.

Record Restart := {
  stage : RestartStage;
  reason : string;
  delayMs : Double.number;
}.

Inductive SupervisorLog :=
  | LogStopping (reason : string)
  | LogIdleRestart (idleMs : Z)
  | LogRestarting (reason : string) (attempt : Z) (delayMs : Double.number)
  | LogConnectStart
  | LogConnectFailed.

(** The variables [monitorFeishuProvider] closes over. [restarts] holds
    the bodies of the async restart closures that have not finished yet;
    [restartInFlight] is whether the variable of that name is non-null. *)
Record Supervisor := {
  startup : bool;
  stopped : bool;
  aborted : bool;
  wsClient : option FeishuWsClient;
  watchdogTimer : bool;
  lastInboundAt : Z;
  reconnectAttempts : Z;
  restartInFlight : bool;
  restartQueued : bool;
  restarts : list Restart;
  connected : bool;
  supervisorLog : list SupervisorLog;
}.

Record SupervisorConfig := {
  idleTimeoutSeconds : Z;
  watchdogIntervalSeconds : Z;
  createWsClient : FeishuWsClient;
}.


(** What [Date.now()] and [Math.random()] return while a callback runs. *)
Record Clock := {
  clock_now : Z;
  clock_random : Double.number;
}.

Definition set_startup (b : bool) (s : Supervisor) : Supervisor :=
  {| startup := b; stopped := stopped s; aborted := aborted s; wsClient := wsClient s;
     watchdogTimer := watchdogTimer s; lastInboundAt := lastInboundAt s;
     reconnectAttempts := reconnectAttempts s; restartInFlight := restartInFlight s;
     restartQueued := restartQueued s; restarts := restarts s; connected := connected s;
     supervisorLog := supervisorLog s |}.

Definition set_stopped (b : bool) (s : Supervisor) : Supervisor :=
  {| startup := startup s; stopped := b; aborted := aborted s; wsClient := wsClient s;
     watchdogTimer := watchdogTimer s; lastInboundAt := lastInboundAt s;
     reconnectAttempts := reconnectAttempts s; restartInFlight := restartInFlight s;
     restartQueued := restartQueued s; restarts := restarts s; connected := connected s;
     supervisorLog := supervisorLog s |}.

Definition set_aborted (b : bool) (s : Supervisor) : Supervisor :=
  {| startup := startup s; stopped := stopped s; aborted := b; wsClient := wsClient s;
     watchdogTimer := watchdogTimer s; lastInboundAt := lastInboundAt s;
     reconnectAttempts := reconnectAttempts s; restartInFlight := restartInFlight s;
     restartQueued := restartQueued s; restarts := restarts s; connected := connected s;
     supervisorLog := supervisorLog s |}.

Definition set_wsClient (c : option FeishuWsClient) (s : Supervisor) : Supervisor :=
  {| startup := startup s; stopped := stopped s; aborted := aborted s; wsClient := c;
     watchdogTimer := watchdogTimer s; lastInboundAt := lastInboundAt s;
     reconnectAttempts := reconnectAttempts s; restartInFlight := restartInFlight s;
     restartQueued := restartQueued s; restarts := restarts s; connected := connected s;
     supervisorLog := supervisorLog s |}.

Definition set_watchdogTimer (b : bool) (s : Supervisor) : Supervisor :=
  {| startup := startup s; stopped := stopped s; aborted := aborted s; wsClient := wsClient s;
     watchdogTimer := b; lastInboundAt := lastInboundAt s;
     reconnectAttempts := reconnectAttempts s; restartInFlight := restartInFlight s;
     restartQueued := restartQueued s; restarts := restarts s; connected := connected s;
     supervisorLog := supervisorLog s |}.

Definition set_lastInboundAt (t : Z) (s : Supervisor) : Supervisor :=
  {| startup := startup s; stopped := stopped s; aborted := aborted s; wsClient := wsClient s;
     watchdogTimer := watchdogTimer s; lastInboundAt := t;
     reconnectAttempts := reconnectAttempts s; restartInFlight := restartInFlight s;
     restartQueued := restartQueued s; restarts := restarts s; connected := connected s;
     supervisorLog := supervisorLog s |}.

Definition set_reconnectAttempts (n : Z) (s : Supervisor) : Supervisor :=
  {| startup := startup s; stopped := stopped s; aborted := aborted s; wsClient := wsClient s;
     watchdogTimer := watchdogTimer s; lastInboundAt := lastInboundAt s;
     reconnectAttempts := n; restartInFlight := restartInFlight s;
     restartQueued := restartQueued s; restarts := restarts s; connected := connected s;
     supervisorLog := supervisorLog s |}.

Definition set_restartInFlight (b : bool) (s : Supervisor) : Supervisor :=
  {| startup := startup s; stopped := stopped s; aborted := aborted s; wsClient := wsClient s;
     watchdogTimer := watchdogTimer s; lastInboundAt := lastInboundAt s;
     reconnectAttempts := reconnectAttempts s; restartInFlight := b;
     restartQueued := restartQueued s; restarts := restarts s; connected := connected s;
     supervisorLog := supervisorLog s |}.

Definition set_restartQueued (b : bool) (s : Supervisor) : Supervisor :=
  {| startup := startup s; stopped := stopped s; aborted := aborted s; wsClient := wsClient s;
     watchdogTimer := watchdogTimer s; lastInboundAt := lastInboundAt s;
     reconnectAttempts := reconnectAttempts s; restartInFlight := restartInFlight s;
     restartQueued := b; restarts := restarts s; connected := connected s;
     supervisorLog := supervisorLog s |}.

Definition set_restarts (l : list Restart) (s : Supervisor) : Supervisor :=
  {| startup := startup s; stopped := stopped s; aborted := aborted s; wsClient := wsClient s;
     watchdogTimer := watchdogTimer s; lastInboundAt := lastInboundAt s;
     reconnectAttempts := reconnectAttempts s; restartInFlight := restartInFlight s;
     restartQueued := restartQueued s; restarts := l; connected := connected s;
     supervisorLog := supervisorLog s |}.

Definition set_connected (b : bool) (s : Supervisor) : Supervisor :=
  {| startup := startup s; stopped := stopped s; aborted := aborted s; wsClient := wsClient s;
     watchdogTimer := watchdogTimer s; lastInboundAt := lastInboundAt s;
     reconnectAttempts := reconnectAttempts s; restartInFlight := restartInFlight s;
     restartQueued := restartQueued s; restarts := restarts s; connected := b;
     supervisorLog := supervisorLog s |}.

Definition logLine (l : SupervisorLog) (s : Supervisor) : Supervisor :=
  {| startup := startup s; stopped := stopped s; aborted := aborted s; wsClient := wsClient s;
     watchdogTimer := watchdogTimer s; lastInboundAt := lastInboundAt s;
     reconnectAttempts := reconnectAttempts s; restartInFlight := restartInFlight s;
     restartQueued := restartQueued s; restarts := restarts s; connected := connected s;
     supervisorLog := (supervisorLog s ++ [l])%list |}.

Definition set_stage (st : RestartStage) (r : Restart) : Restart :=
  {| stage := st; reason := reason r; delayMs := delayMs r |}.

(** The abort signal and the [stopped] flag are read together at every
    resumption point. *)
Definition shutDown (s : Supervisor) : bool := stopped s || aborted s.

(** [stop(reason)] *)
Definition stop (why : string) (s : Supervisor) : Supervisor :=
  if stopped s then s
  else
    set_wsClient None
      (set_watchdogTimer false
         (logLine (LogStopping why)
            (set_connected false (set_stopped true s)))).

(** The synchronous part of [startWsClient], up to its await; the flag is
    [false] when it throws because the client has no [start]. *)
Definition startWsClient (cfg : SupervisorConfig) (s : Supervisor) : Supervisor * bool :=
  let s := set_wsClient (Some (createWsClient cfg)) (logLine LogConnectStart s) in
  if negb (hasStart (createWsClient cfg)) then (s, false)
  else (set_connected true s, true).

Section Supervisor.
Context `{engine : NumberEngine}.

(** [requestRestart(reason)]: the guard, the coalescing flag, and, when a
    restart is started, the body of the async closure up to its first
    await. *)
Definition requestRestart (clk : Clock) (why : string) (s : Supervisor) : Supervisor :=
  if shutDown s then s
  else if restartInFlight s then set_restartQueued true s
  else
    let attempts := (reconnectAttempts s + 1)%Z in
    let delay := computeBackoff WS_RECONNECT_POLICY attempts (clock_random clk) in
    let client := wsClient s in
    let awaitsClient :=
      match client with
      | Some c => hasStop c || hasClose c
      | None => false
      end in
    let body :=
      {| stage := if awaitsClient then AwaitStop else AwaitSleep;
         reason := why; delayMs := delay |} in
    set_restartInFlight true
      (set_restarts (body :: restarts s)
         (set_wsClient None
            (set_connected false
               (logLine (LogRestarting why attempts delay)
                  (set_reconnectAttempts attempts s))))).

(** The [finally] callback of a restart whose body was the [i]-th entry. *)
Definition settleRestart (clk : Clock) (i : nat) (s : Supervisor) : Supervisor :=
  let s := set_restartInFlight false (set_restarts (delete i (restarts s)) s) in
  if restartQueued s then requestRestart clk "retry" (set_restartQueued false s)
  else s.

(** The [i]-th pending restart runs from the await it is suspended at to
    the next one; [started] is what [startWsClient] returns when that is
    the call it was waiting for. *)
Definition resumeRestart (cfg : SupervisorConfig) (clk : Clock) (i : nat)
    (started : bool) (s : Supervisor) : Supervisor :=
  match restarts s !! i with
  | None => s
  | Some r =>
      let goto st s := set_restarts (<[i := set_stage st r]> (restarts s)) s in
      match stage r with
      | AwaitStop => goto AwaitSleep s
      | AwaitSleep =>
          if aborted s then goto Settling s
          else if shutDown s then goto Settling s
          else
            let '(s, reached) := startWsClient cfg s in
            if reached then goto AwaitStart s else goto Settling s
      | AwaitStart =>
          if started then
            goto Settling
              (set_lastInboundAt (clock_now clk) (set_reconnectAttempts 0 s))
          else
            goto Settling
              (set_restartQueued true (logLine LogConnectFailed (set_connected false s)))
      | Settling => settleRestart clk i s
      end
  end.

(** [ensureWatchdog()] *)
Definition ensureWatchdog (cfg : SupervisorConfig) (s : Supervisor) : Supervisor :=
  if watchdogTimer s then s
  else if (idleTimeoutSeconds cfg <=? 0)%Z || (watchdogIntervalSeconds cfg <=? 0)%Z then s
  else set_watchdogTimer true s.

(** The callback handed to [setInterval]. *)
Definition watchdogTick (cfg : SupervisorConfig) (clk : Clock) (s : Supervisor) : Supervisor :=
  if shutDown s then s
  else
    let idleMs := (clock_now clk - lastInboundAt s)%Z in
    if (idleMs <? idleTimeoutSeconds cfg * 1000)%Z then s
    else requestRestart clk "idle-timeout" (logLine (LogIdleRestart idleMs) s).

(** The ["im.message.receive_v1"] callback, as far as the supervisor is
    concerned. *)
Definition onInbound (clk : Clock) (s : Supervisor) : Supervisor :=
  if shutDown s then s else set_lastInboundAt (clock_now clk) s.

(** [monitorFeishuProvider] up to its first await, for a configured
    account; [alreadyAborted] is the state of the signal it is given. *)
Definition monitorFeishuProvider (cfg : SupervisorConfig) (alreadyAborted : bool)
    (clk : Clock) : Supervisor :=
  let s :=
    {| startup := true; stopped := false; aborted := alreadyAborted; wsClient := None;
       watchdogTimer := false; lastInboundAt := clock_now clk; reconnectAttempts := 0;
       restartInFlight := false; restartQueued := false; restarts := [];
       connected := false; supervisorLog := [] |} in
  let '(s, reached) := startWsClient cfg s in
  if reached then s else set_startup false s.

(** The rest of [monitorFeishuProvider], once the first [startWsClient]
    has returned [started]. *)
Definition startupSettled (cfg : SupervisorConfig) (started : bool) (s : Supervisor)
    : Supervisor :=
  if negb (startup s) then s
  else
    let s := set_startup false s in
    if negb started then set_connected false s
    else
      let s := ensureWatchdog cfg s in
      if aborted s then stop "shutdown" s else s.

Inductive Event :=
  | StartupSettled (started : bool)
  | WatchdogTick
  | InboundEvent
  | AbortSignal
  | StopCalled
  | RestartTrigger (why : string)
  | RestartResumed (i : nat) (started : bool).

(** One callback of the event loop. A tick only happens while the timer
    is armed; [RestartTrigger] stands for any caller of [requestRestart]. *)
Definition step (cfg : SupervisorConfig) (clk : Clock) (e : Event) (s : Supervisor)
    : Supervisor :=
  match e with
  | StartupSettled started => startupSettled cfg started s
  | WatchdogTick => if watchdogTimer s then watchdogTick cfg clk s else s
  | InboundEvent => onInbound clk s
  | AbortSignal =>
      if aborted s then s else stop "abort" (set_aborted true s)
  | StopCalled => stop "shutdown" s
  | RestartTrigger why => requestRestart clk why s
  | RestartResumed i started => resumeRestart cfg clk i started s
  end.

Fixpoint run (cfg : SupervisorConfig) (events : list (Clock * Event)) (s : Supervisor)
    : Supervisor :=
  match events with
  | [] => s
  | (clk, e) :: rest => run cfg rest (step cfg clk e s)
  end.

(** The states the supervisor goes through. *)
Inductive reachable (cfg : SupervisorConfig) : Supervisor -> Prop :=
  | reachable_start : forall alreadyAborted clk,
      reachable cfg (monitorFeishuProvider cfg alreadyAborted clk)
  | reachable_step : forall clk e s,
      reachable cfg s -> reachable cfg (step cfg clk e s).

End Supervisor.

(** Entries of the log written by the idle watchdog. *)
Definition isIdleRestart (l : SupervisorLog) : bool :=
  match l with LogIdleRestart _ => true | _ => false end.

(** ** Definitions the statements below refer to *)

(** An allow-list entry on which a second normalisation has nothing left
    to remove: it begins neither with white space nor with a platform or
    kind prefix. *)
Definition settled (s : string) : bool :=
  negb (JS.startsWithWhiteSpace s)
  && negb (existsb (fun p => JS.hasPrefix p s) platformPrefixes)
  && negb (existsb (fun p => JS.hasPrefix p s) kindPrefixes).

(** [resolveNestedAllowlistDecision] of the plugin SDK, whose code is not
    among the sources. The outer list gates first and the inner list gates
    whoever the outer one lets through; a list that is not configured lets
    everybody through. With it a chat is admitted when no [chats] are
    configured and refused when they are and none matches (section 4.2,
    step 1), a sender "must match inner" when only the inner list is
    configured (step 4), and the adapter's own policy tests pass. *)
Definition nestedAllowlistDecision
    (outerConfigured outerMatched innerConfigured innerMatched : bool) : bool :=
  if negb outerConfigured then true
  else if negb outerMatched then false
  else if negb innerConfigured then true
  else innerMatched.

(** Modelled from the spec: the room lookup of the plugin SDK
    ([resolveChannelEntryMatchWithFallback]), section 3: "looked up by an
    ordered candidate list (id, normalized name, wildcard); first match
    wins, wildcard is a fallback used only when no room-specific entry
    exists". *)
Definition channelEntryMatchSpec (entries : gmap string FeishuChatConfig)
    (keys : list string) (wildcardKey : string) (normalizeKey : string -> string)
    : ChannelEntryMatch :=
  let wildcard := entries !! wildcardKey in
  match List.find (fun k => bool_decide (is_Some (entries !! k))) keys with
  | Some k =>
      {| entry := entries !! k; wildcardEntry := wildcard; key := Some k;
         entryMatchKey := Some k; entryMatchSource := Some SourceDirect |}
  | None =>
      match wildcard with
      | Some w =>
          {| entry := Some w; wildcardEntry := wildcard; key := Some wildcardKey;
             entryMatchKey := Some wildcardKey; entryMatchSource := Some SourceWildcard |}
      | None =>
          {| entry := None; wildcardEntry := None; key := None;
             entryMatchKey := None; entryMatchSource := None |}
      end
  end.

(** Modelled from the spec: mention gating of the plugin SDK
    ([resolveMentionGatingWithBypass]), section 4.2, step 6: a required
    mention that is missing drops the event unless an authorized control
    command bypasses it. *)
Definition mentionGatingSpec (p : MentionGateParams) : MentionGate :=
  let bypass :=
    mg_isGroup p && mg_requireMention p && negb (mg_wasMentioned p)
    && mg_allowTextCommands p && mg_hasControlCommand p && mg_commandAuthorized p in
  {| shouldSkip :=
       mg_requireMention p && mg_canDetectMention p && negb (mg_wasMentioned p)
       && negb bypass;
     shouldBypassMention := bypass |}.

(** Modelled from the spec: the command gate of the plugin SDK
    ([resolveControlCommandGate]), section 4.2, step 3: the sender is
    authorized if a configured allow-list contains them, or if none is
    configured and access-group gating is off; an unauthorized control
    command is blocked. *)
Definition controlCommandGateSpec (useAccessGroups : bool)
    (authorizers : list (bool * bool)) (allowTextCommands hasControlCommand : bool)
    : CommandGate :=
  let authorized :=
    existsb (fun a => fst a && snd a) authorizers
    || (negb useAccessGroups && forallb (fun a => negb (fst a)) authorizers) in
  {| commandAuthorized := authorized;
     shouldBlock := allowTextCommands && hasControlCommand && negb authorized |}.

(** The plugin SDK the concrete runs use: the nested decision above, the
    other helpers as the specification describes them. *)
Definition specSdk : PluginSdk :=
  {| buildChannelKeyCandidates ks := omap id ks;
     normalizeChannelSlug s := JS.toLowerCase (JS.trim s);
     resolveChannelEntryMatchWithFallback := channelEntryMatchSpec;
     resolveNestedAllowlistDecision := nestedAllowlistDecision;
     resolveMentionGatingWithBypass := mentionGatingSpec;
     resolveControlCommandGate := controlCommandGateSpec |}.

(** Modelled from the spec: the pairing collaborator, section 3: a request
    is "created when an unrecognized DM sender under pairing policy first
    messages; idempotent per sender (re-sending the same code, not creating
    duplicates) until approved externally". [pendingRequest s id] is whether
    [s] holds a request for [id]. *)
Class PairingContract `{store : PairingStore} := {
  pendingRequest : pairing -> string -> bool;
  upsert_created : forall s id userId,
    snd (snd (upsertPairingRequest s id userId)) = negb (pendingRequest s id);
  upsert_pending : forall s id userId,
    pendingRequest (fst (upsertPairingRequest s id userId)) id = true;
}.

(** A pairing store that keeps one code per sender. *)
Definition mapPairingStore : PairingStore :=
  {| pairing := gmap string string;
     upsertPairingRequest s id _ :=
       match s !! id with
       | Some code => (s, (code, false))
       | None => (<[id := String.append "code-" id]> s, (String.append "code-" id, true))
       end |}.

Definition mapPending (s : gmap string string) (id : string) : bool :=
  bool_decide (is_Some (s !! id)).

(** A core runtime for running the handler on concrete events: bodies are
    plain text, no control commands, no mention patterns, every send
    succeeds. *)
Definition plainRuntime : CoreRuntime :=
  {| jsonTextOf _ := None;
     shouldHandleTextCommands _ := true;
     hasControlCommand _ _ := false;
     hasMentionRegexes _ := false;
     matchesMentionPatterns _ _ := false;
     buildPairingReply idLine code := String.append idLine (String.append " code: " code);
     resolveAgentRoute _ p :=
       {| agentId := "main"; sessionKey := route_peerId p;
          routeAccountId := route_accountId p; matchedByFallback := false |};
     apiCreateMessage _ _ := true;
     addReactionFeishu _ _ := Some (Some "reaction-1");
     dispatchEvents _ := [OnReplyStart; AddReactionSettles; OnBeforeSend] |}.

(** Decimal numerals, to say what [parseInt] reads: the string of the
    digits [ds] and the number they denote. *)
Definition digitChar (d : nat) : ascii := ascii_of_nat (48 + d).

Definition numeral (ds : list nat) : string :=
  fold_right (fun d s => String (digitChar d) s) EmptyString ds.

Definition numeralValue (ds : list nat) : Z :=
  fold_left (fun a d => (10 * a + Z.of_nat d)%Z) ds 0%Z.


(** ** Concrete events and accounts *)

Definition noSenderId : FeishuSenderId :=
  {| open_id := None; user_id := None; union_id := None |}.

Definition noEventBody : FeishuEventBody :=
  {| sender := None; message := None; msg := None; evt_tenant_key := None |}.

Definition textMessage (chatId chatType text : string) : FeishuMessage :=
  {| message_id := Some "om_1"; msg_create_time := Some "1700000000000";
     chat_id := Some chatId; chat_type := Some chatType; message_type := Some "text";
     content := Some text; mentions := None; msg_chatId := None; msg_chatType := None |}.

Definition senderOf (senderType openId : string) : FeishuSender :=
  {| sender_id := Some {| open_id := Some openId; user_id := None; union_id := None |};
     sender_type := Some senderType; sender_tenant_key := None;
     flat_sender_id := noSenderId |}.

Definition eventPayload (s : FeishuSender) (m : FeishuMessage) : FeishuMessageEventPayload :=
  {| schema := Some "2.0"; header := None;
     event := Some {| sender := Some s; message := Some m; msg := None;
                      evt_tenant_key := None |};
     flattened := noEventBody |}.

Definition accountOf (dm : option DmPolicy) (group : option GroupPolicy)
    (allow groupAllow : option (list string))
    (rooms : option (gmap string FeishuChatConfig)) : ResolvedFeishuAccount :=
  {| accountId := "default"; configured := true; botOpenId := Some "ou_bot";
     config :=
       {| dmPolicy := dm; cfg_allowFrom := allow; groupAllowFrom := groupAllow;
          groupPolicy := group; routeBySenderId := None; chats := rooms;
          wsIdleTimeoutSeconds := None; wsWatchdogIntervalSeconds := None;
          config_replyStatusReaction := None; config_replyStatusText := None |} |}.

(** The account with a reply status configured. *)
Definition withReplyStatus (reaction text : option string) (account : ResolvedFeishuAccount)
    : ResolvedFeishuAccount :=
  {| accountId := accountId account; configured := configured account;
     botOpenId := botOpenId account;
     config :=
       {| dmPolicy := dmPolicy (config account);
          cfg_allowFrom := cfg_allowFrom (config account);
          groupAllowFrom := groupAllowFrom (config account);
          groupPolicy := groupPolicy (config account);
          routeBySenderId := routeBySenderId (config account);
          chats := chats (config account);
          wsIdleTimeoutSeconds := wsIdleTimeoutSeconds (config account);
          wsWatchdogIntervalSeconds := wsWatchdogIntervalSeconds (config account);
          config_replyStatusReaction := reaction;
          config_replyStatusText := text |} |}.

Definition plainConfig : ClawdbotConfig :=
  {| defaultGroupPolicy := None; useAccessGroups := None |}.

Definition disabledRoom : FeishuChatConfig :=
  {| requireMention := None; skills := None; enabled := Some false;
     allowFrom := None; systemPrompt := None |}.

(** A room in which the bot answers without being mentioned. *)
Definition openRoom : FeishuChatConfig :=
  {| requireMention := Some false; skills := None; enabled := None;
     allowFrom := None; systemPrompt := None |}.

(** "hello" sent by [ou_alice] in the [p2p] chat [oc_dm]. *)
Definition helloFromAlice : FeishuMessageEventPayload :=
  eventPayload (senderOf "user" "ou_alice") (textMessage "oc_dm" "p2p" "hello").

(** Either no restart is pending and the flag is clear, or exactly one is
    and the flag is set. *)
Definition oneRestart (s : Supervisor) : Prop :=
  (restarts s = [] /\ restartInFlight s = false)
  \/ (exists r, restarts s = [r] /\ restartInFlight s = true).

(** Entries of the log written by the idle watchdog, one per restart it
    has requested. *)
Definition idleRestartsRequested (s : Supervisor) : nat :=
  countIf isIdleRestart (supervisorLog s).

(** How far the body of a restart has got. *)
Definition stageRank (st : RestartStage) : nat :=
  match st with AwaitStop => 0 | AwaitSleep => 1 | AwaitStart => 2 | Settling => 3 end.

(** The pending restart goes on at time [fst p]; [snd p] is what
    [startWsClient] returns if that is what it was waiting for. *)
Definition resumption (p : Clock * bool) : Clock * Event :=
  (fst p, RestartResumed 0 (snd p)).

(** Restarts the supervisor has started, one log line each. *)
Definition isRestarting (l : SupervisorLog) : bool :=
  match l with LogRestarting _ _ _ => true | _ => false end.

Definition restartsStarted (s : Supervisor) : nat :=
  countIf isRestarting (supervisorLog s).

(** ** Concrete supervisor runs *)

(** The whole number a double holds, if it holds one. *)
Definition wholeNumber (x : Double.number) : option Z :=
  match x with
  | S754_zero _ => Some 0%Z
  | S754_finite s m e =>
      if (0 <=? e)%Z then Some (cond_Zopp s (Zpos m) * 2 ^ e)%Z
      else if (Zpos m mod 2 ^ (- e) =? 0)%Z then Some (cond_Zopp s (Zpos m) / 2 ^ (- e))%Z
      else None
  | _ => None
  end.

(** An engine for the concrete runs: the power with a whole exponent is
    computed by repeated multiplication, and its inverse is taken when
    the exponent is negative. *)
Definition productPower (base exponent : Double.number) : Double.number :=
  match wholeNumber exponent with
  | Some k =>
      let product := Z.iter (Z.abs k) (fun acc => Double.mul acc base) (Double.ofZ 1) in
      if (k <? 0)%Z then Double.div (Double.ofZ 1) product else product
  | None => Double.NaN
  end.

Definition productEngine : NumberEngine := {| approximatePower := productPower |}.

Section SupervisorScenarios.
#[local] Existing Instance productEngine.

Definition fullClient : FeishuWsClient :=
  {| hasStart := true; hasStop := true; hasClose := true |}.

(** An idle timeout of 60 s checked every 20 s. *)
Definition minuteConfig : SupervisorConfig :=
  {| idleTimeoutSeconds := 60; watchdogIntervalSeconds := 20; createWsClient := fullClient |}.

Definition atTime (t : Z) : Clock :=
  {| clock_now := t; clock_random := S754_zero false |}.

(** Started at time 0, connected, nothing received since. *)
Definition connectedAndSilent : Supervisor :=
  run minuteConfig [(atTime 100, StartupSettled true)]
    (monitorFeishuProvider minuteConfig false (atTime 0)).

(** The abort signal arrives while the first connection attempt is still
    awaited. *)
Definition abortedDuringStartup : Supervisor :=
  run minuteConfig [(atTime 50, AbortSignal); (atTime 100, StartupSettled true)]
    (monitorFeishuProvider minuteConfig false (atTime 0)).

(** The idle watchdog and another trigger ask for a restart one after the
    other, before the first restart has made any progress. *)
Definition racingTriggers : Supervisor :=
  run minuteConfig
    [(atTime 100, StartupSettled true); (atTime 70000, WatchdogTick);
     (atTime 70000, RestartTrigger "transport-error")]
    (monitorFeishuProvider minuteConfig false (atTime 0)).

(** The restart of [racingTriggers] resumed four times: the old client
    has stopped, the delay has passed, the new client has started, and the
    [finally] callback runs. *)
Definition racingTriggersResumed : Supervisor :=
  run minuteConfig
    (map resumption
       [(atTime 70010, true); (atTime 72010, true); (atTime 72500, true);
        (atTime 72500, true)])
    racingTriggers.

End SupervisorScenarios.

(** ** Concrete handler runs *)

Definition emptyWorld : @World mapPairingStore :=
  @Build_World mapPairingStore (∅ : gmap string string) [].

Definition handleConcrete (payload : FeishuMessageEventPayload)
    (account : ResolvedFeishuAccount) (w : @World mapPairingStore) :=
  @handleFeishuMessage specSdk plainRuntime mapPairingStore payload account plainConfig
    1700000000500%Z [] w.

Definition threeHellos : list (FeishuMessageEventPayload * Z) :=
  [(helloFromAlice, 1700000000500%Z); (helloFromAlice, 1700000001500%Z);
   (helloFromAlice, 1700000002500%Z)].

Definition helloFromApp : FeishuMessageEventPayload :=
  eventPayload (senderOf " App " "ou_other") (textMessage "oc_dm" "p2p" "hello").

Definition hiInGroup : FeishuMessageEventPayload :=
  eventPayload (senderOf "user" "ou_alice") (textMessage "oc_g" "group" "hi").

(** ** send.ts: targets *)

(** [/^p/i.exec(s)] for a lower-case literal [p]: the rest of [s] after a
    prefix that spells [p] in any letter case. *)
Fixpoint dropPrefixIgnoreCase (p s : string) : option string :=
  match p with
  | EmptyString => Some s
  | String a p' =>
      match s with
      | EmptyString => None
      | String b s' =>
          if Ascii.eqb a (JS.lowerChar b) then dropPrefixIgnoreCase p' s' else None
      end
  end.

(** [s.replace(/^(p1|p2|...):/i, "")] *)
Fixpoint replacePrefixIgnoreCase (alts : list string) (s : string) : string :=
  match alts with
  | [] => s
  | p :: rest =>
      match dropPrefixIgnoreCase p s with
      | Some r => r
      | None => replacePrefixIgnoreCase rest s
      end
  end.

(** [/^p/i.test(s)] *)
Definition testPrefixIgnoreCase (p s : string) : bool :=
  match dropPrefixIgnoreCase p s with Some _ => true | None => false end.

(** [s.slice(n)] *)
Fixpoint slice (n : nat) (s : string) : string :=
  match n, s with
  | O, _ => s
  | S n', String _ r => slice n' r
  | S _, EmptyString => EmptyString
  end.

Inductive ReceiveIdType := ReceiveChatId | ReceiveOpenId.

(** [FeishuTarget] of types.ts; [target_id] is its [id]. *)
Record FeishuTarget := {
  receiveIdType : ReceiveIdType;
  target_id : string;
}.

Definition parseFeishuTarget (raw : string) : option FeishuTarget :=
  let trimmed := JS.trim raw in
  if negb (JS.truthy trimmed) then None
  else
    let value := JS.trim (replacePrefixIgnoreCase platformPrefixes trimmed) in
    let lower := JS.toLowerCase value in
    let prefixed (ty : ReceiveIdType) (p : string) :=
      let id := JS.trim (slice (String.length p) value) in
      if JS.truthy id then Some {| receiveIdType := ty; target_id := id |} else None in
    if JS.hasPrefix "user:" lower then prefixed ReceiveOpenId "user:"
    else if JS.hasPrefix "open:" lower then prefixed ReceiveOpenId "open:"
    else if JS.hasPrefix "chat:" lower then prefixed ReceiveChatId "chat:"
    else if testPrefixIgnoreCase "ou_" value then
      Some {| receiveIdType := ReceiveOpenId; target_id := value |}
    else if testPrefixIgnoreCase "oc_" value then
      Some {| receiveIdType := ReceiveChatId; target_id := value |}
    else Some {| receiveIdType := ReceiveChatId; target_id := value |}.

(** ** outbound.ts: the outbound adapter *)

Definition newline : string := String (ascii_of_nat 10) EmptyString.

(** [ensureTarget]; [None] is the thrown [missingTargetError]. *)
Definition ensureTarget (to : option string) (allowFrom : option (list string))
    : option string :=
  match JS.orElse (JS.trim <$> to) None with
  | Some trimmed => Some trimmed
  | None =>
      let fallback :=
        List.find (fun e => JS.truthy e)
          (List.filter (fun e => JS.truthy e && negb (String.eqb e "*"))
             (map JS.trim (default [] allowFrom))) in
      JS.orElse fallback None
  end.

Definition normalizeMediaList (mediaUrls : option (list string)) (mediaUrl : option string)
    : list string :=
  match mediaUrls with
  | Some (u :: us) => u :: us
  | _ =>
      match JS.orElse mediaUrl None with
      | Some u => [u]
      | None => []
      end
  end.

Definition attachmentLines (mediaUrls : list string) : string :=
  String.concat newline (map (String.append "Attachment: ") mediaUrls).

Definition combineTextAndMedia (text : string) (mediaUrls : list string) : string :=
  let cleanText := JS.trim text in
  if Nat.eqb (List.length mediaUrls) 0 then cleanText
  else
    let attachments := attachmentLines mediaUrls in
    if negb (JS.truthy cleanText) then attachments
    else String.append cleanText (String.append newline (String.append newline attachments)).

(** What a delivery does to the outside, in order. *)
Inductive DeliveryEffect :=
  | BeforeSend
  | CreateMessage (target : FeishuTarget) (body : string)
  | StatusLastOutbound
  | StatusDelivered
  | StatusLastError
  | LogDeliveryFailed (chatId : string)
  | ActivityOutbound.

(** The text functions of the core runtime, with the table mode, the chunk
    limit and the chunk mode they are called with already resolved, and the
    platform's client. *)
Class OutboundRuntime := {
  convertMarkdownTables : string -> string;
  chunkMarkdownTextWithMode : string -> list string;
  (** [client.im.message.create] is a function. *)
  clientHasCreate : bool;
  (** [client.im.message.create] resolved (rather than threw). *)
  apiCreate : FeishuTarget -> string -> bool;
}.

Module Outbound.
Section Outbound.
Context `{out : OutboundRuntime}.

(** send.ts [sendTextFeishu]: the effects and whether the call resolved;
    [aborted] is [signal?.aborted] at the call, [hasStatusSink] whether a
    status sink was passed. *)
Definition sendTextFeishu (aborted : bool) (account : ResolvedFeishuAccount)
    (target : FeishuTarget) (text : string) (hasStatusSink : bool)
    : list DeliveryEffect * bool :=
  if aborted then ([], false)
  else if negb (configured account) then ([], false)
  else
    let body := JS.trim text in
    if negb (JS.truthy body) then ([], false)
    else if negb clientHasCreate then ([], false)
    else if apiCreate target body then
      (CreateMessage target body :: (if hasStatusSink then [StatusLastOutbound] else []), true)
    else ([CreateMessage target body], false).

(** The loop of [sendChunkedText] from the [i]-th entry of the send list
    on; [signal k] is whether the abort signal is set when the [k]-th entry
    is reached. *)
Fixpoint sendChunks (signal : nat -> bool) (account : ResolvedFeishuAccount)
    (target : FeishuTarget) (i : nat) (sendList : list string)
    : list DeliveryEffect * bool :=
  match sendList with
  | [] => ([], true)
  | chunk :: rest =>
      let body := JS.trim chunk in
      if negb (JS.truthy body) then sendChunks signal account target (S i) rest
      else
        let '(sent, ok) := sendTextFeishu (signal i) account target body false in
        if ok then
          let '(more, done) := sendChunks signal account target (S i) rest in
          ((sent ++ more)%list, done)
        else (sent, false)
  end.

Definition sendListOf (text : string) : list string :=
  let chunks := chunkMarkdownTextWithMode text in
  if Nat.ltb 0 (List.length chunks) then chunks else [text].

(** [sendChunkedText]: the effects and the target id it returns, [None]
    when it throws. *)
Definition sendChunkedText (signal : nat -> bool) (account : ResolvedFeishuAccount)
    (targetRaw text : string) : list DeliveryEffect * option string :=
  if negb (configured account) then ([], None)
  else
    match parseFeishuTarget targetRaw with
    | None => ([], None)
    | Some target =>
        let converted := convertMarkdownTables text in
        let '(sent, ok) := sendChunks signal account target 0 (sendListOf converted) in
        (sent, if ok then Some (target_id target) else None)
    end.

(** [feishuOutbound.sendText], for the account [resolveFeishuAccount]
    returns; [allowFrom] is [account.config.allowFrom], [aborted] the
    signal at the call. *)
Definition sendText (aborted : bool) (signal : nat -> bool)
    (account : ResolvedFeishuAccount) (to : option string) (text : string)
    : list DeliveryEffect * option string :=
  if aborted then ([], None)
  else
    match ensureTarget to (cfg_allowFrom (config account)) with
    | None => ([], None)
    | Some targetRaw => sendChunkedText signal account targetRaw text
    end.

(** [feishuOutbound.sendMedia] *)
Definition sendMedia (aborted : bool) (signal : nat -> bool)
    (account : ResolvedFeishuAccount) (to : option string) (text mediaUrl : option string)
    : list DeliveryEffect * option string :=
  if aborted then ([], None)
  else
    let mediaUrl := JS.orElse (JS.trim <$> mediaUrl) None in
    let combined :=
      combineTextAndMedia (default "" text)
        (match mediaUrl with Some u => [u] | None => [] end) in
    sendText aborted signal account to combined.

(** [feishuOutbound.sendPayload] *)
Definition sendPayload (aborted : bool) (signal : nat -> bool)
    (account : ResolvedFeishuAccount) (to : option string)
    (text : option string) (mediaUrls : option (list string)) (mediaUrl : option string)
    : list DeliveryEffect * option string :=
  if aborted then ([], None)
  else
    match ensureTarget to (cfg_allowFrom (config account)) with
    | None => ([], None)
    | Some targetRaw =>
        let combined :=
          combineTextAndMedia (default "" text) (normalizeMediaList mediaUrls mediaUrl) in
        sendChunkedText signal account targetRaw combined
    end.

End Outbound.
End Outbound.

(** ** monitor: delivery of a reply *)

Section Delivery.
Context `{out : OutboundRuntime}.



End Delivery.

(** ** accounts.ts: credentials *)




(** The process environment, the file system as [readFileSync] sees it
    ([None] when it throws) and the SDK's [DEFAULT_ACCOUNT_ID]. *)
Class HostEnvironment := {
  DEFAULT_ACCOUNT_ID : string;
  processEnv : string -> option string;
  readFileSync : string -> option string;
}.


Section Accounts.
Context `{host : HostEnvironment}.




End Accounts.

(** ** channel.ts: the directory of peers *)

(** [s.includes(q)] *)
Fixpoint stringIncludes (s q : string) : bool :=
  JS.hasPrefix q s
  || match s with
     | EmptyString => false
     | String _ r => stringIncludes r q
     end.

(** [Array.from(new Set(l))]: the first occurrence of every value, in
    order. *)
Definition uniqueInOrder (l : list string) : list string :=
  fold_left (fun seen x => if includes seen x then seen else (seen ++ [x])%list) l [].

(** [directory.listPeers], for the account [resolveFeishuAccount] returns:
    the ids of the entries it lists. *)
Definition listPeers (account : ResolvedFeishuAccount) (query : option string)
    (limit : option Z) : list string :=
  let q :=
    default "" (JS.orElse ((fun s => JS.toLowerCase (JS.trim s)) <$> query) None) in
  let peers :=
    uniqueInOrder
      (List.filter (fun e => negb (String.eqb e "*"))
         (normalizeFeishuAllowlist (cfg_allowFrom (config account)))) in
  let matching :=
    List.filter (fun id => if JS.truthy q then stringIncludes (JS.toLowerCase id) q else true)
      peers in
  match limit with
  | Some n => if (0 <? n)%Z then firstn (Z.to_nat n) matching else matching
  | None => matching
  end.

(** ** Definitions the statements on delivery refer to *)


(** The entries of a send list that are not blank, trimmed. *)
Definition nonBlankBodies (sendList : list string) : list string :=
  List.filter (fun b => JS.truthy b) (map JS.trim sendList).

(** An allow-list entry that can stand in for a missing target. *)
Definition usableTarget (e : string) : bool :=
  JS.truthy e && negb (String.eqb e "*").

(** ** channel.ts: targets and allow-list entries as the plugin shows them *)

Definition normalizeFeishuMessagingTarget (raw : string) : option string :=
  let trimmed := JS.trim raw in
  if negb (JS.truthy trimmed) then None
  else Some (replacePrefixIgnoreCase platformPrefixes trimmed).

(** [config.formatAllowFrom] *)
Definition formatAllowFrom (allowFrom : list string) : list string :=
  map JS.toLowerCase
    (map (replacePrefixIgnoreCase platformPrefixes)
       (List.filter (fun e => JS.truthy e && negb (String.eqb e "*"))
          (map JS.trim allowFrom))).

(** An outbound runtime for concrete runs: tables are left alone, a text
    is one chunk, and the platform accepts every body but ["no"]. *)
Definition plainOutbound : OutboundRuntime :=
  {| convertMarkdownTables s := s;
     chunkMarkdownTextWithMode s := [s];
     clientHasCreate := true;
     apiCreate _ b := negb (String.eqb b "no") |}.

(** ** Definitions the statements on the supervisor refer to *)

(** A delay that, when it is a number, does not exceed the cap. *)
Definition withinCap (cap delay : Double.number) : Prop :=
  Double.isNaN delay = false -> Double.leb delay cap = true.

(** A logged restart names an attempt from 1 on and a delay within the cap. *)
Definition restartLogged (l : SupervisorLog) : Prop :=
  match l with
  | LogRestarting _ attempt delay =>
      (1 <= attempt)%Z /\ withinCap (maxMs WS_RECONNECT_POLICY) delay
  | _ => True
  end.

(** What holds of every state the supervisor goes through. *)
Definition supervisorSound (cfg : SupervisorConfig) (s : Supervisor) : Prop :=
  (connected s = true -> wsClient s = Some (createWsClient cfg) /\ stopped s = false)
  /\ (0 <= reconnectAttempts s)%Z
  /\ Forall restartLogged (supervisorLog s)
  /\ Forall (fun r => withinCap (maxMs WS_RECONNECT_POLICY) (delayMs r)) (restarts s).

(** * Properties *)

(** ** Strings *)

Lemma isWhiteSpace_lowerChar (c : ascii) :
  JS.isWhiteSpace (JS.lowerChar c) = JS.isWhiteSpace c.
Proof. destruct c as [[] [] [] [] [] [] [] []]; reflexivity. Qed.

Lemma lowerChar_idem (c : ascii) : JS.lowerChar (JS.lowerChar c) = JS.lowerChar c.
Proof. destruct c as [[] [] [] [] [] [] [] []]; reflexivity. Qed.

Lemma toLowerCase_idem (s : string) :
  JS.toLowerCase (JS.toLowerCase s) = JS.toLowerCase s.
Proof.
  induction s as [|c r IH]; simpl; [reflexivity|].
  now rewrite lowerChar_idem, IH.
Qed.

Lemma toLowerCase_length (s : string) :
  String.length (JS.toLowerCase s) = String.length s.
Proof. induction s as [|c r IH]; simpl; congruence. Qed.

Lemma trimEnd_toLowerCase (s : string) :
  JS.trimEnd (JS.toLowerCase s) = JS.toLowerCase (JS.trimEnd s).
Proof.
  induction s as [|c r IH]; simpl; [reflexivity|].
  rewrite IH. destruct (JS.trimEnd r) as [|d r']; simpl.
  - rewrite isWhiteSpace_lowerChar. now destruct (JS.isWhiteSpace c).
  - reflexivity.
Qed.

Lemma trimEnd_idem (s : string) : JS.trimEnd (JS.trimEnd s) = JS.trimEnd s.
Proof.
  induction s as [|c r IH]; simpl; [reflexivity|].
  destruct (JS.trimEnd r) as [|d r'] eqn:E.
  - destruct (JS.isWhiteSpace c) eqn:W; simpl; [reflexivity|now rewrite W].
  - simpl in *. now rewrite IH.
Qed.

Lemma trimEnd_length (s : string) :
  (String.length (JS.trimEnd s) <= String.length s)%nat.
Proof.
  induction s as [|c r IH]; simpl; [lia|].
  destruct (JS.trimEnd r) as [|d r']; [destruct (JS.isWhiteSpace c)|]; simpl in *; lia.
Qed.

Lemma trimStart_length (s : string) :
  (String.length (JS.trimStart s) <= String.length s)%nat.
Proof.
  induction s as [|c r IH]; simpl; [lia|].
  destruct (JS.isWhiteSpace c); simpl; lia.
Qed.

Lemma trimStart_fixed (s : string) :
  JS.startsWithWhiteSpace s = false -> JS.trimStart s = s.
Proof. destruct s as [|c r]; simpl; [reflexivity|]. now intros ->. Qed.

Lemma trimStart_shorter (s : string) :
  JS.startsWithWhiteSpace s = true ->
  (String.length (JS.trimStart s) < String.length s)%nat.
Proof.
  destruct s as [|c r]; simpl; [discriminate|]. intros ->.
  pose proof (trimStart_length r). lia.
Qed.

(** A string without trailing white space, and what is left of it after
    dropping characters from its front. *)
Lemma trimEnd_fixed_tail (c : ascii) (r : string) :
  JS.trimEnd (String c r) = String c r -> JS.trimEnd r = r.
Proof.
  simpl. destruct (JS.trimEnd r) as [|d r'] eqn:E.
  - destruct (JS.isWhiteSpace c); [discriminate|]. now intros [= <-].
  - now intros [= <-].
Qed.

Lemma toLowerCase_fixed_tail (c : ascii) (r : string) :
  JS.toLowerCase (String c r) = String c r -> JS.toLowerCase r = r.
Proof. simpl. now intros [= _ ->]. Qed.

Lemma dropPrefix_length (p s r : string) :
  JS.dropPrefix p s = Some r ->
  (String.length r + String.length p = String.length s)%nat.
Proof.
  revert s; induction p as [|a p IH]; intros s; simpl.
  - intros [= ->]. lia.
  - destruct s as [|b s]; [discriminate|].
    destruct (Ascii.eqb a b); [|discriminate].
    intros H. apply IH in H. simpl. lia.
Qed.

Lemma dropPrefix_closed (P : string -> Prop) :
  (forall c r, P (String c r) -> P r) ->
  forall p s r, JS.dropPrefix p s = Some r -> P s -> P r.
Proof.
  intros Htail p; induction p as [|a p IH]; intros s r; simpl.
  - now intros [= ->].
  - destruct s as [|b s]; [discriminate|].
    destruct (Ascii.eqb a b); [|discriminate].
    intros H Hs. eapply IH; eauto.
Qed.

Lemma replacePrefix_closed (P : string -> Prop) :
  (forall c r, P (String c r) -> P r) ->
  forall alts s, P s -> P (JS.replacePrefix alts s).
Proof.
  intros Htail alts; induction alts as [|p alts IH]; intros s Hs; simpl; [assumption|].
  destruct (JS.dropPrefix p s) as [r|] eqn:E; [|now apply IH].
  eapply dropPrefix_closed; eauto.
Qed.

Lemma replacePrefix_length (alts : list string) (s : string) :
  (String.length (JS.replacePrefix alts s) <= String.length s)%nat.
Proof.
  induction alts as [|p alts IH]; simpl; [lia|].
  destruct (JS.dropPrefix p s) as [r|] eqn:E; [|assumption].
  apply dropPrefix_length in E. lia.
Qed.

Lemma replacePrefix_fixed (alts : list string) (s : string) :
  existsb (fun p => JS.hasPrefix p s) alts = false -> JS.replacePrefix alts s = s.
Proof.
  induction alts as [|p alts IH]; simpl; [reflexivity|].
  unfold JS.hasPrefix at 1. destruct (JS.dropPrefix p s); simpl; [discriminate|assumption].
Qed.

Lemma replacePrefix_shorter (alts : list string) (s : string) :
  Forall (fun p => p <> EmptyString) alts ->
  existsb (fun p => JS.hasPrefix p s) alts = true ->
  (String.length (JS.replacePrefix alts s) < String.length s)%nat.
Proof.
  induction alts as [|p alts IH]; simpl; [discriminate|].
  intros Hne H. inversion Hne as [|? ? Hp Halts]; subst.
  unfold JS.hasPrefix in H at 1. destruct (JS.dropPrefix p s) as [r|] eqn:E.
  - apply dropPrefix_length in E. destruct p; [congruence|]. simpl in E. lia.
  - simpl in H. now apply IH.
Qed.

Lemma normalize_no_trailing_space (x : string) :
  JS.trimEnd (normalizeFeishuAllowEntry x) = normalizeFeishuAllowEntry x.
Proof.
  unfold normalizeFeishuAllowEntry.
  apply (replacePrefix_closed (fun s => JS.trimEnd s = s) trimEnd_fixed_tail).
  apply (replacePrefix_closed (fun s => JS.trimEnd s = s) trimEnd_fixed_tail).
  unfold JS.trim. now rewrite trimEnd_toLowerCase, trimEnd_idem.
Qed.

Lemma normalize_lower_case (x : string) :
  JS.toLowerCase (normalizeFeishuAllowEntry x) = normalizeFeishuAllowEntry x.
Proof.
  unfold normalizeFeishuAllowEntry.
  apply (replacePrefix_closed (fun s => JS.toLowerCase s = s) toLowerCase_fixed_tail).
  apply (replacePrefix_closed (fun s => JS.toLowerCase s = s) toLowerCase_fixed_tail).
  apply toLowerCase_idem.
Qed.

(** Normalising a string that has no trailing white space and is in lower
    case: nothing happens when it is settled, it gets shorter otherwise. *)
Lemma normalize_settled (y : string) :
  JS.trimEnd y = y -> JS.toLowerCase y = y -> settled y = true ->
  normalizeFeishuAllowEntry y = y.
Proof.
  intros Ht Hl Hs. unfold settled in Hs.
  apply andb_prop in Hs as [Hs Hk]. apply andb_prop in Hs as [Hw Hp].
  apply negb_true_iff in Hw, Hp, Hk.
  unfold normalizeFeishuAllowEntry, JS.trim.
  rewrite (trimStart_fixed _ Hw), Ht, Hl.
  rewrite (replacePrefix_fixed _ _ Hp). now apply replacePrefix_fixed.
Qed.

Lemma normalize_unsettled (y : string) :
  JS.trimEnd y = y -> JS.toLowerCase y = y -> settled y = false ->
  (String.length (normalizeFeishuAllowEntry y) < String.length y)%nat.
Proof.
  intros Ht Hl Hs. unfold normalizeFeishuAllowEntry, JS.trim.
  pose proof (replacePrefix_length kindPrefixes
                (JS.replacePrefix platformPrefixes
                   (JS.toLowerCase (JS.trimEnd (JS.trimStart y))))) as Hk.
  pose proof (replacePrefix_length platformPrefixes
                (JS.toLowerCase (JS.trimEnd (JS.trimStart y)))) as Hp.
  pose proof (toLowerCase_length (JS.trimEnd (JS.trimStart y))) as Hlow.
  pose proof (trimEnd_length (JS.trimStart y)) as He.
  destruct (JS.startsWithWhiteSpace y) eqn:Hw.
  { pose proof (trimStart_shorter _ Hw). lia. }
  revert Hk Hp. rewrite (trimStart_fixed _ Hw), Ht, Hl. intros Hk Hp.
  unfold settled in Hs. rewrite Hw in Hs.
  destruct (existsb (fun p => JS.hasPrefix p y) platformPrefixes) eqn:Hpl.
  { assert (String.length (JS.replacePrefix platformPrefixes y) < String.length y)%nat.
    { apply replacePrefix_shorter; [|assumption].
      repeat constructor; discriminate. }
    lia. }
  simpl in Hs. apply negb_false_iff in Hs.
  rewrite (replacePrefix_fixed _ _ Hpl).
  apply replacePrefix_shorter; [|assumption].
  repeat constructor; discriminate.
Qed.

(** C7, as stated, fails: a second platform prefix survives the first
    normalisation and is removed by the second. *)
Lemma normalize_not_idempotent :
  normalizeFeishuAllowEntry (normalizeFeishuAllowEntry "feishu:lark:ou_1")
  <> normalizeFeishuAllowEntry "feishu:lark:ou_1".
Proof. vm_compute. discriminate. Qed.

(** C7, amended: a second normalisation leaves [normalize x] unchanged
    exactly when [normalize x] begins neither with white space nor with a
    further platform or kind prefix; the normalisation removes at most one
    prefix of each kind. *)
Theorem normalize_idempotent_iff_settled (x : string) :
  normalizeFeishuAllowEntry (normalizeFeishuAllowEntry x) = normalizeFeishuAllowEntry x
  <-> settled (normalizeFeishuAllowEntry x) = true.
Proof.
  pose proof (normalize_no_trailing_space x) as Ht.
  pose proof (normalize_lower_case x) as Hl.
  split.
  - intros Heq. destruct (settled (normalizeFeishuAllowEntry x)) eqn:Hs; [reflexivity|].
    pose proof (normalize_unsettled _ Ht Hl Hs) as Hlt.
    rewrite Heq in Hlt. lia.
  - now apply normalize_settled.
Qed.

(** ** Reconnect back-off *)

Lemma shr_1_nonneg mrs : (0 <= shr_m mrs)%Z -> (0 <= shr_m (shr_1 mrs))%Z.
Proof. destruct mrs as [[|[q|q|]|[q|q|]] r s]; cbn; lia. Qed.

Lemma iter_pos_inv {A} (P : A -> Prop) (f : A -> A) :
  (forall x, P x -> P (f x)) -> forall n x, P x -> P (SpecFloat.iter_pos f n x).
Proof.
  intros Hf. induction n as [n IH|n IH|]; intros x Hx; cbn; auto.
Qed.

Lemma shr_nonneg mrs e n : (0 <= shr_m mrs)%Z -> (0 <= shr_m (fst (shr mrs e n)))%Z.
Proof.
  intros H. destruct n as [|q|q]; cbn; try assumption.
  apply (iter_pos_inv (fun x => 0 <= shr_m x)%Z); [apply shr_1_nonneg|assumption].
Qed.

Lemma shr_fexp_nonneg m e l :
  (0 <= m)%Z -> (0 <= shr_m (fst (shr_fexp Double.prec Double.emax m e l)))%Z.
Proof.
  intros H. unfold shr_fexp. apply shr_nonneg. now destruct l as [|[]].
Qed.

Lemma round_nearest_even_nonneg m l : (0 <= m)%Z -> (0 <= round_nearest_even m l)%Z.
Proof. intros H. destruct l as [|[]]; cbn; try lia. destruct (Z.even m); lia. Qed.

Lemma binary_round_aux_not_nan s m e l :
  (0 <= m)%Z -> Double.isNaN (binary_round_aux Double.prec Double.emax s m e l) = false.
Proof.
  intros H. unfold binary_round_aux.
  pose proof (shr_fexp_nonneg m e l H) as H1.
  destruct (shr_fexp Double.prec Double.emax m e l) as [mrs' e']. cbn [fst] in H1.
  pose proof (shr_fexp_nonneg _ e' loc_Exact
                (round_nearest_even_nonneg _ (loc_of_shr_record mrs') H1)) as H2.
  destruct (shr_fexp Double.prec Double.emax _ e' loc_Exact) as [mrs'' e'']. cbn [fst] in H2.
  destruct (shr_m mrs'') as [|q|q]; [reflexivity| |lia].
  now destruct (e'' <=? Double.emax - Double.prec)%Z.
Qed.

Lemma binary_round_not_nan s m e :
  Double.isNaN (binary_round Double.prec Double.emax s m e) = false.
Proof.
  unfold binary_round. destruct (shl_align _ _ _) as [mz ez].
  apply binary_round_aux_not_nan. lia.
Qed.

(** A whole number converts to a number, never to [NaN]. *)
Lemma ofZ_not_nan n : Double.isNaN (Double.ofZ n) = false.
Proof.
  unfold Double.ofZ, binary_normalize.
  destruct n; [reflexivity| |]; apply binary_round_not_nan.
Qed.

Lemma Math_round_isNaN x : Double.isNaN (Math_round x) = Double.isNaN x.
Proof.
  destruct x as [s|s| |s m e]; try reflexivity. unfold Math_round.
  destruct (0 <=? e)%Z; [reflexivity|].
  destruct (_ =? 0)%Z; [reflexivity|]. apply ofZ_not_nan.
Qed.

Lemma SFcompare_None a b :
  SFcompare a b = None <-> Double.isNaN a || Double.isNaN b = true.
Proof.
  destruct a as [sa|sa| |sa ma ea], b as [sb|sb| |sb mb eb]; cbn;
    try (split; [discriminate|discriminate]); try (split; reflexivity);
    try (split; [reflexivity|reflexivity]); auto.
  all: try (destruct sa; split; discriminate).
  all: try (destruct sb; split; discriminate).
Qed.

Lemma Math_min_isNaN a b :
  Double.isNaN (Math_min a b) = Double.isNaN a || Double.isNaN b.
Proof.
  unfold Math_min. destruct (SFcompare a b) as [c|] eqn:E.
  - assert (Double.isNaN a || Double.isNaN b = false) as Hn.
    { destruct (Double.isNaN a || Double.isNaN b) eqn:F; [|reflexivity].
      apply SFcompare_None in F. congruence. }
    rewrite Hn. apply orb_false_iff in Hn. destruct Hn as [Ha Hb].
    destruct c; try assumption. destruct b as [[]| | |]; assumption.
  - apply SFcompare_None in E. now rewrite E.
Qed.

Lemma SFcompare_antisym a b c :
  SFcompare a b = Some c -> SFcompare b a = Some (CompOpp c).
Proof.
  destruct a as [sa|sa| |sa ma ea], b as [sb|sb| |sb mb eb]; cbn;
    try discriminate; try (intros [= <-]); try reflexivity;
    try (destruct sa; reflexivity); try (destruct sb; reflexivity);
    try (destruct sa, sb; reflexivity).
  pose proof (Pos.compare_cont_antisym ma mb Eq) as P. cbn [CompOpp] in P.
  destruct sa, sb; try reflexivity; rewrite (Z.compare_antisym ea eb);
    destruct (ea ?= eb)%Z; cbn; try reflexivity; rewrite <- P;
    now destruct (Pos.compare_cont Eq ma mb).
Qed.

Lemma SFcompare_refl a : Double.isNaN a = false -> SFcompare a a = Some Eq.
Proof.
  destruct a as [s|s| |s m e]; try discriminate; intros _; cbn; try reflexivity.
  - now destruct s.
  - rewrite Z.compare_refl. change (Pos.compare_cont Eq m m) with (m ?= m)%positive.
    rewrite Pos.compare_refl. now destruct s.
Qed.

(** The cap: a minimum that is a number is at most its first argument. *)
Lemma Math_min_le_l a b :
  Double.isNaN (Math_min a b) = false -> Double.leb (Math_min a b) a = true.
Proof.
  intros Hn. rewrite Math_min_isNaN in Hn. apply orb_false_iff in Hn.
  destruct Hn as [Ha Hb].
  unfold Math_min, Double.leb, SFleb. destruct (SFcompare a b) as [c|] eqn:E.
  - destruct c.
    + assert (SFcompare b a = Some Eq) as E' by (apply (SFcompare_antisym _ _ _ E)).
      destruct b as [[]| | |]; try (now rewrite (SFcompare_refl a Ha)); now rewrite E'.
    + now rewrite (SFcompare_refl a Ha).
    + now rewrite (SFcompare_antisym _ _ _ E).
  - apply SFcompare_None in E. rewrite Ha, Hb in E. discriminate.
Qed.

Lemma Math_min_cases a b :
  Double.isNaN (Math_min a b) = false -> Math_min a b = a \/ Math_min a b = b.
Proof.
  intros Hn. unfold Math_min in *.
  destruct (SFcompare a b) as [[]|]; auto; try discriminate.
  destruct b as [[]| | |]; auto.
Qed.

Lemma digits2_pos_size q : digits2_pos q = Pos.size q.
Proof. induction q as [q IH|q IH|]; cbn; now rewrite ?IH. Qed.

Lemma digits2_pos_bound q n :
  (Zpos q < 2 ^ Zpos n)%Z -> (Zpos (digits2_pos q) <= Zpos n)%Z.
Proof.
  intros H. rewrite digits2_pos_size.
  pose proof (Pos.size_le q) as Hs.
  assert (Zpos (2 ^ Pos.size q) <= Zpos q~0)%Z as Hz by exact Hs.
  rewrite Pos2Z.inj_pow in Hz.
  assert (2 ^ Zpos (Pos.size q) < 2 ^ (Zpos n + 1))%Z as Hlt.
  { rewrite Z.pow_add_r by lia. change (2 ^ 1)%Z with 2%Z.
    change (Zpos q~0) with (2 * Zpos q)%Z in Hz. lia. }
  apply Z.pow_lt_mono_r_iff in Hlt; lia.
Qed.

Lemma digits2_pos_iter q d :
  digits2_pos (Pos.iter xO q d) = (digits2_pos q + d)%positive.
Proof.
  induction d as [|d IH] using Pos.peano_ind.
  - cbn. now rewrite Pos.add_1_r.
  - rewrite Pos.iter_succ. cbn. rewrite IH. now rewrite Pos.add_succ_r.
Qed.

Lemma Zpos_iter_xO q d : Zpos (Pos.iter xO q d) = (Zpos q * 2 ^ Zpos d)%Z.
Proof.
  induction d as [|d IH] using Pos.peano_ind.
  - cbn. lia.
  - rewrite Pos.iter_succ, Pos2Z.inj_succ, Z.pow_succ_r by lia.
    change (Zpos (Pos.iter xO q d)~0) with (2 * Zpos (Pos.iter xO q d))%Z. rewrite IH. lia.
Qed.

Lemma binary_round_aux_canonical s mz ez :
  Zpos (digits2_pos mz) = 53%Z -> (-1074 <= ez <= 971)%Z ->
  binary_round_aux Double.prec Double.emax s (Zpos mz) ez loc_Exact = S754_finite s mz ez.
Proof.
  intros Hd He. unfold binary_round_aux, shr_fexp. cbn [Zdigits2 shr_record_of_loc].
  rewrite Hd. unfold fexp, emin, Double.prec, Double.emax.
  replace (Z.max (53 + ez - 53) (3 - 1024 - 53) - ez)%Z with 0%Z by lia.
  cbn [shr shr_m loc_of_shr_record round_nearest_even Zdigits2 shr_record_of_loc].
  rewrite Hd.
  replace (Z.max (53 + ez - 53) (3 - 1024 - 53) - ez)%Z with 0%Z by lia.
  cbn [shr shr_m].
  destruct (ez <=? 1024 - 53)%Z eqn:E; [reflexivity|]. apply Z.leb_gt in E. lia.
Qed.

(** A whole number below 2^53 is held exactly. *)
Lemma binary_round_exact s q :
  (Zpos q < 2 ^ 53)%Z ->
  exists m e,
    binary_round Double.prec Double.emax s q 0 = S754_finite s m e
    /\ (-52 <= e <= 0)%Z /\ Zpos m = (Zpos q * 2 ^ (- e))%Z.
Proof.
  intros Hq. pose proof (digits2_pos_bound q 53 Hq) as Hd.
  unfold binary_round, shl_align, fexp, emin, Double.prec, Double.emax.
  replace (Z.max (Zpos (digits2_pos q) + 0 - 53) (3 - 1024 - 53) - 0)%Z
    with (Zpos (digits2_pos q) - 53)%Z by lia.
  destruct (Zpos (digits2_pos q) - 53)%Z as [|k|k] eqn:Ek; [|lia|].
  - exists q, 0%Z. split; [|cbn; lia].
    apply binary_round_aux_canonical; lia.
  - eexists (Pos.iter xO q k), _. split.
    + apply binary_round_aux_canonical; [|lia].
      rewrite digits2_pos_iter. lia.
    + split; [lia|]. rewrite Zpos_iter_xO. f_equal. f_equal. lia.
Qed.

Lemma toQ_finite s m e q :
  (e <= 0)%Z -> Zpos m = (Zpos q * 2 ^ (- e))%Z ->
  (Double.toQ (S754_finite s m e) == inject_Z (cond_Zopp s (Zpos q)))%Q.
Proof.
  intros He Hm. unfold Double.toQ.
  destruct (0 <=? e)%Z eqn:E.
  - apply Z.leb_le in E. assert (e = 0%Z) as -> by lia. cbn in Hm.
    rewrite Hm. change (2 ^ 0)%Z with 1%Z. rewrite !Z.mul_1_r.
    destruct s; cbn; rewrite ?Pos.mul_1_r; reflexivity.
  - apply Z.leb_gt in E. unfold Qeq, inject_Z. cbn [Qnum Qden].
    assert (0 < 2 ^ (- e))%Z as Hpos by (apply Z.pow_pos_nonneg; lia).
    rewrite Z2Pos.id by exact Hpos.
    destruct s; cbn [cond_Zopp]; rewrite ?Pos2Z.opp_pos; lia.
Qed.

Lemma ofZ_exact n :
  (Z.abs n < 2 ^ 53)%Z -> (Double.toQ (Double.ofZ n) == inject_Z n)%Q.
Proof.
  intros Hn. unfold Double.ofZ, binary_normalize. destruct n as [|q|q].
  - reflexivity.
  - destruct (binary_round_exact false q) as (m & e & -> & He & Hm); [exact Hn|].
    apply (toQ_finite false m e q); [lia|exact Hm].
  - destruct (binary_round_exact true q) as (m & e & -> & He & Hm); [exact Hn|].
    apply (toQ_finite true m e q); [lia|exact Hm].
Qed.

(** [Math.round] gives the whole number nearest to the exact value of its
    argument, halves upwards. *)
Lemma Math_round_exact s m e :
  (e < 0)%Z -> (Zpos m < 2 ^ 53)%Z ->
  (Double.toQ (Math_round (S754_finite s m e))
   == inject_Z (Qfloor (Double.toQ (S754_finite s m e) + (1 # 2))))%Q.
Proof.
  intros He Hm. unfold Math_round, Double.toQ at 2.
  destruct (0 <=? e)%Z eqn:E; [apply Z.leb_le in E; lia|].
  assert (0 < 2 ^ (- e))%Z as Hpos by (apply Z.pow_pos_nonneg; lia).
  assert (Qfloor ((cond_Zopp s (Zpos m) # Z.to_pos (2 ^ (- e))) + (1 # 2))%Q
          = Z.shiftr (2 * cond_Zopp s (Zpos m) + 2 ^ (- e)) (1 - e)) as ->.
  { unfold Qplus, Qfloor. cbn [Qnum Qden].
    rewrite Z.shiftr_div_pow2 by lia.
    rewrite Pos2Z.inj_mul, Z2Pos.id by exact Hpos.
    replace (1 - e)%Z with (- e + 1)%Z by lia.
    rewrite Z.pow_add_r by lia. change (2 ^ 1)%Z with 2%Z.
    f_equal. lia. }
  set (n := Z.shiftr (2 * cond_Zopp s (Zpos m) + 2 ^ (- e)) (1 - e)).
  destruct (n =? 0)%Z eqn:En.
  - apply Z.eqb_eq in En. rewrite En. reflexivity.
  - apply ofZ_exact. unfold n. rewrite Z.shiftr_div_pow2 by lia.
    assert (0 < 2 ^ (1 - e))%Z as Hpos' by (apply Z.pow_pos_nonneg; lia).
    assert (2 ^ (1 - e) = 2 * 2 ^ (- e))%Z as Hp2.
    { replace (1 - e)%Z with (Z.succ (- e)) by lia. rewrite Z.pow_succ_r by lia.
      reflexivity. }
    assert (2 <= 2 ^ (- e))%Z as Hge.
    { replace (- e)%Z with (Z.succ (- e - 1)) by lia. rewrite Z.pow_succ_r by lia.
      assert (0 < 2 ^ (- e - 1))%Z by (apply Z.pow_pos_nonneg; lia). lia. }
    assert (- 2 ^ 53 < (2 * cond_Zopp s (Zpos m) + 2 ^ (- e)) / 2 ^ (1 - e) < 2 ^ 53)%Z;
      [|lia].
    split.
    + apply Z.lt_le_trans with (- 2 ^ 52)%Z; [lia|].
      apply Z.div_le_lower_bound; [lia|]. rewrite Hp2.
      destruct s; cbn [cond_Zopp]; rewrite ?Pos2Z.opp_pos; nia.
    + apply Z.div_lt_upper_bound; [lia|]. rewrite Hp2.
      destruct s; cbn [cond_Zopp]; rewrite ?Pos2Z.opp_pos; nia.
Qed.

(** Whatever the policy, the delay is within the cap whenever it is a
    number. *)
Lemma computeBackoff_capped `{engine : NumberEngine} policy attempt random :
  withinCap (maxMs policy) (computeBackoff policy attempt random).
Proof. unfold withinCap, computeBackoff. cbv zeta. apply Math_min_le_l. Qed.

(** C6, as stated, fails: at the fifth attempt with a jitter draw of 0 the
    base is 20995.2, the delay is its rounding 20995, and no factor
    [1 + u] with [u >= 0] takes [min(maxMs, initial * factor^4)] down to
    it. At the sixth attempt with a draw of 1/2 the delay is the cap,
    30000, where the capped base times [1 + jitter * 1/2] is 33750. At the
    attempt 1196 with a draw of 0 the delay is not a number. The engine
    multiplies by 1.8 as often as the exponent says; any engine whose
    [1.8 ** 4] is within 0.0001 of 10.4976 gives the same fifth delay. *)
Lemma backoff_rounds_below_base :
  let delay (n : Z) (r : Double.number) :=
    @computeBackoff productEngine WS_RECONNECT_POLICY n r in
  let half := S754_finite false 4503599627370496 (-53) in
  (Double.toQ (delay 5%Z (S754_zero false)) == 20995)%Q
  /\ (Qmin 30000 (2000 * (18 # 10) ^ (5 - 1)) == 104976 # 5)%Q
  /\ ~ (exists u : Q,
          (0 <= u <= 25 # 100)%Q
          /\ (Double.toQ (delay 5%Z (S754_zero false))
              == Qmin 30000 (2000 * (18 # 10) ^ (5 - 1)) * (1 + u))%Q)
  /\ (Double.toQ half == 1 # 2)%Q
  /\ (Double.toQ (delay 6%Z half) == 30000)%Q
  /\ (Qmin 30000 (2000 * (18 # 10) ^ (6 - 1)) * (1 + (25 # 100) * (1 # 2)) == 33750)%Q
  /\ delay 1196%Z (S754_zero false) = Double.NaN.
Proof.
  cbv zeta.
  assert (Double.toQ (@computeBackoff productEngine WS_RECONNECT_POLICY 5 (S754_zero false))
          == 20995)%Q as E1 by (vm_compute; reflexivity).
  assert (Qmin 30000 (2000 * (18 # 10) ^ (5 - 1)) == 104976 # 5)%Q as E2
    by (vm_compute; reflexivity).
  split; [exact E1|]. split; [exact E2|]. split.
  { intros (u & [Hu0 Hu1] & Heq). rewrite E1, E2 in Heq. lra. }
  split; [vm_compute; reflexivity|]. split; [vm_compute; reflexivity|].
  split; vm_compute; reflexivity.
Qed.

(** C6, amended: for every attempt [n >= 1] and jitter draw [r] the delay
    is [min(maxMs, round(base + base * jitter * r))], computed on doubles,
    with [base = initial * factor ** (n - 1)] the uncapped base: the
    jitter is added to the uncapped base, the sum is rounded to the
    nearest whole number (halves upwards) and only then capped. So a delay
    that is a number never exceeds [maxMs], and it is either the rounded
    sum or [maxMs]; the delay is [NaN] exactly when the sum is. At the
    first attempt the base is exactly 2000. The defaults are 2000 ms, 1.8,
    30000 ms and 0.25. *)
Theorem backoff_delay `{engine : NumberEngine} (n : Z) (r : Double.number) :
  (1 <= n)%Z ->
  let base :=
    Double.mul (Double.ofZ 2000)
      (exponentiate (Double.div (Double.ofZ 18) (Double.ofZ 10)) (Double.ofZ (n - 1))) in
  let sum :=
    Double.add base
      (Double.mul (Double.mul base (Double.div (Double.ofZ 25) (Double.ofZ 100))) r) in
  let delay := computeBackoff WS_RECONNECT_POLICY n r in
  delay = Math_min (Double.ofZ 30000) (Math_round sum)
  /\ Double.isNaN delay = Double.isNaN sum
  /\ (Double.isNaN sum = false ->
      Double.leb delay (Double.ofZ 30000) = true
      /\ (delay = Math_round sum \/ delay = Double.ofZ 30000))
  /\ (forall s m e,
        sum = S754_finite s m e -> (e < 0)%Z -> (Zpos m < 2 ^ 53)%Z ->
        (Double.toQ (Math_round sum) == inject_Z (Qfloor (Double.toQ sum + (1 # 2))))%Q)
  /\ (forall s m e, sum = S754_finite s m e -> (0 <= e)%Z -> Math_round sum = sum)
  /\ (n = 1%Z -> base = Double.ofZ 2000).
Proof.
  intros Hn. cbv zeta.
  assert (computeBackoff WS_RECONNECT_POLICY n r
          = Math_min (Double.ofZ 30000)
              (Math_round
                 (Double.add
                    (Double.mul (Double.ofZ 2000)
                       (exponentiate (Double.div (Double.ofZ 18) (Double.ofZ 10))
                          (Double.ofZ (n - 1))))
                    (Double.mul
                       (Double.mul
                          (Double.mul (Double.ofZ 2000)
                             (exponentiate (Double.div (Double.ofZ 18) (Double.ofZ 10))
                                (Double.ofZ (n - 1))))
                          (Double.div (Double.ofZ 25) (Double.ofZ 100))) r)))) as E.
  { unfold computeBackoff. cbv zeta.
    cbn [initialMs maxMs factor jitter WS_RECONNECT_POLICY].
    replace (Z.max (n - 1) 0) with (n - 1)%Z by lia. reflexivity. }
  rewrite E. set (sum := Double.add _ _).
  assert (Double.isNaN (Math_min (Double.ofZ 30000) (Math_round sum)) = Double.isNaN sum)
    as Hnan.
  { rewrite Math_min_isNaN, Math_round_isNaN. reflexivity. }
  split; [reflexivity|]. split; [exact Hnan|]. split; [|split; [|split]].
  - intros Hsum. rewrite <- Hnan in Hsum. split.
    + now apply Math_min_le_l.
    + destruct (Math_min_cases _ _ Hsum) as [H|H]; [right|left]; exact H.
  - intros s m e -> He Hm. now apply Math_round_exact.
  - intros s m e -> He. unfold Math_round.
    destruct (0 <=? e)%Z eqn:E0; [reflexivity|]. apply Z.leb_gt in E0. lia.
  - intros ->. reflexivity.
Qed.

Lemma backoff_delay_witness :
  let half := S754_finite false 4503599627370496 (-53) in
  (Double.toQ half == 1 # 2)%Q
  /\ (Double.toQ (@computeBackoff productEngine WS_RECONNECT_POLICY 3 half) == 7290)%Q
  /\ Double.leb (@computeBackoff productEngine WS_RECONNECT_POLICY 3 half) (Double.ofZ 30000)
     = true.
Proof.
  cbv zeta. split; [reflexivity|]. split; [vm_compute; reflexivity|].
  apply (@backoff_delay productEngine 3 (S754_finite false 4503599627370496 (-53)));
    [lia|reflexivity].
Defined.

(** The first attempts with the default policy and no jitter, and the cap. *)
Example backoff_first_attempts :
  map (fun n => @computeBackoff productEngine WS_RECONNECT_POLICY n (S754_zero false))
    [1; 2; 3; 4; 5; 6; 7]%Z
  = map Double.ofZ [2000; 3600; 6480; 11664; 20995; 30000; 30000]%Z.
Proof. vm_compute. reflexivity. Qed.

(** Double rounding at the first attempt: with the draw
    0.0009999999999999998 the product [500 * r] is 0.4999999999999999, the
    sum rounds to 2000.5 and the delay is 2001, where the exact value
    2000.4999999999999 would round to 2000. *)
Example backoff_double_rounding :
  let r := S754_finite false 4611686018427387 (-62) in
  forall engine : NumberEngine,
    @computeBackoff engine WS_RECONNECT_POLICY 1 r = Double.ofZ 2001.
Proof. intros r engine. vm_compute. reflexivity. Qed.

(** Overflow: from the attempt 1196 on, 2000 times 1.8 to the power
    [n - 1] is past the largest double; the base is [Infinity], the jitter
    for a draw of 0 is [Infinity * 0.25 * 0 = NaN], and so is the delay. *)
Example backoff_overflow :
  @computeBackoff productEngine WS_RECONNECT_POLICY 1195 (S754_zero false) = Double.ofZ 30000
  /\ @computeBackoff productEngine WS_RECONNECT_POLICY 1196 (S754_zero false) = Double.NaN
  /\ forall (engine : NumberEngine) (n : Z),
       Double.mul (initialMs WS_RECONNECT_POLICY)
         (exponentiate (factor WS_RECONNECT_POLICY) (Double.ofZ (Z.max (n - 1) 0)))
       = S754_infinity false ->
       computeBackoff WS_RECONNECT_POLICY n (S754_zero false) = Double.NaN.
Proof.
  split; [vm_compute; reflexivity|]. split; [vm_compute; reflexivity|].
  intros engine n Hbase. unfold computeBackoff. cbv zeta. rewrite Hbase.
  vm_compute. reflexivity.
Qed.

(** ** Timestamps *)

Lemma digitValue_digitChar (d : nat) :
  (d <= 9)%nat -> digitValue (digitChar d) = Some (Z.of_nat d).
Proof.
  intros H. do 10 (destruct d as [|d]; [reflexivity|]). lia.
Qed.

Lemma parseDigits_numeral (ds : list nat) (acc : Z) :
  Forall (fun d => (d <= 9)%nat) ds ->
  parseDigits (Some acc) (numeral ds)
  = Some (fold_left (fun a d => (10 * a + Z.of_nat d)%Z) ds acc).
Proof.
  intros H; revert acc; induction H as [|d ds Hd Hds IH]; intros acc; [reflexivity|].
  cbn [numeral fold_right parseDigits fold_left].
  rewrite (digitValue_digitChar d Hd). apply IH.
Qed.

(** [parseInt] reads a non-empty decimal numeral as the number it denotes. *)
Lemma parseInt_numeral (d : nat) (ds : list nat) :
  Forall (fun d => (d <= 9)%nat) (d :: ds) ->
  parseInt (numeral (d :: ds)) = Some (numeralValue (d :: ds)).
Proof.
  intros H. inversion H as [|? ? Hd Hds]; subst.
  assert (parseInt (numeral (d :: ds)) = parseDigits None (numeral (d :: ds))) as ->.
  { do 10 (destruct d as [|d]; [reflexivity|]). lia. }
  cbn [numeral fold_right parseDigits].
  rewrite (digitValue_digitChar d Hd). cbn [default].
  unfold numeralValue. cbn [fold_left].
  apply (parseDigits_numeral ds _ Hds).
Qed.



Example parseTimestamp_seconds :
  parseTimestamp (Some "1700000000") = Some 1700000000000%Z.
Proof. vm_compute. reflexivity. Qed.

Example parseTimestamp_millis :
  parseTimestamp (Some "1700000000123") = Some 1700000000123%Z.
Proof. vm_compute. reflexivity. Qed.

Example parseTimestamp_not_a_number :
  parseTimestamp (Some "soon") = None /\ parseTimestamp (Some "") = None.
Proof. vm_compute. split; reflexivity. Qed.

(** ** The message handler *)

Lemma countIf_app {A} (p : A -> bool) (l1 l2 : list A) :
  countIf p (l1 ++ l2) = (countIf p l1 + countIf p l2)%nat.
Proof. unfold countIf. now rewrite List.filter_app, List.length_app. Qed.

Section HandlerFacts.
Context `{sdk : PluginSdk} `{core : CoreRuntime} `{store : PairingStore}.

Lemma handle_unrouted payload account cfg now storeAllowFrom (w : World) :
  routeInbound payload account = None ->
  handleFeishuMessage payload account cfg now storeAllowFrom w = (w, None).
Proof. intros H. unfold handleFeishuMessage. now rewrite H. Qed.

(** What the handler does with a direct message that reaches the pairing
    branch. *)
Lemma handle_unapproved_direct payload account cfg now storeAllowFrom (w : World)
    message senderIds chatId rawBody :
  routeInbound payload account = Some (message, senderIds, chatId, rawBody) ->
  chatTypeOf message = Some "p2p" ->
  chatDisabled account chatId = false ->
  default DmPairing (dmPolicy (config account)) = DmPairing ->
  dmAllowed account storeAllowFrom senderIds = false ->
  handleFeishuMessage payload account cfg now storeAllowFrom w =
    (let '(s, (code, created)) :=
       upsertPairingRequest (pairingStore w) (senderId senderIds) (senderUserId senderIds) in
     {| pairingStore := s;
        effects :=
          (effects w
           ++ [StatusInbound (resolveTimestamp message payload now);
               ActivityInbound (resolveTimestamp message payload now)]
           ++ pairingReplyEffects account chatId senderIds code created
           ++ [LogDrop (senderId senderIds) (DmSenderPolicy DmPairing)])%list |},
     None).
Proof.
  intros Hroute Hp2p Hdis Hpol Hdm.
  unfold chatDisabled in Hdis. unfold dmAllowed in Hdm.
  unfold handleFeishuMessage. rewrite Hroute.
  cbv beta iota zeta delta [orReturn andThen ret emit returnIf returnEarly unwrapFeishuEvent].
  rewrite Hp2p, (bool_decide_eq_true_2 _ (eq_refl (Some "p2p"))), Hdis, Hpol.
  cbn [negb andb pairingStore effects].
  unfold admitDirect. rewrite Hdm.
  cbv beta iota zeta delta [orReturn andThen ret emit returnIf returnEarly upsert sendTextFeishu].
  cbn [pairingStore effects].
  destruct (upsertPairingRequest (pairingStore w) (senderId senderIds) (senderUserId senderIds))
    as [s [code created]].
  unfold pairingReplyEffects.
  destruct created; cbn [pairingStore effects].
  - destruct (configured account); cbn [negb andb pairingStore effects].
    + destruct (JS.truthy _); cbn [negb andb pairingStore effects].
      * destruct (apiCreateMessage _ _); cbn [pairingStore effects];
          rewrite <- ?app_assoc; reflexivity.
      * rewrite <- ?app_assoc; reflexivity.
    + rewrite <- ?app_assoc; reflexivity.
  - rewrite <- ?app_assoc; reflexivity.
Qed.

(** A direct message in a chat whose entry is disabled stops there. *)
Lemma handle_disabled_direct payload account cfg now storeAllowFrom (w : World)
    message senderIds chatId rawBody :
  routeInbound payload account = Some (message, senderIds, chatId, rawBody) ->
  chatTypeOf message = Some "p2p" ->
  chatDisabled account chatId = true ->
  handleFeishuMessage payload account cfg now storeAllowFrom w =
    ({| pairingStore := pairingStore w;
        effects :=
          (effects w
           ++ [StatusInbound (resolveTimestamp message payload now);
               ActivityInbound (resolveTimestamp message payload now);
               LogDrop chatId ChatDisabled])%list |},
     None).
Proof.
  intros Hroute Hp2p Hdis. unfold chatDisabled in Hdis.
  unfold handleFeishuMessage. rewrite Hroute.
  cbv beta iota zeta delta [orReturn andThen ret emit returnIf returnEarly unwrapFeishuEvent].
  rewrite Hp2p, (bool_decide_eq_true_2 _ (eq_refl (Some "p2p"))), Hdis.
  cbn [negb andb pairingStore effects].
  rewrite <- !app_assoc. reflexivity.
Qed.

Lemma pairingReplyEffects_replies account chatId senderIds code created :
  countIf isPairingReply (pairingReplyEffects account chatId senderIds code created)
  = (if created then 1 else 0)%nat
  /\ countIf isDispatch (pairingReplyEffects account chatId senderIds code created) = 0%nat.
Proof.
  unfold pairingReplyEffects. destruct created; [|split; reflexivity].
  destruct (configured account && _ && _); split; reflexivity.
Qed.

(** One message of an unapproved sender: the request is upserted, the
    reply goes out when and only when the request was created, nothing
    reaches the agent runtime. *)
Lemma handle_unapproved_direct_counts payload account cfg now storeAllowFrom (w : World)
    message senderIds chatId rawBody :
  routeInbound payload account = Some (message, senderIds, chatId, rawBody) ->
  chatTypeOf message = Some "p2p" ->
  chatDisabled account chatId = false ->
  default DmPairing (dmPolicy (config account)) = DmPairing ->
  dmAllowed account storeAllowFrom senderIds = false ->
  let r := handleFeishuMessage payload account cfg now storeAllowFrom w in
  let u := upsertPairingRequest (pairingStore w) (senderId senderIds)
             (senderUserId senderIds) in
  snd r = None
  /\ pairingStore (fst r) = fst u
  /\ countIf isPairingReply (effects (fst r))
     = (countIf isPairingReply (effects w) + (if snd (snd u) then 1 else 0))%nat
  /\ countIf isDispatch (effects (fst r)) = countIf isDispatch (effects w).
Proof.
  intros Hroute Hp2p Hdis Hpol Hdm.
  rewrite (handle_unapproved_direct _ _ _ _ _ _ _ _ _ _ Hroute Hp2p Hdis Hpol Hdm).
  destruct (upsertPairingRequest (pairingStore w) (senderId senderIds) (senderUserId senderIds))
    as [s [code created]].
  cbn [fst snd pairingStore effects].
  destruct (pairingReplyEffects_replies account chatId senderIds code created) as [Hr Hd].
  rewrite !countIf_app, Hr, Hd.
  repeat split; cbn; lia.
Qed.

Section Contract.
Context `{contract : !PairingContract}.

(** Messages of a sender whose request is already pending: no reply. *)
Lemma handleAll_pending account cfg storeAllowFrom id events :
  default DmPairing (dmPolicy (config account)) = DmPairing ->
  Forall (fun e => unapprovedDirect account storeAllowFrom id (fst e)) events ->
  forall w : World, pendingRequest (pairingStore w) id = true ->
    let w' := handleAll events account cfg storeAllowFrom w in
    countIf isPairingReply (effects w') = countIf isPairingReply (effects w)
    /\ countIf isDispatch (effects w') = countIf isDispatch (effects w).
Proof.
  intros Hpol Hall; induction Hall as [|[payload now] events Hhd Htl IH]; intros w Hpend.
  - split; reflexivity.
  - destruct Hhd as (message & senderIds & chatId & rawBody & Hroute & Hid & Hp2p & Hdis & Hdm).
    cbn [fst] in Hroute. cbn [handleAll].
    destruct (handle_unapproved_direct_counts payload account cfg now storeAllowFrom w
                _ _ _ _ Hroute Hp2p Hdis Hpol Hdm) as (_ & Hst & Hr & Hd).
    cbv zeta in Hst, Hr, Hd. rewrite Hid in Hst, Hr.
    rewrite upsert_created, Hpend in Hr. cbn in Hr.
    destruct (IH (fst (handleFeishuMessage payload account cfg now storeAllowFrom w)))
      as [IHr IHd].
    { rewrite Hst. apply upsert_pending. }
    cbv zeta in IHr, IHd. split; lia.
Qed.

(** Messages of a sender who has no request yet: exactly one reply. *)
Lemma handleAll_unapproved account cfg storeAllowFrom id events :
  default DmPairing (dmPolicy (config account)) = DmPairing ->
  events <> [] ->
  Forall (fun e => unapprovedDirect account storeAllowFrom id (fst e)) events ->
  forall w : World, pendingRequest (pairingStore w) id = false ->
    let w' := handleAll events account cfg storeAllowFrom w in
    countIf isPairingReply (effects w') = (countIf isPairingReply (effects w) + 1)%nat
    /\ countIf isDispatch (effects w') = countIf isDispatch (effects w).
Proof.
  intros Hpol Hne Hall w Hpend.
  destruct Hall as [|[payload now] events Hhd Htl]; [congruence|].
  destruct Hhd as (message & senderIds & chatId & rawBody & Hroute & Hid & Hp2p & Hdis & Hdm).
  cbn [fst] in Hroute. cbn [handleAll].
  destruct (handle_unapproved_direct_counts payload account cfg now storeAllowFrom w
              _ _ _ _ Hroute Hp2p Hdis Hpol Hdm) as (_ & Hst & Hr & Hd).
  cbv zeta in Hst, Hr, Hd. rewrite Hid in Hst, Hr.
  rewrite upsert_created, Hpend in Hr. cbn in Hr.
  destruct (handleAll_pending account cfg storeAllowFrom id events Hpol Htl
              (fst (handleFeishuMessage payload account cfg now storeAllowFrom w)))
    as [IHr IHd].
  { rewrite Hst. apply upsert_pending. }
  cbv zeta in IHr, IHd. split; lia.
Qed.

(** C1, amended: for every direct message that reaches the DM admission
    step (it passes the router's checks and the entry of its chat is not
    disabled) and whose sender is not on the effective DM allow-list while
    [dmPolicy] is [pairing], the handler upserts a pairing request for that
    sender, sends the pairing-code reply when and only when the request was
    newly created, and returns without handing anything to the agent
    runtime; a direct message of such a sender is never handed to the agent
    runtime, whether or not it reaches that step; with a pairing store that
    creates one request per unresolved sender, any number of such messages
    from one sender yields exactly one pairing-code reply. *)
Theorem pairing_reply_once account cfg storeAllowFrom :
  default DmPairing (dmPolicy (config account)) = DmPairing ->
  (forall payload now (w : World) message senderIds chatId rawBody,
     routeInbound payload account = Some (message, senderIds, chatId, rawBody) ->
     chatTypeOf message = Some "p2p" ->
     chatDisabled account chatId = false ->
     dmAllowed account storeAllowFrom senderIds = false ->
     let r := handleFeishuMessage payload account cfg now storeAllowFrom w in
     let u := upsertPairingRequest (pairingStore w) (senderId senderIds)
                (senderUserId senderIds) in
     snd r = None
     /\ pairingStore (fst r) = fst u
     /\ countIf isPairingReply (effects (fst r))
        = (countIf isPairingReply (effects w) + (if snd (snd u) then 1 else 0))%nat
     /\ countIf isDispatch (effects (fst r)) = countIf isDispatch (effects w))
  /\ (forall payload now (w : World),
       (forall message senderIds chatId rawBody,
          routeInbound payload account = Some (message, senderIds, chatId, rawBody) ->
          chatTypeOf message = Some "p2p"
          /\ dmAllowed account storeAllowFrom senderIds = false) ->
       let r := handleFeishuMessage payload account cfg now storeAllowFrom w in
       snd r = None
       /\ countIf isDispatch (effects (fst r)) = countIf isDispatch (effects w))
  /\ (forall id events (w : World),
       events <> [] ->
       Forall (fun e => unapprovedDirect account storeAllowFrom id (fst e)) events ->
       pendingRequest (pairingStore w) id = false ->
       let w' := handleAll events account cfg storeAllowFrom w in
       countIf isPairingReply (effects w') = (countIf isPairingReply (effects w) + 1)%nat
       /\ countIf isDispatch (effects w') = countIf isDispatch (effects w)).
Proof.
  intros Hpol. split; [|split].
  - intros payload now w message senderIds chatId rawBody Hroute Hp2p Hdis Hdm.
    now apply (handle_unapproved_direct_counts payload account cfg now storeAllowFrom w
                 message senderIds chatId rawBody).
  - intros payload now w Hdirect. cbv zeta.
    destruct (routeInbound payload account)
      as [[[[message senderIds] chatId] rawBody]|] eqn:Hroute.
    2:{ rewrite (handle_unrouted _ _ _ _ _ _ Hroute). split; reflexivity. }
    destruct (Hdirect _ _ _ _ eq_refl) as [Hp2p Hdm].
    destruct (chatDisabled account chatId) eqn:Hdis.
    + rewrite (handle_disabled_direct _ _ _ _ _ _ _ _ _ _ Hroute Hp2p Hdis).
      cbn [fst snd effects]. rewrite countIf_app. split; [reflexivity|cbn; lia].
    + destruct (handle_unapproved_direct_counts payload account cfg now storeAllowFrom w
                  _ _ _ _ Hroute Hp2p Hdis Hpol Hdm) as (Hret & _ & _ & Hd).
      split; assumption.
  - intros id events w Hne Hall Hpend.
    exact (handleAll_unapproved account cfg storeAllowFrom id events Hpol Hne Hall w Hpend).
Qed.

End Contract.

(** C9: an event whose [sender_type] is [app], or whose sender [open_id]
    is the [botOpenId] the account is configured with, makes the handler
    return before it records anything, evaluates any policy, touches the
    pairing store or replies: the world is left as it was. *)
Theorem bot_and_app_events_ignored payload account cfg now storeAllowFrom (w : World) :
  let evt := fst (fst (unwrapFeishuEvent payload)) in
  senderTypeOf evt = Some "app"
  \/ (exists s raw bot,
        sender evt = Some s /\ open_id (senderIdObject s) = Some raw
        /\ botOpenId account = Some bot /\ JS.trim raw = bot /\ bot <> "") ->
  handleFeishuMessage payload account cfg now storeAllowFrom w = (w, None).
Proof.
  intros evt H. apply handle_unrouted.
  change evt with (default (flattened payload) (event payload)) in H. clear evt.
  unfold routeInbound, unwrapFeishuEvent.
  set (evt := default (flattened payload) (event payload)) in *.
  destruct (nullish (message evt) (msg evt)) as [m|]; [|reflexivity].
  cbn [mbind option_bind].
  destruct H as [Happ|(s & raw & bot & Hs & Hraw & Hbot & Htrim & Hne)].
  - now rewrite Happ, (bool_decide_eq_true_2 _ (eq_refl (Some "app"))).
  - destruct (bool_decide (senderTypeOf evt = Some "app")); [reflexivity|].
    assert (exists ids, resolveSenderIds payload = Some ids
                        /\ senderOpenId ids = Some bot) as (ids & -> & Hopen).
    { unfold resolveSenderIds, unwrapFeishuEvent. fold evt. cbv zeta. rewrite Hs.
      cbn [fmap option_fmap option_map mbind option_bind]. rewrite Hraw.
      cbn [fmap option_fmap option_map mbind option_bind]. rewrite Htrim.
      destruct bot as [|c r]; [congruence|]. cbn [JS.orElse JS.truthy].
      eexists; split; reflexivity. }
    cbn [mbind option_bind]. unfold sentByBot. rewrite Hbot, Hopen.
    destruct bot as [|c r]; [congruence|]. cbn [JS.orElse JS.truthy].
    now rewrite (bool_decide_eq_true_2 _ (eq_refl (Some (String c r)))).
Qed.

(** C3: with [groupPolicy] set to [disabled] every group event is dropped,
    whatever the allow-lists hold and whether or not the bot is mentioned:
    the handler returns, the pairing store is untouched and it has only
    recorded the inbound activity and logged the drop;
    [resolveFeishuGroupAllow] denies every sender. With [open] the group
    admission step admits every sender. *)
Theorem group_policy_disabled_and_open :
  (forall payload account cfg now storeAllowFrom (w : World),
     groupPolicy (config account) = Some GroupDisabled ->
     (forall message senderIds chatId rawBody,
        routeInbound payload account = Some (message, senderIds, chatId, rawBody) ->
        chatTypeOf message <> Some "p2p") ->
     exists trace,
       handleFeishuMessage payload account cfg now storeAllowFrom w
       = ({| pairingStore := pairingStore w; effects := (effects w ++ trace)%list |}, None)
       /\ forallb isBookkeeping trace = true)
  /\ (forall outer inner id userId name,
       groupAllowed (resolveFeishuGroupAllow GroupDisabled outer inner id userId name) = false)
  /\ (forall outer inner id userId name,
       groupAllowed (resolveFeishuGroupAllow GroupOpen outer inner id userId name) = true)
  /\ (forall outer inner senderIds (w : World),
       admitGroup GroupOpen outer inner senderIds w = (w, Some tt)).
Proof.
  split; [|repeat split].
  intros payload account cfg now storeAllowFrom w Hpol Hgroup.
  destruct (routeInbound payload account) as [[[[message senderIds] chatId] rawBody]|] eqn:Hroute.
  2:{ exists []. rewrite (handle_unrouted _ _ _ _ _ _ Hroute), app_nil_r.
      destruct w; split; reflexivity. }
  specialize (Hgroup _ _ _ _ eq_refl).
  unfold handleFeishuMessage. rewrite Hroute.
  cbv beta iota zeta delta [orReturn andThen ret emit returnIf returnEarly unwrapFeishuEvent].
  rewrite (bool_decide_eq_false_2 _ Hgroup), Hpol.
  cbn [negb andb pairingStore effects nullish default from_option id].
  destruct (chatAllowed _); cbn [negb pairingStore effects].
  2:{ eexists. rewrite <- !app_assoc. split; reflexivity. }
  destruct (bool_decide (_ = Some false)); cbn [pairingStore effects].
  { eexists. rewrite <- !app_assoc. split; reflexivity. }
  destruct (shouldBlock _); cbn [pairingStore effects].
  { eexists. rewrite <- !app_assoc. split; reflexivity. }
  unfold admitGroup.
  cbv beta iota zeta delta [resolveFeishuGroupAllow groupAllowed andThen emit returnEarly].
  cbn [negb pairingStore effects].
  eexists. rewrite <- !app_assoc. split; reflexivity.
Qed.

End HandlerFacts.

(** ** Allow-list admission *)

Lemma match_allowed_configured allowFrom id userId name :
  allowed (resolveFeishuAllowlistMatch allowFrom id userId name) = true ->
  Nat.eqb (List.length (normalizeFeishuAllowlist allowFrom)) 0 = false.
Proof.
  unfold resolveFeishuAllowlistMatch.
  destruct (Nat.eqb (List.length (normalizeFeishuAllowlist allowFrom)) 0); [discriminate|reflexivity].
Qed.

Lemma filter_truthy_normalized (l : list string) :
  List.filter (fun s => JS.truthy s) (List.filter (fun s => JS.truthy s) l)
  = List.filter (fun s => JS.truthy s) l.
Proof.
  induction l as [|x l IH]; [reflexivity|].
  cbn [List.filter]. destruct (JS.truthy x) eqn:E; [|assumption].
  cbn [List.filter]. now rewrite E, IH.
Qed.

(** The cases of the adapter's own policy tests. *)
Example test_normalizes_allowlist_entries :
  normalizeFeishuAllowlist (Some ["Feishu:User:OU_ABC"; " lark:oc_123 "])
  = ["ou_abc"; "oc_123"].
Proof. reflexivity. Qed.

Example test_matches_allowlist :
  allowed (resolveFeishuAllowlistMatch (Some ["ou_abc"]) "ou_abc" None None) = true
  /\ allowed (resolveFeishuAllowlistMatch (Some ["ou_abc"]) "ou_other" (Some "ou_abc") None)
     = true
  /\ allowed (resolveFeishuAllowlistMatch (Some ["*"]) "ou_any" None None) = true.
Proof. repeat split; reflexivity. Qed.

Example test_applies_nested_group_allowlists :
  groupAllowed
    (@resolveFeishuGroupAllow specSdk GroupAllowlist (Some ["ou_abc"]) (Some ["ou_abc"])
       "ou_abc" None None) = true
  /\ groupAllowed
       (@resolveFeishuGroupAllow specSdk GroupAllowlist (Some ["ou_abc"]) (Some ["ou_abc"])
          "ou_other" None None) = false.
Proof. split; reflexivity. Qed.

Example test_resolves_chat_allowlist_matches :
  let room b :=
    {| requireMention := Some b; skills := None; enabled := None;
       allowFrom := None; systemPrompt := None |} in
  let rooms : gmap string FeishuChatConfig :=
    {["oc_allowed" := room false; "*" := room true]} in
  let direct := @resolveFeishuChatMatch specSdk (Some rooms) "oc_allowed" None in
  let wildcard := @resolveFeishuChatMatch specSdk (Some rooms) "oc_other" None in
  let denied :=
    @resolveFeishuChatMatch specSdk (Some {["oc_allowed" := room true]}) "oc_other" None in
  chatAllowed direct = true
  /\ resolveFeishuRequireMention (chatConfig direct) (wildcardConfig direct) = false
  /\ chatAllowed wildcard = true
  /\ resolveFeishuRequireMention (chatConfig wildcard) (wildcardConfig wildcard) = true
  /\ chatAllowed denied = false.
Proof. vm_compute. repeat split; reflexivity. Qed.

Section PolicyFacts.
Context `{sdk : PluginSdk}.

(** Under the [allowlist] policy the decision is the SDK's nested decision
    on these four flags. *)
Lemma group_allowlist_decision outer inner id userId name :
  let outerAllow := normalizeFeishuAllowlist outer in
  let innerAllow := normalizeFeishuAllowlist inner in
  groupAllowed (resolveFeishuGroupAllow GroupAllowlist outer inner id userId name)
  = if Nat.eqb (List.length outerAllow) 0 && Nat.eqb (List.length innerAllow) 0 then false
    else
      resolveNestedAllowlistDecision true
        (if Nat.eqb (List.length outerAllow) 0 then true
         else allowed (resolveFeishuAllowlistMatch outer id userId name))
        (negb (Nat.eqb (List.length innerAllow) 0))
        (allowed (resolveFeishuAllowlistMatch inner id userId name)).
Proof.
  cbv zeta. unfold resolveFeishuGroupAllow.
  destruct (Nat.eqb (List.length (normalizeFeishuAllowlist outer)) 0);
    destruct (Nat.eqb (List.length (normalizeFeishuAllowlist inner)) 0); reflexivity.
Qed.

(** C2, amended: under [groupPolicy] [allowlist], with the SDK's nested
    decision, a sender is allowed exactly when at least one of the two
    lists is configured and the sender matches every list that is
    configured. So a match on the inner (room-level) list, that list being
    configured, admits the sender when the outer list is not configured or
    matches too, and not otherwise; when neither list is configured the
    sender is not allowed, whatever the SDK. *)
Theorem nested_group_admission outer inner id userId name :
  (forall oc om ic im,
     resolveNestedAllowlistDecision oc om ic im = nestedAllowlistDecision oc om ic im) ->
  let outerAllow := normalizeFeishuAllowlist outer in
  let innerAllow := normalizeFeishuAllowlist inner in
  let outerOk := allowed (resolveFeishuAllowlistMatch outer id userId name) in
  let innerOk := allowed (resolveFeishuAllowlistMatch inner id userId name) in
  let decision := resolveFeishuGroupAllow GroupAllowlist outer inner id userId name in
  (groupAllowed decision = true <->
     (outerAllow <> [] \/ innerAllow <> [])
     /\ (outerAllow <> [] -> outerOk = true)
     /\ (innerAllow <> [] -> innerOk = true))
  /\ (innerOk = true -> innerAllow <> [] ->
      groupAllowed decision = true <-> outerAllow = [] \/ outerOk = true)
  /\ (outerAllow = [] -> innerAllow = [] -> groupAllowed decision = false).
Proof.
  intros Hsdk. cbv zeta.
  pose proof (group_allowlist_decision outer inner id userId name) as E.
  cbv zeta in E. rewrite E, Hsdk. clear E.
  pose proof (match_allowed_configured outer id userId name) as Ho.
  pose proof (match_allowed_configured inner id userId name) as Hi.
  destruct (normalizeFeishuAllowlist outer) as [|o os];
    destruct (normalizeFeishuAllowlist inner) as [|i is_];
    destruct (allowed (resolveFeishuAllowlistMatch outer id userId name));
    destruct (allowed (resolveFeishuAllowlistMatch inner id userId name));
    cbn [List.length Nat.eqb andb orb negb nestedAllowlistDecision] in *;
    try (specialize (Ho eq_refl); discriminate);
    try (specialize (Hi eq_refl); discriminate);
    (split; [|split]); try tauto; try congruence; try discriminate;
    try (split; [discriminate|]); try (split; [intros _|]);
    intuition (try congruence; try discriminate).
Qed.

End PolicyFacts.

Section GroupFallback.
Context `{sdk : PluginSdk} `{core : CoreRuntime} `{store : PairingStore}.

Lemma effective_lists_filtered (a b : option (list string)) :
  List.filter (fun s => JS.truthy s)
    (normalizeFeishuAllowlist a ++ normalizeFeishuAllowlist b)%list
  = (normalizeFeishuAllowlist a ++ normalizeFeishuAllowlist b)%list.
Proof.
  unfold normalizeFeishuAllowlist.
  now rewrite List.filter_app, !filter_truthy_normalized.
Qed.

(** C10, amended: when the account's [groupAllowFrom] is empty after
    normalisation, the outer group allow-list is the DM [allowFrom] list
    with the entries of the pairing store appended, that is, the effective
    DM allow-list; a sender that list admits for direct messages matches
    the outer list of the [allowlist] group policy. With the SDK's nested
    decision such a sender passes the group admission step exactly when
    the room has no [allowFrom] of its own or that list matches the sender
    too. *)
Theorem dm_allowlist_backs_group_allowlist account storeAllowFrom :
  normalizeFeishuAllowlist (groupAllowFrom (config account)) = [] ->
  effectiveGroupAllowFromOf account storeAllowFrom
  = (normalizeFeishuAllowlist (cfg_allowFrom (config account))
     ++ normalizeFeishuAllowlist (Some storeAllowFrom))%list
  /\ effectiveGroupAllowFromOf account storeAllowFrom
     = effectiveAllowFromOf account storeAllowFrom
  /\ (forall senderIds inner,
        dmAllowed account storeAllowFrom senderIds = true ->
        let decision :=
          resolveFeishuGroupAllow GroupAllowlist
            (Some (effectiveGroupAllowFromOf account storeAllowFrom)) (Some inner)
            (senderId senderIds) (senderUserId senderIds) (Some (senderId senderIds)) in
        allowed (outerMatch decision) = true
        /\ groupAllowed decision
           = resolveNestedAllowlistDecision true true
               (negb (Nat.eqb (List.length (normalizeFeishuAllowlist (Some inner))) 0))
               (allowed (innerMatch decision))
        /\ ((forall oc om ic im,
               resolveNestedAllowlistDecision oc om ic im
               = nestedAllowlistDecision oc om ic im) ->
            forall w : World,
              admitGroup GroupAllowlist (effectiveGroupAllowFromOf account storeAllowFrom)
                inner senderIds w = (w, Some tt)
              <-> normalizeFeishuAllowlist (Some inner) = []
                  \/ allowed
                       (resolveFeishuAllowlistMatch (Some inner) (senderId senderIds)
                          (senderUserId senderIds) (Some (senderId senderIds))) = true)).
Proof.
  intros Hempty.
  assert (effectiveGroupAllowFromOf account storeAllowFrom
          = effectiveAllowFromOf account storeAllowFrom) as Heq.
  { unfold effectiveGroupAllowFromOf, effectiveAllowFromOf. now rewrite Hempty. }
  split; [|split; [exact Heq|]].
  { rewrite Heq. unfold effectiveAllowFromOf. apply effective_lists_filtered. }
  intros senderIds inner Hdm. cbv zeta. rewrite Heq.
  unfold dmAllowed in Hdm.
  pose proof (match_allowed_configured _ _ _ _ Hdm) as Hcfg.
  assert (forall d,
            d = resolveFeishuGroupAllow GroupAllowlist
                  (Some (effectiveAllowFromOf account storeAllowFrom)) (Some inner)
                  (senderId senderIds) (senderUserId senderIds) (Some (senderId senderIds)) ->
            allowed (outerMatch d) = true
            /\ innerMatch d
               = resolveFeishuAllowlistMatch (Some inner) (senderId senderIds)
                   (senderUserId senderIds) (Some (senderId senderIds))
            /\ groupAllowed d
               = resolveNestedAllowlistDecision true true
                   (negb (Nat.eqb (List.length (normalizeFeishuAllowlist (Some inner))) 0))
                   (allowed (innerMatch d))) as Hd.
  { intros d ->. unfold resolveFeishuGroupAllow. rewrite Hcfg.
    cbn [andb negb orb outerMatch innerMatch groupAllowed]. now rewrite Hdm. }
  destruct (Hd _ eq_refl) as (Hout & Hin & Hdec). split; [exact Hout|]. split; [exact Hdec|].
  intros Hsdk w. unfold admitGroup. rewrite Hdec, Hsdk, Hin. clear Hd Hout Hin Hdec.
  set (innerOk := allowed (resolveFeishuAllowlistMatch (Some inner) (senderId senderIds)
                             (senderUserId senderIds) (Some (senderId senderIds)))).
  destruct (normalizeFeishuAllowlist (Some inner)) as [|i is_];
    cbn [List.length Nat.eqb negb nestedAllowlistDecision].
  - split; [now left|reflexivity].
  - destruct innerOk; cbn [negb].
    + split; [now right|reflexivity].
    + split.
      * unfold andThen, emit, returnEarly. discriminate.
      * intros [?|?]; discriminate.
Qed.

End GroupFallback.

(** ** The handler on concrete events *)

Lemma mapPairing_created (s : gmap string string) (id : string) (userId : option string) :
  snd (snd (@upsertPairingRequest mapPairingStore s id userId)) = negb (mapPending s id).
Proof.
  unfold mapPending, upsertPairingRequest, mapPairingStore.
  destruct (s !! id) as [code|] eqn:E; cbn [fst snd]; case_bool_decide as H;
    try reflexivity; exfalso.
  - apply H. eauto.
  - now destruct H.
Qed.

Lemma mapPairing_pending (s : gmap string string) (id : string) (userId : option string) :
  mapPending (fst (@upsertPairingRequest mapPairingStore s id userId)) id = true.
Proof.
  unfold mapPending, upsertPairingRequest, mapPairingStore.
  destruct (s !! id) as [code|] eqn:E; cbn [fst snd]; case_bool_decide as H;
    try reflexivity; exfalso; apply H.
  - eauto.
  - rewrite lookup_insert_eq. eauto.
Qed.

(** "hello" from an unknown sender under the default [pairing] policy: the
    answer is the pairing code, nothing is dispatched. *)
Example hello_gets_pairing_code :
  handleConcrete helloFromAlice (accountOf None None None None None) emptyWorld
  = (@Build_World mapPairingStore ({["ou_alice" := "code-ou_alice"]} : gmap string string)
       [StatusInbound 1700000000000; ActivityInbound 1700000000000;
        SendTextFeishu "oc_dm" "Your Feishu user id: ou_alice code: code-ou_alice";
        LogDrop "ou_alice" (DmSenderPolicy DmPairing)], None).
Proof. vm_compute. reflexivity. Qed.

(** C1, as stated, fails: a direct message in a chat whose entry is
    disabled is dropped before the pairing step. The sender is not
    allow-listed and the policy is [pairing], yet no request is upserted
    and no reply is sent. *)
Lemma disabled_chat_direct_message_not_paired :
  let account :=
    accountOf (Some DmPairing) None None None (Some {["oc_dm" := disabledRoom]}) in
  let r := handleConcrete helloFromAlice account emptyWorld in
  (exists message senderIds rawBody,
     @routeInbound plainRuntime helloFromAlice account
     = Some (message, senderIds, "oc_dm", rawBody)
     /\ chatTypeOf message = Some "p2p"
     /\ senderId senderIds = "ou_alice"
     /\ @dmAllowed account [] senderIds = false)
  /\ pairingStore (fst r) = (∅ : gmap string string)
  /\ countIf isPairingReply (effects (fst r)) = 0%nat
  /\ effects (fst r)
     = [StatusInbound 1700000000000; ActivityInbound 1700000000000;
        LogDrop "oc_dm" ChatDisabled].
Proof.
  cbv zeta. split.
  - eexists _, _, _. vm_compute. repeat split; reflexivity.
  - vm_compute. repeat split; reflexivity.
Qed.

Lemma helloFromAlice_unapproved :
  @unapprovedDirect specSdk plainRuntime (accountOf None None None None None) []
    "ou_alice" helloFromAlice.
Proof.
  exists (textMessage "oc_dm" "p2p" "hello"),
    {| senderId := "ou_alice"; senderOpenId := Some "ou_alice"; senderUserId := None |},
    "oc_dm", "hello".
  vm_compute. repeat split; reflexivity.
Defined.

(** Three messages of the same unapproved sender: one pairing-code reply. *)
Lemma pairing_reply_once_witness :
  let account := accountOf None None None None None in
  default DmPairing (dmPolicy (config account)) = DmPairing
  /\ mapPending (pairingStore emptyWorld) "ou_alice" = false
  /\ let w' :=
       @handleAll specSdk plainRuntime mapPairingStore threeHellos account plainConfig []
         emptyWorld in
     countIf isPairingReply (effects w') = 1%nat /\ countIf isDispatch (effects w') = 0%nat.
Proof.
  cbv zeta. split; [reflexivity|]. split; [reflexivity|].
  destruct (@pairing_reply_once specSdk plainRuntime mapPairingStore
              (@Build_PairingContract mapPairingStore mapPending
                 mapPairing_created mapPairing_pending)
              (accountOf None None None None None) plainConfig [] eq_refl) as (_ & _ & H).
  apply (H "ou_alice" threeHellos emptyWorld).
  - discriminate.
  - repeat constructor; exact helloFromAlice_unapproved.
  - reflexivity.
Defined.

Lemma bot_and_app_events_ignored_witness :
  senderTypeOf (fst (fst (unwrapFeishuEvent helloFromApp))) = Some "app"
  /\ handleConcrete helloFromApp (accountOf None None None None None) emptyWorld
     = (emptyWorld, None).
Proof.
  split; [reflexivity|].
  apply (@bot_and_app_events_ignored specSdk plainRuntime mapPairingStore).
  left. reflexivity.
Defined.

(** The bot's own message, recognised by its [open_id]. *)
Example own_message_ignored :
  handleConcrete (eventPayload (senderOf "user" " ou_bot ") (textMessage "oc_g" "group" "hi"))
    (accountOf None None None None None) emptyWorld
  = (emptyWorld, None).
Proof. vm_compute. reflexivity. Qed.

(** The scenario of the specification: room ["room-1"] with
    [requireMention: false], [groupAllowFrom: ["*"]], policy [allowlist]; a
    plain message without a mention is handed to the agent runtime. *)
Example open_room_admits_plain_message :
  let room :=
    {| requireMention := Some false; skills := None; enabled := None;
       allowFrom := None; systemPrompt := None |} in
  let account :=
    accountOf None (Some GroupAllowlist) None (Some ["*"]) (Some {["room-1" := room]}) in
  let r :=
    handleConcrete
      (eventPayload (senderOf "user" "ou_alice") (textMessage "room-1" "group" "hi"))
      account emptyWorld in
  snd r = Some tt /\ countIf isDispatch (effects (fst r)) = 2%nat.
Proof. vm_compute. split; reflexivity. Qed.

Lemma group_policy_disabled_and_open_witness :
  let account := accountOf None (Some GroupDisabled) (Some ["*"]) (Some ["*"]) None in
  groupPolicy (config account) = Some GroupDisabled
  /\ exists trace,
       handleConcrete hiInGroup account emptyWorld
       = (@Build_World mapPairingStore (pairingStore emptyWorld)
            (effects emptyWorld ++ trace)%list, None)
       /\ forallb isBookkeeping trace = true.
Proof.
  cbv zeta. split; [reflexivity|].
  destruct (@group_policy_disabled_and_open specSdk plainRuntime mapPairingStore) as [H _].
  apply (H hiInGroup _ plainConfig 1700000000500%Z [] emptyWorld); [reflexivity|].
  intros message senderIds chatId rawBody Hroute.
  vm_compute in Hroute. injection Hroute as <- _ _ _. vm_compute. discriminate.
Defined.

Lemma specSdk_nested_decision oc om ic im :
  @resolveNestedAllowlistDecision specSdk oc om ic im = nestedAllowlistDecision oc om ic im.
Proof. reflexivity. Qed.

Lemma nested_group_admission_witness :
  @groupAllowed
    (@resolveFeishuGroupAllow specSdk GroupAllowlist (Some ["ou_abc"; "ou_x"]) (Some ["ou_x"])
       "ou_x" None None) = true
  /\ @groupAllowed
       (@resolveFeishuGroupAllow specSdk GroupAllowlist None (Some ["ou_x"]) "ou_x" None None)
     = true
  /\ @groupAllowed
       (@resolveFeishuGroupAllow specSdk GroupAllowlist (Some [" "]) None "ou_x" None None)
     = false.
Proof.
  split; [|split].
  - apply (@nested_group_admission specSdk (Some ["ou_abc"; "ou_x"]) (Some ["ou_x"]) "ou_x"
             None None specSdk_nested_decision);
      [reflexivity|discriminate|right; reflexivity].
  - apply (@nested_group_admission specSdk None (Some ["ou_x"]) "ou_x" None None
             specSdk_nested_decision);
      [reflexivity|discriminate|left; reflexivity].
  - apply (@nested_group_admission specSdk (Some [" "]) None "ou_x" None None
             specSdk_nested_decision); reflexivity.
Defined.

(** C2, as stated, fails: the sender matches the inner list, which is
    configured, and is not allowed, because the outer list is configured
    and does not hold them. *)
Lemma inner_match_does_not_override_outer :
  allowed (resolveFeishuAllowlistMatch (Some ["ou_x"]) "ou_x" None None) = true
  /\ normalizeFeishuAllowlist (Some ["ou_x"]) <> []
  /\ @groupAllowed
       (@resolveFeishuGroupAllow specSdk GroupAllowlist (Some ["ou_abc"]) (Some ["ou_x"])
          "ou_x" None None) = false.
Proof. split; [reflexivity|]. split; [discriminate|reflexivity]. Qed.

Lemma dm_allowlist_backs_group_allowlist_witness :
  let account := accountOf None (Some GroupAllowlist) (Some ["user:ou_alice"]) None None in
  let ids := {| senderId := "ou_alice"; senderOpenId := Some "ou_alice";
                senderUserId := None |} in
  normalizeFeishuAllowlist (groupAllowFrom (config account)) = []
  /\ dmAllowed account ["ou_carol"] ids = true
  /\ effectiveGroupAllowFromOf account ["ou_carol"] = ["ou_alice"; "ou_carol"]
  /\ @admitGroup specSdk mapPairingStore GroupAllowlist
       (effectiveGroupAllowFromOf account ["ou_carol"]) [] ids emptyWorld
     = (emptyWorld, Some tt)
  /\ @admitGroup specSdk mapPairingStore GroupAllowlist
       (effectiveGroupAllowFromOf account ["ou_carol"]) ["ou_alice"; "ou_bob"] ids emptyWorld
     = (emptyWorld, Some tt).
Proof.
  cbv zeta. split; [reflexivity|]. split; [reflexivity|].
  destruct (@dm_allowlist_backs_group_allowlist specSdk mapPairingStore
              (accountOf None (Some GroupAllowlist) (Some ["user:ou_alice"]) None None)
              ["ou_carol"] eq_refl) as (Hlist & _ & H).
  split; [rewrite Hlist; reflexivity|]. split.
  - destruct (H {| senderId := "ou_alice"; senderOpenId := Some "ou_alice";
                   senderUserId := None |} [] eq_refl) as (_ & _ & Hadmit).
    apply (Hadmit specSdk_nested_decision). left. reflexivity.
  - destruct (H {| senderId := "ou_alice"; senderOpenId := Some "ou_alice";
                   senderUserId := None |} ["ou_alice"; "ou_bob"] eq_refl) as (_ & _ & Hadmit).
    apply (Hadmit specSdk_nested_decision). right. reflexivity.
Defined.

(** C10, as stated, fails: [ou_alice] is on the DM [allowFrom] list, the
    account has no [groupAllowFrom], and the room has an [allowFrom] of its
    own that does not hold her; her message in that room is dropped at the
    group admission step. *)
Lemma dm_listed_sender_dropped_by_room_allowlist :
  let room :=
    {| requireMention := Some false; skills := None; enabled := None;
       allowFrom := Some ["ou_bob"]; systemPrompt := None |} in
  let account :=
    accountOf None (Some GroupAllowlist) (Some ["ou_alice"]) None (Some {["oc_g" := room]}) in
  let ids := {| senderId := "ou_alice"; senderOpenId := Some "ou_alice";
                senderUserId := None |} in
  normalizeFeishuAllowlist (groupAllowFrom (config account)) = []
  /\ @routeInbound plainRuntime hiInGroup account
     = Some (textMessage "oc_g" "group" "hi", ids, "oc_g", "hi")
  /\ @dmAllowed account [] ids = true
  /\ handleConcrete hiInGroup account emptyWorld
     = (@Build_World mapPairingStore (∅ : gmap string string)
          [StatusInbound 1700000000000; ActivityInbound 1700000000000;
           LogDrop "ou_alice" (GroupSenderPolicy GroupAllowlist)], None).
Proof. cbv zeta. repeat split; vm_compute; reflexivity. Qed.


Lemma normalize_idempotent_iff_settled_witness :
  settled (normalizeFeishuAllowEntry "Feishu:User:OU_ABC") = true
  /\ normalizeFeishuAllowEntry (normalizeFeishuAllowEntry "Feishu:User:OU_ABC")
     = normalizeFeishuAllowEntry "Feishu:User:OU_ABC".
Proof.
  split; [reflexivity|].
  apply (normalize_idempotent_iff_settled "Feishu:User:OU_ABC"). reflexivity.
Defined.

(** ** The connection supervisor *)

Section SupervisorFacts.
Context `{engine : NumberEngine}.

Lemma requestRestart_oneRestart clk why s :
  oneRestart s -> oneRestart (requestRestart clk why s).
Proof.
  intros Hinv. unfold requestRestart.
  destruct (shutDown s); [assumption|].
  destruct (restartInFlight s) eqn:Hfl.
  - destruct Hinv as [[_ H]|(r & Hr & _)]; [congruence|].
    right. exists r. cbn. now rewrite Hfl.
  - destruct Hinv as [[Hr _]|(r & _ & H)]; [|congruence].
    right. eexists. cbn. rewrite Hr. split; reflexivity.
Qed.

Lemma stop_oneRestart why s : oneRestart s -> oneRestart (stop why s).
Proof. unfold stop. now destruct (stopped s). Qed.

Lemma resumeRestart_oneRestart cfg clk i started s :
  oneRestart s -> oneRestart (resumeRestart cfg clk i started s).
Proof.
  intros Hinv. unfold resumeRestart.
  destruct (restarts s !! i) as [r|] eqn:Hi; [|assumption].
  destruct Hinv as [[Hr _]|(r0 & Hr & Hfl)]; [now rewrite Hr in Hi|].
  rewrite Hr in Hi. destruct i as [|i]; [|discriminate]. injection Hi as ->.
  destruct (stage r) eqn:Hst.
  - right. eexists. cbn. rewrite Hr. split; [reflexivity|assumption].
  - destruct (aborted s); [|destruct (shutDown s)];
      try (right; eexists; cbn; rewrite Hr; split; [reflexivity|assumption]).
    unfold startWsClient. destruct (negb (hasStart (createWsClient cfg)));
      right; eexists; cbn; rewrite Hr; split; first [reflexivity|assumption].
  - destruct started; right; eexists; cbn; rewrite Hr; split; first [reflexivity|assumption].
  - unfold settleRestart. cbn. rewrite Hr. cbn.
    destruct (restartQueued s).
    + apply requestRestart_oneRestart. left. split; reflexivity.
    + left. split; reflexivity.
Qed.

Lemma step_oneRestart cfg clk e s : oneRestart s -> oneRestart (step cfg clk e s).
Proof.
  intros Hinv. destruct e as [started| | | | |why|i started]; cbn [step].
  - unfold startupSettled. destruct (negb (startup s)); [assumption|].
    destruct (negb started); [exact Hinv|].
    unfold ensureWatchdog. cbn.
    destruct (watchdogTimer s); cbn.
    + destruct (aborted s); [apply stop_oneRestart|]; exact Hinv.
    + destruct (_ || _); cbn; (destruct (aborted s); [apply stop_oneRestart|]); exact Hinv.
  - destruct (watchdogTimer s); [|assumption]. unfold watchdogTick.
    destruct (shutDown s); [assumption|]. destruct (_ <? _)%Z; [assumption|].
    apply requestRestart_oneRestart. exact Hinv.
  - unfold onInbound. destruct (shutDown s); exact Hinv.
  - destruct (aborted s); [assumption|]. apply stop_oneRestart. exact Hinv.
  - apply stop_oneRestart. exact Hinv.
  - now apply requestRestart_oneRestart.
  - now apply resumeRestart_oneRestart.
Qed.

Lemma reachable_oneRestart cfg s : reachable cfg s -> oneRestart s.
Proof.
  induction 1 as [alreadyAborted clk|clk e s _ IH].
  - unfold monitorFeishuProvider, startWsClient.
    destruct (negb (hasStart (createWsClient cfg))); left; split; reflexivity.
  - now apply step_oneRestart.
Qed.

Lemma reachable_run cfg events s : reachable cfg s -> reachable cfg (run cfg events s).
Proof.
  revert s; induction events as [|[clk e] events IH]; intros s H; [assumption|].
  cbn [run]. apply IH. now constructor.
Qed.

Lemma requestRestart_in_flight clk why s :
  restartInFlight s = true -> restarts (requestRestart clk why s) = restarts s.
Proof.
  intros Hfl. unfold requestRestart. rewrite Hfl. now destruct (shutDown s).
Qed.

Lemma stop_restarts why s : restarts (stop why s) = restarts s.
Proof. unfold stop. now destruct (stopped s). Qed.

(** One resumption of the pending restart: a body that has finished is
    settled, any other moves on to a later await. *)
Lemma resume_pending cfg clk started s r :
  restarts s = [r] ->
  let s' := step cfg clk (RestartResumed 0 started) s in
  match stage r with
  | Settling =>
      if restartQueued s && negb (shutDown s) then
        restartQueued s' = false /\ restartInFlight s' = true
        /\ reconnectAttempts s' = (reconnectAttempts s + 1)%Z
        /\ exists r', restarts s' = [r'] /\ reason r' = "retry"
      else restarts s' = [] /\ restartInFlight s' = false
  | _ =>
      exists r', restarts s' = [r'] /\ reason r' = reason r
                 /\ (stageRank (stage r) < stageRank (stage r'))%nat
  end.
Proof.
  intros Hr. cbv zeta. cbn [step]. unfold resumeRestart.
  rewrite Hr. cbn [lookup list_lookup].
  destruct (stage r) eqn:Hst.
  - eexists. cbn. rewrite ?Hr. cbn. split; [reflexivity|]. split; [reflexivity|]. cbn. lia.
  - destruct (aborted s); [|destruct (shutDown s)];
      try (eexists; cbn; rewrite ?Hr; cbn; split; [reflexivity|]; split; [reflexivity|]; cbn; lia).
    unfold startWsClient. destruct (negb (hasStart (createWsClient cfg)));
      eexists; cbn; rewrite ?Hr; cbn; (split; [reflexivity|]; split; [reflexivity|]; cbn; lia).
  - destruct started; eexists; cbn; rewrite ?Hr; cbn;
      (split; [reflexivity|]; split; [reflexivity|]; cbn; lia).
  - unfold settleRestart. cbn. rewrite ?Hr. cbn.
    destruct (restartQueued s); cbn; [|split; reflexivity].
    unfold requestRestart, shutDown. cbn.
    destruct (stopped s || aborted s); cbn; [split; reflexivity|].
    repeat split. eexists; split; reflexivity.
Qed.

(** Resumed often enough, the body of a pending restart finishes: it is
    left waiting for its [finally] callback after at most [n] resumptions,
    [n] being the number of awaits it still has to pass. *)
Lemma resume_reaches_settling cfg n :
  forall s r (resumptions : list (Clock * bool)),
    restarts s = [r] -> (3 - stageRank (stage r) <= n)%nat ->
    List.length resumptions = n ->
    exists k r',
      (k <= n)%nat
      /\ restarts (run cfg (take k (map resumption resumptions)) s) = [r']
      /\ stage r' = Settling.
Proof.
  induction n as [|n IH]; intros s r resumptions Hr Hrank Hlen.
  - exists 0%nat, r. split; [lia|]. split; [exact Hr|].
    destruct (stage r); cbn in Hrank; try lia; reflexivity.
  - destruct (stage r) eqn:Hst.
    4:{ exists 0%nat, r. split; [lia|]. split; [exact Hr|exact Hst]. }
    all: destruct resumptions as [|[clk started] rest]; [discriminate|];
      pose proof (resume_pending cfg clk started s r Hr) as Hstep;
      cbv zeta in Hstep; rewrite Hst in Hstep;
      destruct Hstep as (r1 & Hr1 & _ & Hlt);
      destruct (IH _ r1 rest Hr1) as (k & r' & Hk & Hrun & Hset);
        [cbn [stageRank] in Hlt, Hrank; lia|cbn in Hlen; lia|];
      exists (S k), r'; (split; [lia|]); split; [exact Hrun|exact Hset].
Qed.

(** C4: in every state the supervisor reaches at most one restart is in
    flight; a restart requested while one is in flight starts nothing and
    only sets the queued flag, and no event other than its own resumption
    touches the restart in flight. Each resumption takes its body to a
    later await, so that after at most three of them the body has
    finished; when it completes it reads the queued flag and, when the
    flag is set, clears it and starts the next restart. This holds for
    every interleaving of watchdog ticks, other triggers and resumptions
    of the pending restart. *)
Theorem restart_coalescing cfg s :
  reachable cfg s ->
  (List.length (restarts s) <= 1)%nat
  /\ (restartInFlight s = true <-> restarts s <> [])
  /\ (forall clk why,
        restartInFlight s = true ->
        let s' := requestRestart clk why s in
        restarts s' = restarts s /\ restartInFlight s' = true
        /\ reconnectAttempts s' = reconnectAttempts s
        /\ (shutDown s = false -> s' = set_restartQueued true s)
        /\ (shutDown s = true -> s' = s))
  /\ (forall clk e,
        restartInFlight s = true -> (forall started, e <> RestartResumed 0 started) ->
        restarts (step cfg clk e s) = restarts s
        /\ restartInFlight (step cfg clk e s) = true)
  /\ (forall clk r started,
        restarts s = [r] ->
        let s' := step cfg clk (RestartResumed 0 started) s in
        match stage r with
        | Settling =>
            if restartQueued s && negb (shutDown s) then
              restartQueued s' = false /\ restartInFlight s' = true
              /\ reconnectAttempts s' = (reconnectAttempts s + 1)%Z
              /\ exists r', restarts s' = [r'] /\ reason r' = "retry"
            else restarts s' = [] /\ restartInFlight s' = false
        | _ =>
            exists r', restarts s' = [r'] /\ reason r' = reason r
                       /\ (stageRank (stage r) < stageRank (stage r'))%nat
        end)
  /\ (forall r (resumptions : list (Clock * bool)),
        restarts s = [r] -> List.length resumptions = 3%nat ->
        exists k r',
          (k <= 3)%nat
          /\ restarts (run cfg (take k (map resumption resumptions)) s) = [r']
          /\ stage r' = Settling).
Proof.
  intros Hreach. pose proof (reachable_oneRestart cfg s Hreach) as Hinv.
  split; [|split; [|split; [|split; [|split]]]].
  - destruct Hinv as [[-> _]|(r & -> & _)]; cbn; lia.
  - destruct Hinv as [[Hr Hfl]|(r & Hr & Hfl)]; rewrite Hr, Hfl; split; congruence.
  - intros clk why Hfl. cbv zeta. unfold requestRestart. rewrite Hfl.
    destruct (shutDown s); repeat split; try reflexivity; try assumption;
      discriminate.
  - intros clk e Hfl Hother.
    destruct Hinv as [[_ Hno]|(r & Hr & _)]; [congruence|].
    destruct e as [started| | | | |why|i started]; cbn [step].
    + unfold startupSettled. destruct (negb (startup s)); [now split|].
      destruct (negb started); [now split|].
      unfold ensureWatchdog. cbn.
      destruct (watchdogTimer s); cbn; [|destruct (_ || _); cbn];
        (destruct (aborted s); [unfold stop; cbn; destruct (stopped s)|]); now split.
    + destruct (watchdogTimer s); [|now split]. unfold watchdogTick.
      destruct (shutDown s) eqn:Hdown; [now split|]. destruct (_ <? _)%Z; [now split|].
      unfold requestRestart. cbn. unfold shutDown in *. cbn. rewrite Hdown, Hfl. now split.
    + unfold onInbound. destruct (shutDown s); now split.
    + destruct (aborted s); [now split|]. unfold stop. cbn. destruct (stopped s); now split.
    + unfold stop. destruct (stopped s); now split.
    + unfold requestRestart. rewrite Hfl. destruct (shutDown s); now split.
    + destruct i as [|i]; [now destruct (Hother started)|].
      unfold resumeRestart. rewrite Hr. cbn [lookup list_lookup]. now split.
  - intros clk r started Hr. apply resume_pending. exact Hr.
  - intros r resumptions Hr Hlen.
    apply (resume_reaches_settling cfg 3 s r resumptions Hr); [|exact Hlen].
    destruct (stage r); cbn; lia.
Qed.

Lemma requestRestart_idleRestarts clk why s :
  idleRestartsRequested (requestRestart clk why s) = idleRestartsRequested s.
Proof.
  unfold requestRestart, idleRestartsRequested.
  destruct (shutDown s); [reflexivity|]. destruct (restartInFlight s); [reflexivity|].
  cbn -[countIf]. rewrite countIf_app. cbn. lia.
Qed.

Lemma stop_idleRestarts why s :
  idleRestartsRequested (stop why s) = idleRestartsRequested s
  /\ (watchdogTimer s = false -> watchdogTimer (stop why s) = false).
Proof.
  unfold stop, idleRestartsRequested. destruct (stopped s); [split; auto|].
  cbn -[countIf]. rewrite countIf_app. cbn. split; [lia|reflexivity].
Qed.

Lemma resumeRestart_idleRestarts cfg clk i started s :
  idleRestartsRequested (resumeRestart cfg clk i started s) = idleRestartsRequested s
  /\ watchdogTimer (resumeRestart cfg clk i started s) = watchdogTimer s.
Proof.
  unfold resumeRestart. destruct (restarts s !! i) as [r|]; [|split; reflexivity].
  destruct (stage r).
  - split; reflexivity.
  - destruct (aborted s); [split; reflexivity|]. destruct (shutDown s); [split; reflexivity|].
    unfold startWsClient, idleRestartsRequested.
    destruct (negb (hasStart (createWsClient cfg))); cbn -[countIf]; rewrite countIf_app; cbn;
      split; (lia || reflexivity).
  - unfold idleRestartsRequested. destruct started; cbn -[countIf]; rewrite ?countIf_app; cbn;
      split; (lia || reflexivity).
  - unfold settleRestart. cbn. destruct (restartQueued s); [|split; reflexivity].
    rewrite requestRestart_idleRestarts. split; [reflexivity|].
    unfold requestRestart. cbn. destruct (shutDown _); [reflexivity|]. reflexivity.
Qed.

Lemma requestRestart_watchdogTimer clk why s :
  watchdogTimer (requestRestart clk why s) = watchdogTimer s.
Proof.
  unfold requestRestart. destruct (shutDown s); [reflexivity|].
  now destruct (restartInFlight s).
Qed.

(** With a timeout of zero or less the watchdog is never armed and never
    asks for a restart. *)
Lemma reachable_watchdog_off cfg s :
  (idleTimeoutSeconds cfg <= 0)%Z -> reachable cfg s ->
  watchdogTimer s = false /\ idleRestartsRequested s = 0%nat.
Proof.
  intros Hidle. apply Z.leb_le in Hidle.
  induction 1 as [alreadyAborted clk|clk e s _ [IHt IHn]].
  - unfold monitorFeishuProvider, startWsClient.
    destruct (negb (hasStart (createWsClient cfg))); split; reflexivity.
  - destruct e as [started| | | | |why|i started]; cbn [step].
    + unfold startupSettled. destruct (negb (startup s)); [now split|].
      destruct (negb started); [now split|].
      unfold ensureWatchdog. cbn. rewrite IHt, Hidle. cbn.
      destruct (aborted s); [|now split].
      destruct (stop_idleRestarts "shutdown" (set_startup false s)) as [-> Ht].
      split; [now apply Ht|exact IHn].
    + rewrite IHt. now split.
    + unfold onInbound. destruct (shutDown s); now split.
    + destruct (aborted s); [now split|].
      destruct (stop_idleRestarts "abort" (set_aborted true s)) as [-> Ht].
      split; [now apply Ht|exact IHn].
    + destruct (stop_idleRestarts "shutdown" s) as [-> Ht]. split; [now apply Ht|exact IHn].
    + now rewrite requestRestart_idleRestarts, requestRestart_watchdogTimer.
    + destruct (resumeRestart_idleRestarts cfg clk i started s) as [-> ->]. now split.
Qed.

(** C5, amended: on a tick the idle watchdog requests a restart if and
    only if the supervisor is neither stopped nor aborted and
    [now - lastInboundAt] is at least [idleTimeoutSeconds * 1000]
    milliseconds; when [idleTimeoutSeconds <= 0] the watchdog is never
    armed and never requests a restart. *)
Theorem idle_watchdog cfg :
  (forall clk s,
     watchdogTimer s = true ->
     let s' := step cfg clk WatchdogTick s in
     let idleMs := (clock_now clk - lastInboundAt s)%Z in
     (idleRestartsRequested s' = S (idleRestartsRequested s)
      <-> shutDown s = false /\ (idleTimeoutSeconds cfg * 1000 <= idleMs)%Z)
     /\ (shutDown s = false -> (idleTimeoutSeconds cfg * 1000 <= idleMs)%Z ->
         s' = requestRestart clk "idle-timeout" (logLine (LogIdleRestart idleMs) s))
     /\ (shutDown s = true \/ (idleMs < idleTimeoutSeconds cfg * 1000)%Z -> s' = s))
  /\ ((idleTimeoutSeconds cfg <= 0)%Z ->
      forall s, reachable cfg s ->
        watchdogTimer s = false /\ idleRestartsRequested s = 0%nat
        /\ forall clk, step cfg clk WatchdogTick s = s).
Proof.
  split.
  - intros clk s Harmed. cbv zeta. cbn [step]. rewrite Harmed. unfold watchdogTick.
    destruct (shutDown s) eqn:Hdown.
    { split; [split; [lia|intros [? _]; discriminate]|].
      split; [discriminate|reflexivity]. }
    destruct (clock_now clk - lastInboundAt s <? idleTimeoutSeconds cfg * 1000)%Z eqn:Hlt.
    + apply Z.ltb_lt in Hlt.
      split; [split; [lia|intros [_ ?]; lia]|]. split; [lia|reflexivity].
    + apply Z.ltb_ge in Hlt. rewrite requestRestart_idleRestarts.
      unfold idleRestartsRequested at 1. cbn -[countIf]. rewrite countIf_app. cbn.
      fold (idleRestartsRequested s).
      split; [split; [auto|lia]|]. split; [reflexivity|].
      intros [?|?]; [discriminate|lia].
  - intros Hidle s Hreach.
    destruct (reachable_watchdog_off cfg s Hidle Hreach) as [Ht Hn].
    repeat split; try assumption. intros clk. cbn [step]. now rewrite Ht.
Qed.

End SupervisorFacts.

Section SupervisorRuns.
#[local] Existing Instance productEngine.

(** C5, as stated, fails: when the abort signal arrives while the first
    connection attempt is awaited, [stop] runs before the watchdog exists,
    [ensureWatchdog] arms it afterwards, and its ticks find the supervisor
    stopped: 65 s of silence with a 60 s timeout, and no restart is
    requested. *)
Lemma stale_watchdog_tick :
  ~ (forall cfg clk s,
       reachable cfg s -> watchdogTimer s = true ->
       (idleRestartsRequested (step cfg clk WatchdogTick s) = S (idleRestartsRequested s)
        <-> (idleTimeoutSeconds cfg * 1000 <= clock_now clk - lastInboundAt s)%Z)).
Proof.
  intros H.
  assert (reachable minuteConfig abortedDuringStartup) as Hreach.
  { apply reachable_run. constructor. }
  destruct (H minuteConfig (atTime 65000) abortedDuringStartup Hreach eq_refl) as [_ Hfire].
  assert (idleRestartsRequested (step minuteConfig (atTime 65000) WatchdogTick abortedDuringStartup)
          = S (idleRestartsRequested abortedDuringStartup)) as Hn.
  { apply Hfire. vm_compute. discriminate. }
  vm_compute in Hn. discriminate.
Qed.

Lemma restart_coalescing_witness :
  reachable minuteConfig racingTriggers
  /\ (List.length (restarts racingTriggers) <= 1)%nat
  /\ restartInFlight racingTriggers = true
  /\ restartQueued racingTriggers = true
  /\ restartsStarted racingTriggers = 1%nat
  /\ (exists k r',
        (k <= 3)%nat
        /\ restarts
             (run minuteConfig
                (take k (map resumption
                           [(atTime 70010, true); (atTime 72010, true); (atTime 72500, true)]))
                racingTriggers) = [r']
        /\ stage r' = Settling)
  /\ restartsStarted racingTriggersResumed = 2%nat
  /\ restartQueued racingTriggersResumed = false
  /\ map reason (restarts racingTriggersResumed) = ["retry"].
Proof.
  assert (reachable minuteConfig racingTriggers) as Hreach.
  { apply reachable_run. constructor. }
  pose proof (restart_coalescing minuteConfig racingTriggers Hreach)
    as (Hone & _ & _ & _ & _ & Hsettles).
  split; [exact Hreach|]. split; [exact Hone|].
  split; [reflexivity|]. split; [reflexivity|]. split; [reflexivity|].
  split; [|repeat split; reflexivity].
  eapply Hsettles; reflexivity.
Defined.

Lemma idle_watchdog_witness :
  watchdogTimer connectedAndSilent = true
  /\ shutDown connectedAndSilent = false
  /\ (idleTimeoutSeconds minuteConfig * 1000 <= 65000 - lastInboundAt connectedAndSilent)%Z
  /\ idleRestartsRequested (step minuteConfig (atTime 65000) WatchdogTick connectedAndSilent)
     = S (idleRestartsRequested connectedAndSilent).
Proof.
  split; [reflexivity|]. split; [reflexivity|]. split; [vm_compute; discriminate|].
  destruct (idle_watchdog minuteConfig) as [H _].
  apply (H (atTime 65000) connectedAndSilent eq_refl).
  split; [reflexivity|vm_compute; discriminate].
Defined.

(** The scenario of the specification: a timeout of 60 s, ticks every
    20 s, no inbound event; the tick at 60 s is the first to request a
    restart, and it starts one. *)
Example silent_minute :
  let s := run minuteConfig
             [(atTime 20000, WatchdogTick); (atTime 40000, WatchdogTick)]
             connectedAndSilent in
  idleRestartsRequested s = 0%nat
  /\ idleRestartsRequested (step minuteConfig (atTime 60000) WatchdogTick s) = 1%nat
  /\ List.length (restarts (step minuteConfig (atTime 60000) WatchdogTick s)) = 1%nat.
Proof. vm_compute. repeat split; reflexivity. Qed.


End SupervisorRuns.

(** * Further properties of the adapter *)

(** ** Trimming and case *)

Lemma trimStart_no_leading_space (s : string) :
  JS.startsWithWhiteSpace (JS.trimStart s) = false.
Proof.
  induction s as [|c r IH]; [reflexivity|]. cbn [JS.trimStart].
  destruct (JS.isWhiteSpace c) eqn:E; [assumption|]. cbn. exact E.
Qed.

Lemma trimEnd_no_leading_space (s : string) :
  JS.startsWithWhiteSpace s = false -> JS.startsWithWhiteSpace (JS.trimEnd s) = false.
Proof.
  destruct s as [|c r]; [reflexivity|]. cbn [JS.startsWithWhiteSpace JS.trimEnd].
  intros E. destruct (JS.trimEnd r); [rewrite E|]; cbn; auto.
Qed.

Lemma trim_idem (s : string) : JS.trim (JS.trim s) = JS.trim s.
Proof.
  unfold JS.trim.
  rewrite (trimStart_fixed (JS.trimEnd (JS.trimStart s))).
  - apply trimEnd_idem.
  - apply trimEnd_no_leading_space, trimStart_no_leading_space.
Qed.

Lemma trimStart_toLowerCase (s : string) :
  JS.trimStart (JS.toLowerCase s) = JS.toLowerCase (JS.trimStart s).
Proof.
  induction s as [|c r IH]; [reflexivity|]. cbn [JS.toLowerCase JS.trimStart].
  rewrite isWhiteSpace_lowerChar. destruct (JS.isWhiteSpace c); [assumption|reflexivity].
Qed.

Lemma trim_toLowerCase (s : string) :
  JS.trim (JS.toLowerCase s) = JS.toLowerCase (JS.trim s).
Proof. unfold JS.trim. now rewrite trimStart_toLowerCase, trimEnd_toLowerCase. Qed.

Lemma truthy_nonempty (s : string) : JS.truthy s = true <-> s <> "".
Proof. destruct s; cbn; split; congruence. Qed.

(** ** The allow-list matcher *)

Lemma includes_In (l : list string) (s : string) : includes l s = true <-> In s l.
Proof.
  unfold includes. rewrite existsb_exists. split.
  - intros (x & Hx & E). apply String.eqb_eq in E. now subst.
  - intros H. exists s. split; [assumption|apply String.eqb_refl].
Qed.

Lemma includes_app (l1 l2 : list string) (s : string) :
  includes (l1 ++ l2) s = includes l1 s || includes l2 s.
Proof. unfold includes. apply existsb_app. Qed.

Lemma normalizeFeishuAllowlist_app (a b : list string) :
  normalizeFeishuAllowlist (Some (a ++ b)%list)
  = (normalizeFeishuAllowlist (Some a) ++ normalizeFeishuAllowlist (Some b))%list.
Proof. unfold normalizeFeishuAllowlist. cbn. now rewrite List.map_app, List.filter_app. Qed.

Lemma includes_nonempty (l : list string) (s : string) :
  includes l s = true -> Nat.eqb (List.length l) 0 = false.
Proof. destruct l; [discriminate|reflexivity]. Qed.

(** The decision of the matcher as one boolean expression over the
    normalised list. *)
Lemma allowlist_match_decision allowFrom id userId name :
  let list := normalizeFeishuAllowlist allowFrom in
  let entry := normalizeFeishuAllowEntry in
  allowed (resolveFeishuAllowlistMatch allowFrom id userId name)
  = includes list "*"
    || (JS.truthy (entry id) && includes list (entry id))
    || (JS.truthy (entry (default "" userId)) && includes list (entry (default "" userId)))
    || match name with
       | Some n => JS.truthy n && JS.truthy (entry n) && includes list (entry n)
       | None => false
       end.
Proof.
  cbv zeta. unfold resolveFeishuAllowlistMatch.
  set (list := normalizeFeishuAllowlist allowFrom).
  destruct (Nat.eqb (List.length list) 0) eqn:Hlen.
  { destruct list; [|discriminate]. cbn. rewrite !andb_false_r.
    destruct name as [n|]; [now rewrite andb_false_r|reflexivity]. }
  destruct (includes list "*"); [reflexivity|]. cbn [orb map List.filter].
  destruct (JS.truthy (normalizeFeishuAllowEntry id)) eqn:Tid; cbn [List.filter find andb orb].
  - destruct (includes list (normalizeFeishuAllowEntry id)); [reflexivity|]. cbn [orb].
    destruct (JS.truthy (normalizeFeishuAllowEntry (default "" userId))) eqn:Tu;
      cbn [find andb orb].
    + destruct (includes list (normalizeFeishuAllowEntry (default "" userId))); [reflexivity|].
      cbn [orb]. destruct name as [n|]; [|reflexivity].
      destruct (JS.truthy n); [|reflexivity]. cbn [andb].
      now destruct (JS.truthy (normalizeFeishuAllowEntry n) && includes list _).
    + destruct name as [n|]; [|reflexivity].
      destruct (JS.truthy n); [|reflexivity]. cbn [andb].
      now destruct (JS.truthy (normalizeFeishuAllowEntry n) && includes list _).
  - destruct (JS.truthy (normalizeFeishuAllowEntry (default "" userId))) eqn:Tu;
      cbn [find andb orb].
    + destruct (includes list (normalizeFeishuAllowEntry (default "" userId))); [reflexivity|].
      cbn [orb]. destruct name as [n|]; [|reflexivity].
      destruct (JS.truthy n); [|reflexivity]. cbn [andb].
      now destruct (JS.truthy (normalizeFeishuAllowEntry n) && includes list _).
    + destruct name as [n|]; [|reflexivity].
      destruct (JS.truthy n); [|reflexivity]. cbn [andb].
      now destruct (JS.truthy (normalizeFeishuAllowEntry n) && includes list _).
Qed.

(** X1: the matcher allows a sender exactly when the normalised list holds
    the wildcard, or the normalised sender id, or the normalised user id, or
    the normalised name, blank candidates never matching. *)
Theorem allowlist_match_iff allowFrom id userId name :
  let list := normalizeFeishuAllowlist allowFrom in
  let entry := normalizeFeishuAllowEntry in
  allowed (resolveFeishuAllowlistMatch allowFrom id userId name) = true
  <-> In "*" list
      \/ (entry id <> "" /\ In (entry id) list)
      \/ (exists u, userId = Some u /\ entry u <> "" /\ In (entry u) list)
      \/ (exists n, name = Some n /\ entry n <> "" /\ In (entry n) list).
Proof.
  cbv zeta. rewrite allowlist_match_decision.
  rewrite !orb_true_iff, !andb_true_iff, !includes_In, !truthy_nonempty.
  split.
  - intros [[[H|H]|[Hne H]]|H]; auto.
    + destruct userId as [u|]; [right; right; left; eauto|].
      cbn in Hne. congruence.
    + destruct name as [n|]; [|discriminate].
      rewrite !andb_true_iff, includes_In, !truthy_nonempty in H.
      destruct H as [[_ Hne] Hin]. right; right; right. eauto.
  - intros [H|[H|[(u & -> & H)|(n & -> & Hne & Hin)]]]; auto.
    right. rewrite !andb_true_iff, includes_In, !truthy_nonempty.
    repeat split; try assumption. intros ->. now apply Hne.
Qed.

(** X2: adding entries to an allow-list never locks a sender out, and an
    empty or all-blank list allows nobody. *)
Theorem allowlist_match_monotone (a b : list string) id userId name :
  (allowed (resolveFeishuAllowlistMatch (Some a) id userId name) = true ->
   allowed (resolveFeishuAllowlistMatch (Some (a ++ b)%list) id userId name) = true
   /\ allowed (resolveFeishuAllowlistMatch (Some (b ++ a)%list) id userId name) = true)
  /\ (normalizeFeishuAllowlist (Some a) = [] ->
      resolveFeishuAllowlistMatch (Some a) id userId name = notAllowed).
Proof.
  split.
  - rewrite !allowlist_match_decision. cbv zeta.
    rewrite !normalizeFeishuAllowlist_app.
    destruct name as [n|]; rewrite !includes_app;
      repeat match goal with |- context [includes ?l ?s] =>
        destruct (includes l s); cbn [orb andb] end;
      rewrite ?orb_true_r, ?andb_true_r, ?andb_false_r; cbn [orb];
      repeat match goal with |- context [JS.truthy ?s] =>
        destruct (JS.truthy s); cbn [orb andb] end; auto.
  - intros E. unfold resolveFeishuAllowlistMatch. now rewrite E.
Qed.

Lemma allowlist_match_monotone_witness :
  allowed (resolveFeishuAllowlistMatch (Some ["user:OU_A"]) "ou_a" None None) = true
  /\ allowed (resolveFeishuAllowlistMatch (Some (["ou_b"] ++ ["user:OU_A"])%list) "ou_a" None None)
     = true.
Proof.
  split; [reflexivity|].
  apply (allowlist_match_monotone ["user:OU_A"] ["ou_b"] "ou_a" None None). reflexivity.
Defined.

Lemma normalize_toLowerCase (x : string) :
  normalizeFeishuAllowEntry (JS.toLowerCase x) = normalizeFeishuAllowEntry x.
Proof.
  unfold normalizeFeishuAllowEntry. now rewrite trim_toLowerCase, toLowerCase_idem.
Qed.

(** X3: every entry of a normalised allow-list is non-empty, in lower case
    and free of trailing white space, the list is no longer than the
    configured one, and an entry normalises to the same value whatever its
    letter case. *)
Theorem normalized_allowlist_shape (values : option (list string)) :
  Forall (fun e => e <> "" /\ JS.toLowerCase e = e /\ JS.trimEnd e = e)
    (normalizeFeishuAllowlist values)
  /\ (List.length (normalizeFeishuAllowlist values) <= List.length (default [] values))%nat
  /\ normalizeFeishuAllowlist (List.map JS.toLowerCase <$> values)
     = normalizeFeishuAllowlist values.
Proof.
  unfold normalizeFeishuAllowlist. split; [|split].
  - apply List.Forall_forall. intros e He. apply List.filter_In in He as [Hin Ht].
    apply List.in_map_iff in Hin as (x & <- & _).
    split; [now apply truthy_nonempty|].
    split; [apply normalize_lower_case|apply normalize_no_trailing_space].
  - etransitivity; [apply List.filter_length_le|]. now rewrite List.length_map.
  - destruct values as [l|]; [|reflexivity]. cbn. f_equal.
    rewrite List.map_map. apply List.map_ext. intros x. apply normalize_toLowerCase.
Qed.

(** X4: a sender approved in the pairing store, or listed in the
    configured [allowFrom], is on the effective DM allow-list: it is enough
    that an entry, normalised when the list is built and again by the
    matcher, equals the normalised sender id. *)
Theorem listed_sender_is_dm_allowed account storeAllowFrom senderIds e :
  In e (default [] (cfg_allowFrom (config account))) \/ In e storeAllowFrom ->
  normalizeFeishuAllowEntry (normalizeFeishuAllowEntry e)
  = normalizeFeishuAllowEntry (senderId senderIds) ->
  normalizeFeishuAllowEntry (senderId senderIds) <> "" ->
  dmAllowed account storeAllowFrom senderIds = true.
Proof.
  intros Hin Heq Hne. unfold dmAllowed. rewrite allowlist_match_decision. cbv zeta.
  apply orb_true_iff; left. apply orb_true_iff; left. apply orb_true_iff; right.
  apply andb_true_iff. split; [now apply truthy_nonempty|]. apply includes_In.
  assert (normalizeFeishuAllowEntry e <> "") as Hne1.
  { intros E. rewrite E in Heq. now apply Hne. }
  assert (In (normalizeFeishuAllowEntry e) (effectiveAllowFromOf account storeAllowFrom)) as Hin1.
  { unfold effectiveAllowFromOf. rewrite effective_lists_filtered.
    unfold normalizeFeishuAllowlist. apply List.in_or_app.
    destruct Hin as [H|H]; [left|right]; apply List.filter_In;
      (split; [now apply List.in_map|now apply truthy_nonempty]). }
  unfold normalizeFeishuAllowlist. cbn [default from_option id].
  apply List.filter_In. split.
  - rewrite <- Heq. now apply List.in_map.
  - now apply truthy_nonempty.
Qed.

Lemma listed_sender_is_dm_allowed_witness :
  let account := accountOf None None None None None in
  let ids := {| senderId := "ou_alice"; senderOpenId := Some "ou_alice";
                senderUserId := None |} in
  In "Feishu:User:OU_ALICE" ["Feishu:User:OU_ALICE"]
  /\ dmAllowed account ["Feishu:User:OU_ALICE"] ids = true.
Proof.
  cbv zeta. split; [now left|].
  apply (listed_sender_is_dm_allowed (accountOf None None None None None)
           ["Feishu:User:OU_ALICE"]
           {| senderId := "ou_alice"; senderOpenId := Some "ou_alice";
              senderUserId := None |} "Feishu:User:OU_ALICE").
  - right. now left.
  - reflexivity.
  - discriminate.
Defined.

(** ** The router's helpers *)

Lemma orElse_Some (a b : option string) (s : string) :
  JS.orElse a b = Some s ->
  (a = Some s /\ s <> "") \/ ((a = None \/ a = Some "") /\ b = Some s).
Proof.
  destruct a as [[|c r]|]; cbn; intros H; auto.
  injection H as <-. left. split; [reflexivity|discriminate].
Qed.



(** X6: [wasMentionedByFeishu] is false without mentions; with mentions
    and no usable [botOpenId] any mention counts; otherwise it holds exactly
    when some mention carries the bot's [open_id], both trimmed. *)
Theorem native_mention_detection (m : FeishuMessage) (bot : option string) :
  (default [] (mentions m) = [] -> wasMentionedByFeishu m bot = false)
  /\ (default [] (mentions m) <> [] -> JS.trim (default "" bot) = "" ->
      wasMentionedByFeishu m bot = true)
  /\ (default [] (mentions m) <> [] -> JS.trim (default "" bot) <> "" ->
      (wasMentionedByFeishu m bot = true
       <-> exists mention, In mention (default [] (mentions m))
             /\ JS.trim <$> (mention_id mention ≫= open_id) = Some (JS.trim (default "" bot)))).
Proof.
  unfold wasMentionedByFeishu. destruct (default [] (mentions m)) as [|x l] eqn:E.
  { split; [reflexivity|]. split; congruence. }
  cbn [List.length Nat.eqb]. split; [discriminate|].
  destruct bot as [[|c r]|]; cbn [JS.orElse JS.truthy default from_option id].
  - split; [reflexivity|]. intros _ H. now contradiction H.
  - split.
    + intros _ Hb. now rewrite Hb.
    + intros _ Hb. destruct (JS.trim (String c r)) eqn:Et; [congruence|].
      cbn [JS.truthy negb]. rewrite existsb_exists. split.
      * intros (mention & Hin & Hd). apply bool_decide_eq_true_1 in Hd. eauto.
      * intros (mention & Hin & Hd). exists mention. split; [assumption|].
        now apply bool_decide_eq_true_2.
  - split; [reflexivity|]. intros _ H. now contradiction H.
Qed.

Lemma native_mention_detection_witness :
  let mention :=
    {| mention_id := Some {| open_id := Some " ou_bot"; user_id := None; union_id := None |};
       mention_name := None; mention_key := None |} in
  let m :=
    {| message_id := None; msg_create_time := None; chat_id := None; chat_type := None;
       message_type := None; content := None; mentions := Some [mention];
       msg_chatId := None; msg_chatType := None |} in
  default [] (mentions m) <> [] /\ JS.trim (default "" (Some "ou_bot ")) <> ""
  /\ wasMentionedByFeishu m (Some "ou_bot ") = true.
Proof.
  cbv zeta. split; [discriminate|]. split; [discriminate|].
  match goal with |- wasMentionedByFeishu ?m ?b = true =>
    destruct (native_mention_detection m b) as (_ & _ & H) end.
  apply H; [discriminate|discriminate|].
  eexists. split; [now left|reflexivity].
Defined.




(** ** The connection supervisor, continued *)

Section SupervisorMore.
Context `{engine : NumberEngine}.

Ltac supervisor_cases :=
  repeat match goal with
         | |- context [if ?b then _ else _] => destruct b eqn:?
         | |- context [match ?x with _ => _ end] => destruct x eqn:?
         end.

Lemma requestRestart_stopped clk why s :
  stopped s = true -> requestRestart clk why s = s.
Proof. intros H. unfold requestRestart, shutDown. now rewrite H. Qed.

Lemma step_keeps_stopped cfg clk e s :
  stopped s = true ->
  stopped (step cfg clk e s) = true
  /\ restartsStarted (step cfg clk e s) = restartsStarted s
  /\ (List.length (restarts (step cfg clk e s)) <= List.length (restarts s))%nat
  /\ (wsClient s = None -> wsClient (step cfg clk e s) = None)
  /\ (connected s = false -> connected (step cfg clk e s) = false).
Proof.
  intros Hs.
  destruct e as [started| | | | |why|i started]; cbn [step].
  - unfold startupSettled, ensureWatchdog, stop.
    supervisor_cases; cbn in *; rewrite ?Hs in *; try discriminate; auto with arith.
  - unfold watchdogTick, shutDown. rewrite Hs. cbn. now destruct (watchdogTimer s).
  - unfold onInbound, shutDown. rewrite Hs. cbn. auto.
  - unfold stop. destruct (aborted s); cbn; rewrite ?Hs; auto.
  - unfold stop. rewrite Hs. auto.
  - rewrite (requestRestart_stopped _ _ _ Hs). auto.
  - unfold resumeRestart. destruct (restarts s !! i) as [r|] eqn:Hi; [|auto].
    assert (forall st x, List.length (<[i := set_stage st r]> x) = List.length x) as Hlen
      by (intros; apply length_insert).
    unfold shutDown. rewrite Hs. cbn [orb].
    destruct (stage r).
    + cbn. rewrite Hlen. auto.
    + destruct (aborted s); cbn; rewrite Hlen; auto.
    + destruct started; cbn; rewrite Hlen; unfold restartsStarted, countIf; cbn;
        rewrite ?List.filter_app, ?List.length_app; cbn; repeat split; auto; lia.
    + unfold settleRestart. cbn.
      assert (List.length (delete i (restarts s)) <= List.length (restarts s))%nat as Hdel.
      { rewrite length_delete by eauto. lia. }
      destruct (restartQueued s); [rewrite requestRestart_stopped by exact Hs|]; cbn; auto.
Qed.

Lemma reachable_stopped_disconnected cfg s :
  reachable cfg s -> stopped s = true -> wsClient s = None /\ connected s = false.
Proof.
  induction 1 as [alreadyAborted clk|clk e s _ IH].
  - unfold monitorFeishuProvider, startWsClient.
    destruct (negb (hasStart (createWsClient cfg))); discriminate.
  - destruct (stopped s) eqn:Hs.
    + intros _. destruct (IH eq_refl) as [Hc Hn].
      destruct (step_keeps_stopped cfg clk e s Hs) as (_ & _ & _ & H1 & H2). auto.
    + destruct e as [started| | | | |why|i started]; cbn [step].
      * unfold startupSettled, ensureWatchdog, stop.
        supervisor_cases; cbn in *; rewrite ?Hs in *; intros; try discriminate; auto.
      * unfold watchdogTick, requestRestart.
        supervisor_cases; cbn; rewrite ?Hs; discriminate.
      * unfold onInbound. supervisor_cases; cbn; rewrite ?Hs; discriminate.
      * unfold stop. supervisor_cases; cbn in *; rewrite ?Hs in *; intros;
          try discriminate; auto.
      * unfold stop. rewrite Hs. cbn. auto.
      * unfold requestRestart. supervisor_cases; cbn; rewrite ?Hs; discriminate.
      * unfold resumeRestart, settleRestart, requestRestart, startWsClient.
        supervisor_cases; cbn in *; rewrite ?Hs in *; discriminate.
Qed.

(** X9: shutdown is terminal. In every reachable state in which the
    supervisor is stopped it holds no client and reports itself
    disconnected, and whatever happens afterwards it stays stopped, opens
    no client, starts no restart and its pending restarts only run out. *)
Theorem shutdown_is_terminal cfg s events :
  reachable cfg s -> stopped s = true ->
  wsClient s = None /\ connected s = false
  /\ let s' := run cfg events s in
     stopped s' = true /\ wsClient s' = None /\ connected s' = false
     /\ restartsStarted s' = restartsStarted s
     /\ (List.length (restarts s') <= List.length (restarts s))%nat.
Proof.
  intros Hreach Hs.
  destruct (reachable_stopped_disconnected cfg s Hreach Hs) as [Hc Hn].
  split; [exact Hc|]. split; [exact Hn|]. cbv zeta.
  clear Hreach. revert s Hs Hc Hn.
  induction events as [|[clk e] events IH]; intros s Hs Hc Hn; cbn [run].
  - auto.
  - destruct (step_keeps_stopped cfg clk e s Hs) as (H1 & H2 & H3 & H4 & H5).
    destruct (IH (step cfg clk e s) H1 (H4 Hc) (H5 Hn)) as (I1 & I2 & I3 & I4 & I5).
    repeat split; try assumption; lia.
Qed.

Lemma requestRestart_queued clk why s :
  (restartQueued s = true -> restartInFlight s = true) ->
  restartQueued (requestRestart clk why s) = true ->
  restartInFlight (requestRestart clk why s) = true.
Proof.
  unfold requestRestart. destruct (shutDown s); [auto|].
  destruct (restartInFlight s) eqn:E; cbn; auto.
Qed.

(** X10: a queued restart request is never stranded: in every reachable
    state in which the queued flag is set, a restart is in flight to pick it
    up when it completes. *)
Theorem queued_restart_has_carrier cfg s :
  reachable cfg s -> restartQueued s = true ->
  restartInFlight s = true /\ exists r, restarts s = [r].
Proof.
  intros Hreach Hq.
  assert (restartInFlight s = true) as Hfl.
  { revert Hq. induction Hreach as [alreadyAborted clk|clk e s Hreach IH].
    - unfold monitorFeishuProvider, startWsClient.
      destruct (negb (hasStart (createWsClient cfg))); discriminate.
    - pose proof (reachable_oneRestart cfg s Hreach) as Hone.
      destruct e as [started| | | | |why|i started]; cbn [step].
      + unfold startupSettled, ensureWatchdog, stop.
        supervisor_cases; cbn; auto.
      + destruct (watchdogTimer s); [|exact IH]. unfold watchdogTick.
        destruct (shutDown s); [exact IH|]. destruct (_ <? _)%Z; [exact IH|].
        apply requestRestart_queued. exact IH.
      + unfold onInbound. destruct (shutDown s); exact IH.
      + unfold stop. supervisor_cases; cbn; auto.
      + unfold stop. supervisor_cases; cbn; auto.
      + apply requestRestart_queued. exact IH.
      + unfold resumeRestart. destruct (restarts s !! i) as [r|] eqn:Hi; [|exact IH].
        assert (restartInFlight s = true) as Hfl.
        { destruct Hone as [[Hr _]|(r0 & _ & H)]; [now rewrite Hr in Hi|exact H]. }
        destruct (stage r).
        * cbn. auto.
        * unfold startWsClient. supervisor_cases; cbn; auto.
        * destruct started; cbn; auto.
        * unfold settleRestart. cbn. destruct (restartQueued s) eqn:Eq.
          -- apply requestRestart_queued. cbn. discriminate.
          -- cbn. rewrite ?Eq. discriminate. }
  split; [exact Hfl|].
  destruct (reachable_oneRestart cfg s Hreach) as [[_ H]|(r & Hr & _)]; [congruence|eauto].
Qed.

(** X11: an inbound event, and a restart whose connection attempt
    succeeds, set [lastInboundAt] to the current time (the restart also
    resets the attempt counter), so that no tick earlier than the idle
    timeout after it requests a restart. *)
Theorem activity_silences_watchdog cfg clk s :
  (shutDown s = false ->
   let s1 := step cfg clk InboundEvent s in
   lastInboundAt s1 = clock_now clk
   /\ forall clk2, (clock_now clk2 - clock_now clk < idleTimeoutSeconds cfg * 1000)%Z ->
        step cfg clk2 WatchdogTick s1 = s1)
  /\ (forall r, restarts s = [r] -> stage r = AwaitStart ->
      let s1 := step cfg clk (RestartResumed 0 true) s in
      lastInboundAt s1 = clock_now clk /\ reconnectAttempts s1 = 0%Z
      /\ forall clk2, (clock_now clk2 - clock_now clk < idleTimeoutSeconds cfg * 1000)%Z ->
           step cfg clk2 WatchdogTick s1 = s1).
Proof.
  split.
  - intros Hup. cbv zeta. cbn [step]. unfold onInbound. rewrite Hup.
    split; [reflexivity|]. intros clk2 Hlt. cbn [watchdogTimer set_lastInboundAt].
    destruct (watchdogTimer s); [|reflexivity]. unfold watchdogTick.
    destruct (shutDown _); [reflexivity|]. cbn [lastInboundAt set_lastInboundAt].
    apply Z.ltb_lt in Hlt. now rewrite Hlt.
  - intros r Hr Hst. cbv zeta. cbn [step]. unfold resumeRestart.
    rewrite Hr. cbn [lookup list_lookup]. rewrite Hst.
    split; [reflexivity|]. split; [reflexivity|]. intros clk2 Hlt.
    match goal with |- (if watchdogTimer ?x then _ else _) = _ =>
      destruct (watchdogTimer x); [|reflexivity] end.
    unfold watchdogTick. destruct (shutDown _); [reflexivity|].
    cbn [lastInboundAt set_lastInboundAt set_restarts set_reconnectAttempts].
    apply Z.ltb_lt in Hlt. now rewrite Hlt.
Qed.

End SupervisorMore.

Section SupervisorMoreRuns.
#[local] Existing Instance productEngine.

Lemma shutdown_is_terminal_witness :
  reachable minuteConfig abortedDuringStartup /\ stopped abortedDuringStartup = true
  /\ let s' := run minuteConfig
                 [(atTime 70000, WatchdogTick); (atTime 70001, RestartTrigger "error");
                  (atTime 70002, InboundEvent)] abortedDuringStartup in
     stopped s' = true /\ wsClient s' = None /\ restartsStarted s' = 0%nat.
Proof.
  assert (reachable minuteConfig abortedDuringStartup) as Hreach
    by (apply reachable_run; constructor).
  split; [exact Hreach|]. split; [reflexivity|].
  destruct (shutdown_is_terminal minuteConfig abortedDuringStartup
              [(atTime 70000, WatchdogTick); (atTime 70001, RestartTrigger "error");
               (atTime 70002, InboundEvent)] Hreach eq_refl) as (_ & _ & H1 & H2 & _ & H4 & _).
  cbv zeta. split; [exact H1|]. split; [exact H2|]. rewrite H4. reflexivity.
Defined.

Lemma queued_restart_has_carrier_witness :
  reachable minuteConfig racingTriggers /\ restartQueued racingTriggers = true
  /\ restartInFlight racingTriggers = true.
Proof.
  assert (reachable minuteConfig racingTriggers) as Hreach
    by (apply reachable_run; constructor).
  split; [exact Hreach|]. split; [reflexivity|].
  apply (queued_restart_has_carrier minuteConfig racingTriggers Hreach eq_refl).
Defined.

Lemma activity_silences_watchdog_witness :
  shutDown connectedAndSilent = false
  /\ (59999 - 0 < idleTimeoutSeconds minuteConfig * 1000)%Z
  /\ let s1 := step minuteConfig (atTime 30000) InboundEvent connectedAndSilent in
     step minuteConfig (atTime 89999) WatchdogTick s1 = s1.
Proof.
  split; [reflexivity|]. split; [reflexivity|].
  destruct (activity_silences_watchdog minuteConfig (atTime 30000) connectedAndSilent)
    as [H _].
  destruct (H eq_refl) as [_ Hq]. apply (Hq (atTime 89999)). reflexivity.
Defined.

End SupervisorMoreRuns.

(** ** The reply status *)

Lemma orElse_Some_None (v : string) :
  JS.orElse (Some v) None = if JS.truthy v then Some v else None.
Proof. now destruct v. Qed.

Ltac status_simpl :=
  cbn [replyStatusReactionId replyStatusReactionPromise replyStatusCleared clearAwaiting
       replyStatusTextSent statusCalls default from_option JS.orElse JS.truthy andb app].

Ltac status_close :=
  status_simpl;
  try (exfalso; intuition (discriminate || congruence); fail);
  repeat split; try reflexivity; try discriminate; try tauto; try congruence;
  intuition (discriminate || congruence).

Lemma statusStep_inv c e s : statusInv c s -> statusInv c (statusStep c e s).
Proof.
  unfold statusInv, expectedStatusCalls, statusStep, ensureReplyStatusReaction,
    clearReplyStatusReactionOnce, reactionSettled, deleteStatusReaction,
    ensureReplyStatusText, statusCall, replyStatusText.
  destruct s as [rid promise cleared awaiting sent calls]. status_simpl.
  intros (Hcalls & Htext & Hp & Hid & Haw & Hcr). subst calls rid.
  destruct (replyStatusReaction c) as [emoji|];
    destruct (inboundMessageId c) as [mid|];
    destruct (JS.orElse (JS.trim <$> cfg_replyStatusText c) None) as [text|];
    destruct promise as [| |[v'|]];
    try (exfalso; intuition (discriminate || congruence); fail);
    rewrite ?orElse_Some_None;
    try (destruct (JS.truthy v') eqn:Hv').
  all: destruct e as [| |result].
  all: first
    [ (* the promise settles *)
      match goal with result : option (option string) |- _ =>
        destruct awaiting; try (exfalso; intuition (discriminate || congruence); fail);
        destruct result as [[v|]|]; rewrite ?orElse_Some_None;
        try (destruct (JS.truthy v) eqn:Hv); destruct cleared;
        try (exfalso; intuition (discriminate || congruence); fail);
        status_simpl; rewrite ?Hv; status_close; fail
      end
    | (* a reply start *)
      destruct sent; status_close; fail
    | (* a clear request *)
      destruct cleared; status_simpl; rewrite ?Hv'; status_close; fail
    | destruct cleared, sent; status_simpl; rewrite ?Hv'; status_close; fail
    | try (destruct result as [[v|]|]); rewrite ?orElse_Some_None;
      try (destruct (JS.truthy v) eqn:Hv); destruct cleared, awaiting, sent;
      status_simpl; rewrite ?Hv, ?Hv'; status_close ].
Qed.

Lemma statusStart_inv c : statusInv c (statusStart c).
Proof.
  unfold statusInv, expectedStatusCalls, statusStart, statusStep, ensureReplyStatusReaction,
    ensureReplyStatusText, statusCall, replyStatusText.
  destruct (replyStatusReaction c) as [emoji|];
    destruct (inboundMessageId c) as [mid|];
    destruct (JS.orElse (JS.trim <$> cfg_replyStatusText c) None) as [text|];
    cbn; intuition (discriminate || congruence).
Qed.

Lemma statusRun_inv c events s : statusInv c s -> statusInv c (statusRun c events s).
Proof.
  revert s. induction events as [|e events IH]; intros s H; [exact H|].
  cbn [statusRun]. apply IH. now apply statusStep_inv.
Qed.

Lemma statusRun_cleared c events s :
  replyStatusReaction c <> None ->
  replyStatusCleared s = true \/ In ClearRequested events ->
  replyStatusCleared (statusRun c events s) = true.
Proof.
  intros Hc. revert s. induction events as [|e events IH]; intros s [H|H];
    cbn [statusRun]; try exact H; try (now destruct H).
  - apply IH. left. unfold statusStep, ensureReplyStatusReaction, clearReplyStatusReactionOnce,
      reactionSettled, deleteStatusReaction, ensureReplyStatusText, statusCall.
    rewrite H.
    destruct e; destruct (replyStatusReaction c); try congruence;
      repeat match goal with
             | |- context [match ?x with _ => _ end] => destruct x
             end; cbn; auto.
  - destruct H as [->|H]; [|apply IH; now right].
    apply IH. left. unfold statusStep, clearReplyStatusReactionOnce, deleteStatusReaction,
      statusCall.
    destruct (replyStatusReaction c); [|congruence].
    repeat match goal with
           | |- context [match ?x with _ => _ end] => destruct x eqn:?
           | |- context [if ?x then _ else _] => destruct x eqn:?
           end; cbn; auto.
Qed.

(** X27: the status of a reply is shown and taken back at most once. Over
    any sequence of reply starts, clear requests and settlements of the
    reaction call, the closures of one inbound message make no call at
    all, or send the status text once, or add the reaction once and then
    delete it at most once, and the reaction they delete is the one the
    add call resolved with. The reaction is asked for first thing when one
    is configured and the message has an id; and once a clear has been
    requested and the add call has resolved with a reaction id, the delete
    call has been made. *)
Theorem reply_status_once c events :
  let s := statusRun c events (statusStart c) in
  (statusCalls s = []
   \/ (exists text, replyStatusText c = Some text /\ replyStatusReaction c = None
                    /\ statusCalls s = [SendStatusText text])
   \/ (exists messageId emoji,
         inboundMessageId c = Some messageId /\ replyStatusReaction c = Some emoji
         /\ (statusCalls s = [AddReaction messageId emoji]
             \/ exists reaction,
                  reaction <> ""
                  /\ replyStatusReactionPromise s = PromiseSettled (Some reaction)
                  /\ statusCalls s
                     = [AddReaction messageId emoji; DeleteReaction messageId reaction])))
  /\ (forall messageId emoji,
        inboundMessageId c = Some messageId -> replyStatusReaction c = Some emoji ->
        head (statusCalls s) = Some (AddReaction messageId emoji))
  /\ (forall reaction,
        In ClearRequested events ->
        replyStatusReactionPromise s = PromiseSettled (Some reaction) -> reaction <> "" ->
        exists messageId, In (DeleteReaction messageId reaction) (statusCalls s)).
Proof.
  cbv zeta.
  pose proof (statusRun_inv c events _ (statusStart_inv c)) as Hinv.
  assert (replyStatusReaction c <> None -> In ClearRequested events ->
          replyStatusCleared (statusRun c events (statusStart c)) = true) as Hcleared
    by (intros; apply statusRun_cleared; auto).
  destruct (statusRun c events (statusStart c)) as [rid promise cleared awaiting sent calls].
  unfold statusInv, expectedStatusCalls, replyStatusText in *.
  cbn [replyStatusReactionId replyStatusReactionPromise replyStatusCleared clearAwaiting
       replyStatusTextSent statusCalls] in *.
  destruct Hinv as (-> & Htext & Hp & Hid & Haw & Hcr).
  destruct (replyStatusReaction c) as [emoji|] eqn:Hreaction;
    destruct (inboundMessageId c) as [mid|] eqn:Hmid.
  - assert (promise <> NoPromise) as Hcreated by (intros H; apply Hp in H; intuition congruence).
    assert (sent = false) as -> by (destruct sent; [exfalso; now apply Htext|reflexivity]).
    cbn [app default from_option]. split; [|split].
    + right. right. exists mid, emoji. repeat split.
      destruct promise as [| |[reaction|]]; try congruence; try (left; reflexivity).
      destruct (cleared && JS.truthy reaction) eqn:E; [|left; reflexivity].
      right. exists reaction. apply andb_true_iff in E. destruct E as [_ E].
      apply truthy_nonempty in E. repeat split; auto.
    + intros ? ? [= <-] [= <-]. destruct promise; [congruence|reflexivity|reflexivity].
    + intros reaction Hin -> Hne. exists mid.
      rewrite Hcleared by (congruence || assumption).
      apply truthy_nonempty in Hne. rewrite Hne. cbn. auto.
  - assert (promise = NoPromise) as -> by (apply Hp; now right).
    assert (sent = false) as -> by (destruct sent; [exfalso; now apply Htext|reflexivity]).
    cbn. split; [now left|]. split; [discriminate|]. discriminate.
  - assert (promise = NoPromise) as -> by (apply Hp; now left).
    cbn [app default from_option]. split; [|split; [discriminate|discriminate]].
    destruct sent; [|now left]. right. left.
    destruct (JS.orElse (JS.trim <$> cfg_replyStatusText c) None) as [text|];
      [|exfalso; now apply Htext].
    exists text. repeat split.
  - assert (promise = NoPromise) as -> by (apply Hp; now left).
    cbn [app default from_option]. split; [|split; [discriminate|discriminate]].
    destruct sent; [|now left]. right. left.
    destruct (JS.orElse (JS.trim <$> cfg_replyStatusText c) None) as [text|];
      [|exfalso; now apply Htext].
    exists text. repeat split.
Qed.

(** ** The handler, whatever the event *)

Section HandlerOutcome.
Context `{sdk : PluginSdk} `{core : CoreRuntime} `{store : PairingStore}.

Lemma performStatusCalls_spec account chatId calls (w : World) :
  performStatusCalls account chatId calls w
  = ({| pairingStore := pairingStore w;
        effects := (effects w ++ map (statusEffect chatId) calls)%list |}, Some tt).
Proof.
  revert w. induction calls as [|call calls IH]; intros w.
  - cbn. rewrite app_nil_r. now destruct w.
  - cbn [performStatusCalls map]. unfold andThen at 1.
    assert ((match call with
             | AddReaction messageId emojiType => emit (AddReactionFeishu messageId emojiType)
             | DeleteReaction messageId reactionId =>
                 emit (DeleteReactionFeishu messageId reactionId)
             | SendStatusText text =>
                 andThen (sendTextFeishu account chatId text) (fun _ => ret tt)
             end) w
            = ({| pairingStore := pairingStore w;
                  effects := (effects w ++ [statusEffect chatId call])%list |}, Some tt)) as ->.
    { destruct call; try reflexivity.
      unfold sendTextFeishu, andThen, emit, ret. cbn.
      destruct (negb (configured account)); [reflexivity|].
      destruct (negb (JS.truthy (JS.trim text))); reflexivity. }
    rewrite IH. cbn [pairingStore effects]. now rewrite <- app_assoc.
Qed.

(** The status closures once the handler has asked for the status. *)
Lemma statusStart_calls chatId c :
  map (statusEffect chatId) (statusCalls (statusStart c)) = statusRequest chatId c
  /\ replyStatusTextSent (statusStart c)
     = match replyStatusText c with Some _ => true | None => false end
  /\ replyStatusReactionPromise (statusStart c)
     = match replyStatusReaction c, inboundMessageId c with
       | Some _, Some _ => PromisePending
       | _, _ => NoPromise
       end.
Proof.
  unfold statusStart, statusStep, statusRequest, ensureReplyStatusReaction,
    ensureReplyStatusText, statusCall, replyStatusText.
  destruct (replyStatusReaction c) as [emoji|];
    destruct (inboundMessageId c) as [mid|];
    destruct (JS.orElse (JS.trim <$> cfg_replyStatusText c) None) as [text|];
    cbn; repeat split; reflexivity.
Qed.

Lemma statusStep_kept c result e s :
  (forall r, e = ReactionSettled r -> r = result) ->
  statusKept c (settledValue result) s -> statusKept c (settledValue result) (statusStep c e s).
Proof.
  intros He [Hsent Hval]. unfold statusKept in *.
  assert (forall s', replyStatusTextSent s' = replyStatusTextSent s ->
                     replyStatusReactionPromise s' = replyStatusReactionPromise s ->
                     replyStatusTextSent s'
                     = match replyStatusText c with Some _ => true | None => false end
                     /\ (forall v, replyStatusReactionPromise s' = PromiseSettled v ->
                                   v = settledValue result)) as Hsame.
  { intros s' -> ->. split; assumption. }
  destruct e as [| |r].
  - unfold statusStep, ensureReplyStatusReaction, ensureReplyStatusText, statusCall.
    destruct (replyStatusReaction c) as [emoji|] eqn:Hr.
    + destruct (inboundMessageId c); [|now apply Hsame].
      destruct (JS.orElse (replyStatusReactionId s) None); [now apply Hsame|].
      destruct (replyStatusReactionPromise s) eqn:Hp; try (now apply Hsame).
      cbn. split; [assumption|discriminate].
    + destruct (replyStatusText c) as [text|] eqn:Ht; [|now apply Hsame].
      destruct (replyStatusTextSent s) eqn:Hs; [now apply Hsame|].
      cbn. split; [reflexivity|assumption].
  - unfold statusStep, clearReplyStatusReactionOnce, deleteStatusReaction, statusCall.
    destruct (replyStatusReaction c); [|now apply Hsame].
    destruct (replyStatusCleared s); [now apply Hsame|].
    destruct (replyStatusReactionId s) as [rid|].
    + destruct (JS.orElse (Some rid) None); [destruct (inboundMessageId c)|];
        now apply Hsame.
    + destruct (replyStatusReactionPromise s) as [| |v] eqn:Hp;
        try (apply Hsame; [reflexivity|cbn; rewrite ?Hp; reflexivity]).
      destruct (JS.orElse v None); [destruct (inboundMessageId c)|];
        (apply Hsame; [reflexivity|cbn; rewrite ?Hp; reflexivity]).
  - rewrite (He r eq_refl). unfold statusStep, reactionSettled, deleteStatusReaction, statusCall.
    destruct (replyStatusReactionPromise s) eqn:Hp;
      try (apply Hsame; [reflexivity|cbn; rewrite ?Hp; reflexivity]).
    destruct (clearAwaiting s).
    + destruct (JS.orElse _ None); [destruct (inboundMessageId c)|]; cbn;
        (split; [assumption|intros v [= <-]; reflexivity]).
    + cbn. split; [assumption|intros v [= <-]; reflexivity].
Qed.

Lemma statusRun_kept c result events s :
  statusKept c (settledValue result) s ->
  statusKept c (settledValue result)
    (statusRun c (map (fun e => match e with
                                | OnReplyStart => ReplyStart
                                | OnBeforeSend | OnReplyError => ClearRequested
                                | AddReactionSettles => ReactionSettled result
                                end) events) s).
Proof.
  revert s. induction events as [|e events IH]; intros s H; [exact H|].
  cbn [map statusRun]. apply IH. apply statusStep_kept; [|exact H].
  intros r Hr. destruct e; congruence.
Qed.


Lemma statusKept_start c value : statusKept c value (statusStart c).
Proof.
  destruct (statusStart_calls "" c) as (_ & Hsent & Hp). split; [exact Hsent|].
  intros v Hv. rewrite Hp in Hv.
  destruct (replyStatusReaction c); [destruct (inboundMessageId c)|]; discriminate.
Qed.

(** The closures in the end: the reaction, if one is configured, has
    been cleared and the call that adds it has settled. *)
Lemma statusAfterDispatch_facts c ctx :
  let result :=
    addReactionFeishu (default "" (inboundMessageId c)) (default "" (replyStatusReaction c)) in
  let s := statusAfterDispatch c ctx in
  statusInv c s
  /\ statusKept c (settledValue result) s
  /\ (replyStatusReaction c <> None ->
      replyStatusCleared s = true /\ replyStatusReactionPromise s <> PromisePending).
Proof.
  cbv zeta. unfold statusAfterDispatch.
  set (result := addReactionFeishu _ _).
  set (dispatched := statusRun c _ (statusStart c)).
  assert (statusInv c dispatched) as Hinv_d
    by (apply statusRun_inv, statusStart_inv).
  assert (statusKept c (settledValue result) dispatched) as Hkept_d.
  { apply (statusRun_kept c result (dispatchEvents ctx)). apply statusKept_start. }
  set (cleared := statusStep c ClearRequested dispatched).
  assert (statusInv c cleared) as Hinv_c by (now apply statusStep_inv).
  assert (statusKept c (settledValue result) cleared) as Hkept_c
    by (apply statusStep_kept; [discriminate|exact Hkept_d]).
  assert (replyStatusReaction c <> None -> replyStatusCleared cleared = true) as Hcl.
  { intros Hr. apply (statusRun_cleared c [ClearRequested] dispatched Hr). right. now left. }
  destruct (clearAwaiting cleared) eqn:Haw.
  - split; [now apply statusStep_inv|]. split.
    + apply statusStep_kept; [|exact Hkept_c]. unfold statusEventOf. now intros r [= <-].
    + intros Hr. split.
      * apply (statusRun_cleared c [statusEventOf c AddReactionSettles] cleared Hr).
        left. now apply Hcl.
      * destruct Hinv_c as (_ & _ & _ & _ & Hawait & _).
        apply Hawait in Haw. destruct Haw as [_ Hp].
        unfold statusEventOf, statusStep, reactionSettled, deleteStatusReaction, statusCall.
        rewrite Hp. destruct (clearAwaiting cleared).
        -- destruct (JS.orElse _ None); [destruct (inboundMessageId c)|]; cbn; discriminate.
        -- cbn. discriminate.
  - split; [exact Hinv_c|]. split; [exact Hkept_c|].
    intros Hr. split; [now apply Hcl|].
    intros Hp. destruct Hinv_c as (_ & _ & _ & _ & Hawait & _).
    assert (clearAwaiting cleared = true) as H by (apply Hawait; split; [now apply Hcl|exact Hp]).
    congruence.
Qed.

(** What the handler takes back, whatever happened during the dispatch. *)
Lemma statusAfterDispatch_calls chatId c ctx :
  map (statusEffect chatId)
    (skipn (List.length (statusCalls (statusStart c))) (statusCalls (statusAfterDispatch c ctx)))
  = statusCleanup c.
Proof.
  destruct (statusAfterDispatch_facts c ctx) as (Hinv & [Hsent Hval] & Hdone).
  cbv zeta in Hval.
  pose proof (statusStart_inv c) as (Hcalls0 & _).
  destruct (statusStart_calls chatId c) as (_ & Hsent0 & Hp0).
  rewrite Hcalls0. unfold expectedStatusCalls at 1. rewrite Hsent0, Hp0.
  destruct Hinv as (-> & _ & Hp & _ & _ & _).
  unfold expectedStatusCalls, statusCleanup. rewrite Hsent.
  destruct (statusAfterDispatch c ctx) as [rid promise cleared awaiting sent calls].
  cbn [replyStatusReactionId replyStatusReactionPromise replyStatusCleared clearAwaiting
       replyStatusTextSent statusCalls] in *.
  unfold replyStatusText in *.
  destruct (replyStatusReaction c) as [emoji|] eqn:Hreaction.
  - destruct (Hdone ltac:(discriminate)) as [-> Hnp].
    destruct (inboundMessageId c) as [mid|] eqn:Hmid.
    + destruct promise as [| |v];
        [exfalso; destruct (proj1 Hp eq_refl); congruence|congruence|].
      rewrite (Hval v eq_refl). unfold settledValue.
      change (default "" (Some mid)) with mid. change (default "" (Some emoji)) with emoji.
      destruct (addReactionFeishu mid emoji) as [[r|]|]; cbn; try reflexivity.
      destruct (JS.truthy r); reflexivity.
    + assert (promise = NoPromise) as -> by (apply Hp; now right). reflexivity.
  - assert (promise = NoPromise) as -> by (apply Hp; now left).
    destruct (JS.orElse (JS.trim <$> cfg_replyStatusText c) None); reflexivity.
Qed.

Lemma dispatchWithStatus_spec account chatId message ctx (w : World) :
  dispatchWithStatus account chatId message ctx w
  = ({| pairingStore := pairingStore w;
        effects :=
          (effects w
           ++ RecordInboundSession ctx
              :: statusRequest chatId (replyStatusSettings account message)
           ++ DispatchReply ctx
              :: statusCleanup (replyStatusSettings account message))%list |}, Some tt).
Proof.
  unfold dispatchWithStatus. cbv zeta.
  unfold andThen at 1. unfold emit at 1. cbn [pairingStore effects].
  unfold andThen at 1. rewrite performStatusCalls_spec. cbn [pairingStore effects].
  unfold andThen at 1. unfold emit at 1. cbn [pairingStore effects].
  rewrite performStatusCalls_spec. cbn [pairingStore effects].
  destruct (statusStart_calls chatId (replyStatusSettings account message)) as (-> & _).
  rewrite statusAfterDispatch_calls.
  rewrite <- !app_assoc. reflexivity.
Qed.

Ltac handler_steps :=
  cbv beta iota zeta delta [orReturn andThen ret emit returnIf returnEarly];
  cbn [negb andb orb pairingStore effects fst snd].

Ltac last_is_drop :=
  first [ exists []; eexists _, _; reflexivity
        | eexists [_]; eexists _, _; reflexivity
        | eexists [_; _]; eexists _, _; reflexivity
        | eexists [_; _; _]; eexists _, _; reflexivity ].

Ltac close_drop :=
  cbn [negb andb orb pairingStore effects fst snd];
  eexists; split; [rewrite <- ?app_assoc; reflexivity|];
  split; [reflexivity|];
  split; [last_is_drop|];
  split; [cbn; lia|]; auto.

Ltac close_dispatch :=
  rewrite dispatchWithStatus_spec;
  cbn [negb andb orb pairingStore effects fst snd];
  eexists; split; [rewrite <- ?app_assoc; reflexivity|];
  split; [reflexivity|];
  first [ exists []; eexists; split; [reflexivity|]; split; [left; reflexivity|];
          repeat split
        | eexists [_]; eexists; split; [reflexivity|];
          split; [right; eexists; reflexivity|]; repeat split ].

Ltac handler_tail :=
  handler_steps;
  match goal with
  | |- context [if (?a && matchedByFallback ?r) then _ else _] =>
      destruct (a && matchedByFallback r)
  end;
  close_dispatch.

(** X12: what one call of the handler can do. An event the router turns
    away leaves the world as it was. Any other event first records the
    inbound status and activity at the resolved timestamp. If the handler
    then runs to its end, the pairing store is untouched and the trace
    ends with, in this order, at most the persisting of a sender binding,
    the session record, the request for the reply status (the reaction on
    the inbound message or else the status text, when configured), the
    dispatch of the context that was recorded, and, once the call that
    added the reaction has settled, the removal of that reaction if the
    call resolved with an id, whatever happened during the dispatch; that
    context carries the routed body, sender, chat and timestamp. If it returns early, nothing was handed to
    the agent runtime, the last effect is the log line of the drop, at
    most one text was sent, and the pairing store was touched only for a
    direct message of a sender who is not on the allow-list under the
    pairing policy. *)
Theorem handler_outcome payload account cfg now storeAllowFrom (w : World) :
  let r := handleFeishuMessage payload account cfg now storeAllowFrom w in
  match routeInbound payload account with
  | None => r = (w, None)
  | Some (message, ids, chatId, body) =>
      let t := resolveTimestamp message payload now in
      let settings := replyStatusSettings account message in
      exists rest,
        effects (fst r) = (effects w ++ StatusInbound t :: ActivityInbound t :: rest)%list
        /\ match snd r with
           | Some _ =>
               pairingStore (fst r) = pairingStore w
               /\ exists pre ctx,
                    rest = (pre ++ RecordInboundSession ctx :: statusRequest chatId settings
                            ++ DispatchReply ctx :: statusCleanup settings)%list
                    /\ (pre = []
                        \/ exists agent,
                            pre = [PersistSenderBinding
                                     (default (senderId ids) (senderOpenId ids)) agent])
                    /\ ctx_RawBody ctx = body /\ ctx_SenderId ctx = senderId ids
                    /\ ctx_To ctx = String.append "feishu:" chatId
                    /\ ctx_Timestamp ctx = t
           | None =>
               countIf isDispatch rest = 0%nat
               /\ (exists init target reason,
                     rest = (init ++ [LogDrop target reason])%list)
               /\ (countIf isPairingReply rest <= 1)%nat
               /\ (pairingStore (fst r) = pairingStore w
                   \/ (chatTypeOf message = Some "p2p"
                       /\ default DmPairing (dmPolicy (config account)) = DmPairing
                       /\ dmAllowed account storeAllowFrom ids = false))
           end
  end.
Proof.
  cbv zeta.
  destruct (routeInbound payload account) as [[[[message ids] chatId] body]|] eqn:Hroute.
  2:{ now apply handle_unrouted. }
  unfold handleFeishuMessage. rewrite Hroute.
  cbv beta iota zeta delta [orReturn andThen ret emit returnIf returnEarly unwrapFeishuEvent].
  destruct (bool_decide (chatTypeOf message = Some "p2p")) eqn:Hp2p;
    cbn [negb andb orb pairingStore effects fst snd].
  - (* a direct message *)
    apply bool_decide_eq_true_1 in Hp2p.
    destruct (bool_decide (_ = Some false)); cbn [pairingStore effects fst snd].
    { close_drop. }
    unfold admitDirect.
    destruct (default DmPairing (dmPolicy (config account))) eqn:Hpol.
    + (* pairing *)
      fold (dmAllowed account storeAllowFrom ids).
      destruct (dmAllowed account storeAllowFrom ids) eqn:Hdm.
      * handler_tail.
      * cbv beta iota zeta delta [orReturn andThen ret emit returnIf returnEarly upsert
                                    sendTextFeishu].
        cbn [pairingStore effects].
        destruct (upsertPairingRequest _ _ _) as [s [code created]].
        destruct created; cbn [pairingStore effects fst snd].
        -- destruct (configured account); cbn [negb andb pairingStore effects fst snd].
           ++ destruct (JS.truthy _); cbn [negb andb pairingStore effects fst snd].
              ** destruct (apiCreateMessage _ _); close_drop.
              ** close_drop.
           ++ close_drop.
        -- close_drop.
    + (* allowlist *)
      fold (dmAllowed account storeAllowFrom ids).
      destruct (dmAllowed account storeAllowFrom ids) eqn:Hdm.
      * handler_tail.
      * handler_steps. close_drop.
    + (* open *) handler_tail.
    + (* disabled *) handler_steps. close_drop.
  - (* a group message *)
    destruct (chatAllowed _); cbn [negb pairingStore effects fst snd].
    2:{ close_drop. }
    destruct (bool_decide (_ = Some false)); cbn [pairingStore effects fst snd].
    { close_drop. }
    destruct (shouldBlock _); cbn [pairingStore effects fst snd].
    { close_drop. }
    unfold admitGroup.
    destruct (groupAllowed _); handler_steps.
    2:{ close_drop. }
    destruct (shouldSkip _); handler_steps.
    { close_drop. }
    handler_tail.
Qed.

(** X13: a direct message that passes the router is handed to the agent
    runtime exactly when the entry of its chat is not disabled and the
    sender passes the DM policy: always under [open], never under
    [disabled], and under [pairing] and [allowlist] when the sender is on
    the effective allow-list. The [chats] allow-list, the group policy, the
    command gate and the mention requirement play no part. *)
Theorem direct_message_dispatched_iff payload account cfg now storeAllowFrom (w : World)
    message ids chatId body :
  routeInbound payload account = Some (message, ids, chatId, body) ->
  chatTypeOf message = Some "p2p" ->
  snd (handleFeishuMessage payload account cfg now storeAllowFrom w) = Some tt
  <-> chatDisabled account chatId = false
      /\ match default DmPairing (dmPolicy (config account)) with
         | DmOpen => True
         | DmDisabled => False
         | DmPairing | DmAllowlist => dmAllowed account storeAllowFrom ids = true
         end.
Proof.
  intros Hroute Hp2p.
  unfold handleFeishuMessage. rewrite Hroute.
  cbv beta iota zeta delta [orReturn andThen ret emit returnIf returnEarly unwrapFeishuEvent].
  rewrite Hp2p, (bool_decide_eq_true_2 _ (eq_refl (Some "p2p"))).
  cbn [negb andb orb pairingStore effects fst snd].
  destruct (chatDisabled account chatId) eqn:Hdis; unfold chatDisabled in Hdis; rewrite Hdis;
    cbn [pairingStore effects fst snd].
  { split; [discriminate|intros [? _]; discriminate]. }
  unfold admitDirect.
  destruct (default DmPairing (dmPolicy (config account))) eqn:Hpol.
  - fold (dmAllowed account storeAllowFrom ids).
    destruct (dmAllowed account storeAllowFrom ids) eqn:Hdm.
    + handler_steps.
      match goal with
      | |- context [if (?a && matchedByFallback ?r) then _ else _] =>
          destruct (a && matchedByFallback r)
      end; rewrite dispatchWithStatus_spec; cbn [fst snd]; split; auto.
    + cbv beta iota zeta delta [orReturn andThen ret emit returnIf returnEarly upsert
                                  sendTextFeishu].
      cbn [pairingStore effects].
      destruct (upsertPairingRequest _ _ _) as [s [code created]].
      destruct created; cbn [pairingStore effects fst snd].
      * destruct (configured account); cbn [negb andb pairingStore effects fst snd];
          [destruct (JS.truthy _); cbn [negb andb pairingStore effects fst snd];
           [destruct (apiCreateMessage _ _)|]|];
          cbn [fst snd]; (split; [discriminate|intros [_ ?]; discriminate]).
      * split; [discriminate|intros [_ ?]; discriminate].
  - fold (dmAllowed account storeAllowFrom ids).
    destruct (dmAllowed account storeAllowFrom ids) eqn:Hdm.
    + handler_steps.
      match goal with
      | |- context [if (?a && matchedByFallback ?r) then _ else _] =>
          destruct (a && matchedByFallback r)
      end; rewrite dispatchWithStatus_spec; cbn [fst snd]; split; auto.
    + handler_steps. split; [discriminate|intros [_ ?]; discriminate].
  - handler_steps.
    match goal with
    | |- context [if (?a && matchedByFallback ?r) then _ else _] =>
        destruct (a && matchedByFallback r)
    end; rewrite dispatchWithStatus_spec; cbn [fst snd]; split; auto.
  - handler_steps. split; [discriminate|intros [_ []]].
Qed.

Lemma sentTexts_app (a b : list Effect) :
  sentTexts (a ++ b) = (sentTexts a ++ sentTexts b)%list.
Proof. unfold sentTexts. apply omap_app. Qed.

Lemma sentTexts_statusRequest chatId c :
  sentTexts (statusRequest chatId c)
  = match replyStatusText c with Some text => [(chatId, text)] | None => [] end.
Proof.
  unfold statusRequest, replyStatusText.
  destruct (replyStatusReaction c); [now destruct (inboundMessageId c)|].
  now destruct (JS.orElse _ None).
Qed.

Lemma sentTexts_statusCleanup c : sentTexts (statusCleanup c) = [].
Proof.
  unfold statusCleanup.
  destruct (replyStatusReaction c); [|reflexivity].
  destruct (inboundMessageId c); [|reflexivity].
  destruct (addReactionFeishu _ _) as [[r|]|]; try reflexivity.
  now destruct (JS.truthy r).
Qed.

Ltac group_drop :=
  split; [reflexivity|];
  split; [rewrite !sentTexts_app; cbn; rewrite ?app_nil_r; reflexivity|discriminate].

(** X14: a message whose chat type is anything but [p2p] (a missing chat
    type included) takes the group path: it never touches the pairing
    store and gets no pairing reply; the one text the handler sends on
    this path is the status text of a message it has admitted, when the
    account configures one and no status reaction; and the message is
    handed to the agent runtime only if the chat passes the [chats]
    allow-list, its entry is not disabled and the sender passes
    [resolveFeishuGroupAllow] under the effective group policy, with the
    effective group allow-list as the outer list and the chat's own
    [allowFrom] as the inner one. *)
Theorem group_message_admission payload account cfg now storeAllowFrom (w : World)
    message ids chatId body :
  routeInbound payload account = Some (message, ids, chatId, body) ->
  chatTypeOf message <> Some "p2p" ->
  let r := handleFeishuMessage payload account cfg now storeAllowFrom w in
  let chatMatch := resolveFeishuChatMatch (chats (config account)) chatId None in
  let policy :=
    default GroupAllowlist (nullish (groupPolicy (config account)) (defaultGroupPolicy cfg)) in
  pairingStore (fst r) = pairingStore w
  /\ sentTexts (effects (fst r))
     = (sentTexts (effects w)
        ++ match snd r, replyStatusText (replyStatusSettings account message) with
           | Some _, Some text => [(chatId, text)]
           | _, _ => []
           end)%list
  /\ (snd r = Some tt ->
      chatAllowed chatMatch = true
      /\ chatDisabled account chatId = false
      /\ groupAllowed
           (resolveFeishuGroupAllow policy
              (Some (effectiveGroupAllowFromOf account storeAllowFrom))
              (Some (normalizeFeishuAllowlist (chatConfig chatMatch ≫= allowFrom)))
              (senderId ids) (senderUserId ids) (Some (senderId ids))) = true).
Proof.
  intros Hroute Hgroup. cbv zeta.
  unfold handleFeishuMessage, chatDisabled. rewrite Hroute.
  cbv beta iota zeta delta [orReturn andThen ret emit returnIf returnEarly unwrapFeishuEvent].
  rewrite (bool_decide_eq_false_2 _ Hgroup).
  cbn [negb andb orb pairingStore effects fst snd].
  destruct (chatAllowed _); cbn [negb pairingStore effects fst snd].
  2:{ group_drop. }
  destruct (bool_decide (_ = Some false)); cbn [pairingStore effects fst snd].
  { group_drop. }
  destruct (shouldBlock _); cbn [pairingStore effects fst snd].
  { group_drop. }
  unfold admitGroup.
  destruct (groupAllowed _); handler_steps.
  2:{ group_drop. }
  destruct (shouldSkip _); handler_steps.
  { group_drop. }
  match goal with
  | |- context [if (?a && matchedByFallback ?r) then _ else _] =>
      destruct (a && matchedByFallback r)
  end; rewrite dispatchWithStatus_spec; cbn [pairingStore effects fst snd];
    rewrite !sentTexts_app; cbn [sentTexts omap list_omap];
    rewrite !sentTexts_app; cbn [sentTexts omap list_omap];
    fold (sentTexts (statusRequest chatId (replyStatusSettings account message)));
    fold (sentTexts (statusCleanup (replyStatusSettings account message)));
    rewrite sentTexts_statusRequest, sentTexts_statusCleanup, ?app_nil_r;
    cbn [app]; repeat split; auto.
Qed.

(** X15: an event the router lets through has a message, a sender who is
    neither an app nor the bot itself, a sender id and a chat id that are
    not empty, and a body that is trimmed and not empty; these are the
    values every later step of the handler works with. *)
Theorem routed_event_is_well_formed payload account m ids chatId body :
  routeInbound payload account = Some (m, ids, chatId, body) ->
  let evt := default (flattened payload) (event payload) in
  nullish (message evt) (msg evt) = Some m
  /\ resolveSenderIds payload = Some ids
  /\ senderTypeOf evt <> Some "app"
  /\ sentByBot account ids = false
  /\ senderId ids <> "" /\ chatId <> "" /\ body <> "" /\ JS.trim body = body.
Proof.
  unfold routeInbound, unwrapFeishuEvent. cbv zeta.
  set (evt := default (flattened payload) (event payload)).
  destruct (nullish (message evt) (msg evt)) as [m0|]; [|discriminate].
  cbn [mbind option_bind].
  case_bool_decide as Happ; [discriminate|].
  destruct (resolveSenderIds payload) as [ids0|] eqn:Hids; [|discriminate].
  cbn [mbind option_bind].
  destruct (sentByBot account ids0) eqn:Hbot; [discriminate|].
  destruct (JS.orElse _ None) as [c|] eqn:Hchat; [|discriminate].
  cbn [mbind option_bind].
  destruct (parseMessageContent m0) as [text|]; [|discriminate].
  cbn [mbind option_bind].
  destruct (JS.truthy text); [|discriminate]. cbn [negb].
  destruct (JS.truthy (JS.trim text)) eqn:Hbody; [|discriminate]. cbn [negb].
  intros [= <- <- <- <-].
  repeat split; auto.
  - unfold resolveSenderIds in Hids.
    destruct (unwrapFeishuEvent payload) as [[? ?] ?].
    destruct (JS.orElse _ _) as [i|]; [|discriminate].
    destruct (JS.truthy i) eqn:Hi; [|discriminate].
    injection Hids as <-. cbn. now apply truthy_nonempty.
  - apply orElse_Some in Hchat. destruct Hchat as [[_ Hc]|[_ Hc]]; [exact Hc|discriminate].
  - now apply truthy_nonempty.
  - apply trim_idem.
Qed.


End HandlerOutcome.

Lemma direct_message_dispatched_iff_witness :
  routeInbound (core := plainRuntime) helloFromAlice
    (accountOf (Some DmOpen) None None None None)
  = Some (textMessage "oc_dm" "p2p" "hello",
          {| senderId := "ou_alice"; senderOpenId := Some "ou_alice"; senderUserId := None |},
          "oc_dm", "hello")
  /\ chatTypeOf (textMessage "oc_dm" "p2p" "hello") = Some "p2p"
  /\ snd (handleConcrete helloFromAlice (accountOf (Some DmOpen) None None None None)
            emptyWorld) = Some tt.
Proof.
  split; [reflexivity|]. split; [reflexivity|].
  apply (direct_message_dispatched_iff (sdk := specSdk) (core := plainRuntime)
           (store := mapPairingStore) helloFromAlice
           (accountOf (Some DmOpen) None None None None) plainConfig
           1700000000500%Z [] emptyWorld _ _ _ _ eq_refl eq_refl).
  split; [vm_compute; reflexivity|exact I].
Defined.


Lemma group_message_admission_witness :
  let account :=
    withReplyStatus None (Some " on it ")
      (accountOf None (Some GroupOpen) None None (Some {["oc_g" := openRoom]})) in
  routeInbound (core := plainRuntime) hiInGroup account
  = Some (textMessage "oc_g" "group" "hi",
          {| senderId := "ou_alice"; senderOpenId := Some "ou_alice"; senderUserId := None |},
          "oc_g", "hi")
  /\ chatTypeOf (textMessage "oc_g" "group" "hi") <> Some "p2p"
  /\ pairingStore (fst (handleConcrete hiInGroup account emptyWorld))
     = pairingStore emptyWorld
  /\ sentTexts (effects (fst (handleConcrete hiInGroup account emptyWorld)))
     = [("oc_g", "on it")].
Proof.
  cbv zeta. split; [reflexivity|].
  assert (chatTypeOf (textMessage "oc_g" "group" "hi") <> Some "p2p") as Hgroup
    by discriminate.
  split; [exact Hgroup|].
  destruct (group_message_admission (sdk := specSdk) (core := plainRuntime)
              (store := mapPairingStore) hiInGroup
              (withReplyStatus None (Some " on it ")
                 (accountOf None (Some GroupOpen) None None (Some {["oc_g" := openRoom]})))
              plainConfig 1700000000500%Z [] emptyWorld _ _ _ _ eq_refl Hgroup)
    as (Hstore & Htexts & _).
  split; [exact Hstore|]. cbv zeta in Htexts. unfold handleConcrete. rewrite Htexts.
  vm_compute. reflexivity.
Defined.

(** An admitted message with a status reaction configured: the reaction
    is added before the dispatch and removed after it. *)
Example status_reaction_added_and_removed :
  let account :=
    withReplyStatus (Some "OnIt") (Some "on it")
      (accountOf None (Some GroupOpen) None None (Some {["oc_g" := openRoom]})) in
  exists ctx,
    handleConcrete hiInGroup account emptyWorld
    = (@Build_World mapPairingStore (∅ : gmap string string)
         [StatusInbound 1700000000000; ActivityInbound 1700000000000;
          RecordInboundSession ctx; AddReactionFeishu "om_1" "OnIt"; DispatchReply ctx;
          DeleteReactionFeishu "om_1" "reaction-1"], Some tt).
Proof. cbv zeta. eexists. vm_compute. reflexivity. Qed.

Lemma routed_event_is_well_formed_witness :
  routeInbound (core := plainRuntime) helloFromAlice
    (accountOf None None None None None)
  = Some (textMessage "oc_dm" "p2p" "hello",
          {| senderId := "ou_alice"; senderOpenId := Some "ou_alice"; senderUserId := None |},
          "oc_dm", "hello")
  /\ JS.trim "hello" = "hello".
Proof.
  split; [reflexivity|].
  apply (routed_event_is_well_formed (core := plainRuntime) helloFromAlice
           (accountOf None None None None None) _ _ _ _ eq_refl).
Defined.

(** ** Targets *)




(** X17: the target [parseFeishuTarget] returns. Its id is trimmed; the id
    is empty only for an input that is nothing but a platform prefix; the
    receive-id type is [open_id] exactly for a [user:] or [open:] prefix
    and for a bare id that starts with [ou_], in any letter case. It
    returns nothing exactly for a blank input and for a kind prefix with
    nothing after it. *)
Theorem parsed_target_shape (raw : string) :
  let value := JS.trim (replacePrefixIgnoreCase platformPrefixes (JS.trim raw)) in
  let lower := JS.toLowerCase value in
  (forall t, parseFeishuTarget raw = Some t ->
     JS.trim raw <> ""
     /\ JS.trim (target_id t) = target_id t
     /\ (target_id t = "" -> value = "")
     /\ (receiveIdType t = ReceiveOpenId
         <-> JS.hasPrefix "user:" lower = true \/ JS.hasPrefix "open:" lower = true
             \/ (JS.hasPrefix "chat:" lower = false
                 /\ testPrefixIgnoreCase "ou_" value = true)))
  /\ (parseFeishuTarget raw = None
      <-> JS.trim raw = ""
          \/ (existsb (fun p => JS.hasPrefix p lower) kindPrefixes = true
              /\ JS.trim (slice 5 value) = "")).
Proof.
  cbv zeta. unfold parseFeishuTarget.
  set (value := JS.trim (replacePrefixIgnoreCase platformPrefixes (JS.trim raw))).
  assert (JS.trim value = value) as Hvalue by apply trim_idem.
  destruct (JS.truthy (JS.trim raw)) eqn:Hraw; cbn [negb].
  2:{ destruct (JS.trim raw); [|discriminate]. split; [discriminate|].
      split; auto. }
  apply truthy_nonempty in Hraw.
  cbn [existsb kindPrefixes String.length].
  set (lower := JS.toLowerCase value).
  set (id := JS.trim (slice 5 value)).
  assert (JS.truthy id = false -> id = "") as Hblank
    by (destruct id; [reflexivity|discriminate]).
  destruct (JS.hasPrefix "user:" lower) eqn:Hu; cbn [orb].
  { destruct (JS.truthy id) eqn:Hid.
    - apply truthy_nonempty in Hid. split.
      + intros t [= <-]. cbn [target_id receiveIdType].
        repeat split; auto using trim_idem; try (unfold id; apply trim_idem); try tauto; try congruence.
      + split; [discriminate|]. intros [?|[_ ?]]; congruence.
    - split; [discriminate|]. split; auto. }
  destruct (JS.hasPrefix "open:" lower) eqn:Ho; cbn [orb].
  { destruct (JS.truthy id) eqn:Hid.
    - apply truthy_nonempty in Hid. split.
      + intros t [= <-]. cbn [target_id receiveIdType].
        repeat split; auto using trim_idem; try (unfold id; apply trim_idem); try tauto; try congruence.
      + split; [discriminate|]. intros [?|[_ ?]]; congruence.
    - split; [discriminate|]. split; auto. }
  destruct (JS.hasPrefix "chat:" lower) eqn:Hc; cbn [orb].
  { destruct (JS.truthy id) eqn:Hid.
    - apply truthy_nonempty in Hid. split.
      + intros t [= <-]. cbn [target_id receiveIdType].
        repeat split; auto using trim_idem; try (unfold id; apply trim_idem); try tauto; try congruence;
          try discriminate.
        intros [?|[?|[? _]]]; discriminate.
      + split; [discriminate|]. intros [?|[_ ?]]; congruence.
    - split; [discriminate|]. split; auto. }
  split.
  - destruct (testPrefixIgnoreCase "ou_" value) eqn:E;
      [|destruct (testPrefixIgnoreCase "oc_" value)]; intros t [= <-];
      cbn [target_id receiveIdType]; repeat split; auto; try discriminate;
      intros [?|[?|[_ ?]]]; discriminate.
  - destruct (testPrefixIgnoreCase "ou_" value);
      [|destruct (testPrefixIgnoreCase "oc_" value)];
      (split; [discriminate|intros [?|[? _]]; congruence]).
Qed.






(** ** The outbound adapter *)

Lemma usableTarget_spec (e : string) :
  usableTarget e = true <-> e <> "" /\ e <> "*".
Proof.
  unfold usableTarget. rewrite andb_true_iff, negb_true_iff, truthy_nonempty.
  rewrite String.eqb_neq. reflexivity.
Qed.

Lemma first_usable (l : list string) :
  match List.find (fun e => JS.truthy e)
          (List.filter usableTarget (map JS.trim l)) with
  | Some t =>
      usableTarget t = true
      /\ exists before e after,
           l = (before ++ e :: after)%list /\ t = JS.trim e
           /\ Forall (fun x => usableTarget (JS.trim x) = false) before
  | None => Forall (fun x => usableTarget (JS.trim x) = false) l
  end.
Proof.
  induction l as [|x r IH]; cbn [map List.filter List.find]; [constructor|].
  destruct (usableTarget (JS.trim x)) eqn:Hx.
  - cbn [List.find].
    assert (JS.truthy (JS.trim x) = true) as ->
      by (unfold usableTarget in Hx; now apply andb_true_iff in Hx).
    split; [exact Hx|]. exists [], x, r. repeat split. constructor.
  - destruct (List.find _ _) as [t|].
    + destruct IH as (Ht & before & e & after & -> & -> & Hbefore).
      split; [exact Ht|]. exists (x :: before), e, after.
      repeat split. now constructor.
    + now constructor.
Qed.

(** X19: the target the outbound adapter settles on. It is never empty and
    is trimmed; it is the requested target whenever that is not blank, and
    otherwise the first entry of the account's allow-list that is neither
    blank nor the wildcard; there is no target, and the adapter throws,
    exactly when the requested one is blank and the allow-list has no such
    entry. *)
Theorem ensured_target (to : option string) (allowFrom : option (list string)) :
  let wanted := JS.trim (default "" to) in
  let usable e := JS.trim e <> "" /\ JS.trim e <> "*" in
  (forall t, ensureTarget to allowFrom = Some t ->
     t <> "" /\ JS.trim t = t
     /\ (wanted <> "" -> t = wanted)
     /\ (wanted = "" ->
         exists before e after,
           default [] allowFrom = (before ++ e :: after)%list
           /\ t = JS.trim e /\ usable e /\ Forall (fun x => ~ usable x) before))
  /\ (ensureTarget to allowFrom = None
      <-> wanted = "" /\ Forall (fun x => ~ usable x) (default [] allowFrom)).
Proof.
  cbv zeta. unfold ensureTarget.
  assert (forall l, Forall (fun x => usableTarget (JS.trim x) = false) l
                    <-> Forall (fun x => ~ (JS.trim x <> "" /\ JS.trim x <> "*")) l) as Hall.
  { intros l. apply Forall_iff. intros x. rewrite <- usableTarget_spec.
    destruct (usableTarget (JS.trim x)); intuition congruence. }
  assert (JS.orElse (JS.trim <$> to) None
          = if JS.truthy (JS.trim (default "" to)) then Some (JS.trim (default "" to))
            else None) as ->.
  { destruct to as [s|]; [|reflexivity].
    change (JS.orElse (Some (JS.trim s)) None
            = if JS.truthy (JS.trim s) then Some (JS.trim s) else None).
    now destruct (JS.trim s). }
  destruct (JS.truthy (JS.trim (default "" to))) eqn:Hto.
  - apply truthy_nonempty in Hto. split.
    + intros t [= <-]. repeat split; auto using trim_idem. intros; congruence.
    + split; [discriminate|]. intros [? _]. congruence.
  - assert (JS.trim (default "" to) = "") as Hblank
      by (destruct (JS.trim (default "" to)); [reflexivity|discriminate]).
    pose proof (first_usable (default [] allowFrom)) as Hfirst.
    change (fun e => JS.truthy e && negb (String.eqb e "*")) with usableTarget.
    destruct (List.find _ _) as [t|].
    + destruct Hfirst as (Ht & before & e & after & Hl & -> & Hbefore).
      pose proof Ht as Ht'. apply usableTarget_spec in Ht'. destruct Ht' as [Hne Hstar].
      assert (JS.truthy (JS.trim e) = true) as Htr by (now apply truthy_nonempty).
      cbn [JS.orElse]. rewrite Htr. split.
      * intros t [= <-]. repeat split; auto using trim_idem; [congruence|].
        intros _. exists before, e, after. repeat split; auto. now apply Hall.
      * split; [discriminate|]. intros [_ Hnone]. apply Hall in Hnone.
        rewrite Hl in Hnone. apply Forall_app in Hnone. destruct Hnone as [_ Hnone].
        inversion Hnone; congruence.
    + cbn [JS.orElse]. split; [discriminate|]. split; auto.
      intros _. split; [exact Hblank|]. now apply Hall.
Qed.

Lemma ensured_target_witness :
  ensureTarget (Some "  ") (Some [" "; "*"; " chat:oc_1 "; "ou_2"]) = Some "chat:oc_1"
  /\ JS.trim "chat:oc_1" = "chat:oc_1".
Proof.
  split; [reflexivity|].
  destruct (ensured_target (Some "  ") (Some [" "; "*"; " chat:oc_1 "; "ou_2"])) as [H _].
  destruct (H _ eq_refl) as (_ & Ht & _). exact Ht.
Defined.

Section OutboundFacts.
Context `{out : OutboundRuntime}.

Lemma sendTextFeishu_cases aborted account target body sink :
  JS.truthy body = true -> JS.trim body = body ->
  let r := Outbound.sendTextFeishu aborted account target body sink in
  (r = (CreateMessage target body :: (if sink then [StatusLastOutbound] else []), true)
   /\ apiCreate target body = true /\ aborted = false /\ configured account = true
   /\ clientHasCreate = true)
  \/ (r = ([CreateMessage target body], false) /\ apiCreate target body = false)
  \/ (r = ([], false)
      /\ (aborted = true \/ configured account = false \/ clientHasCreate = false)).
Proof.
  intros Hb Ht. cbv zeta. unfold Outbound.sendTextFeishu. rewrite Ht, Hb.
  destruct aborted; [auto|]. destruct (configured account); [|auto 6].
  destruct clientHasCreate; [|auto 6]. cbn [negb].
  destruct (apiCreate target body); auto 10.
Qed.

Lemma sendChunks_sent signal account target i l :
  let r := Outbound.sendChunks signal account target i l in
  exists attempted rest,
    nonBlankBodies l = (attempted ++ rest)%list
    /\ fst r = map (CreateMessage target) attempted
    /\ Forall (fun b => apiCreate target b = true) (removelast attempted)
    /\ (snd r = true -> rest = [] /\ Forall (fun b => apiCreate target b = true) attempted).
Proof.
  cbv zeta. revert i. induction l as [|chunk l IH]; intros i.
  - exists [], []. cbn. repeat split; constructor.
  - cbn [Outbound.sendChunks]. unfold nonBlankBodies. cbn [map List.filter].
    fold (nonBlankBodies l).
    destruct (JS.truthy (JS.trim chunk)) eqn:Hb; cbn [negb]; [|apply IH].
    destruct (sendTextFeishu_cases (signal i) account target (JS.trim chunk) false Hb
                (trim_idem chunk)) as [(-> & Hok & _)|[(-> & Hfail)|(-> & _)]].
    + destruct (IH (S i)) as (attempted & rest & Hl & Htrace & Hpre & Hdone).
      destruct (Outbound.sendChunks signal account target (S i) l) as [more done].
      cbn [fst snd] in *. exists (JS.trim chunk :: attempted), rest.
      rewrite Hl, Htrace. repeat split.
      * destruct attempted; [constructor|]. constructor; assumption.
      * now apply Hdone.
      * constructor; [assumption|]. now apply Hdone.
    + exists [JS.trim chunk], (nonBlankBodies l). cbn. repeat split; try constructor.
      all: discriminate.
    + exists [], (JS.trim chunk :: nonBlankBodies l). cbn. repeat split; try constructor.
      all: discriminate.
Qed.

Lemma sendChunks_all signal account target i l :
  configured account = true -> clientHasCreate = true ->
  (forall k, signal k = false) ->
  Forall (fun b => apiCreate target b = true) (nonBlankBodies l) ->
  Outbound.sendChunks signal account target i l
  = (map (CreateMessage target) (nonBlankBodies l), true).
Proof.
  intros Hcfg Hcreate Hsig. revert i.
  induction l as [|chunk l IH]; intros i Hall; [reflexivity|].
  cbn [Outbound.sendChunks]. unfold nonBlankBodies in *. cbn [map List.filter] in *.
  destruct (JS.truthy (JS.trim chunk)) eqn:Hb; cbn [negb]; [|now apply IH].
  inversion Hall as [|? ? Hok Hrest]; subst.
  unfold Outbound.sendTextFeishu.
  rewrite Hsig, Hcfg, Hcreate, trim_idem, Hb, Hok. cbn [negb].
  rewrite (IH (S i) Hrest). reflexivity.
Qed.

(** X20: what [sendChunkedText] sends. The bodies handed to the platform
    are the entries of the send list that are not blank, trimmed, in
    order, up to the first one that fails; no later entry is tried. It
    returns the id of the parsed target only if every such entry was sent
    and accepted, and does so whenever the account is configured, the
    client can send, the signal is never aborted and the platform accepts
    every entry; a text with no entry that is not blank is reported as
    sent although nothing was. *)
Theorem chunked_text_delivery signal account targetRaw text :
  let r := Outbound.sendChunkedText signal account targetRaw text in
  let bodies := nonBlankBodies (Outbound.sendListOf (convertMarkdownTables text)) in
  match parseFeishuTarget targetRaw with
  | None => r = ([], None)
  | Some target =>
      let accepted b := apiCreate target b = true in
      (exists attempted rest,
         bodies = (attempted ++ rest)%list
         /\ fst r = map (CreateMessage target) attempted
         /\ Forall accepted (removelast attempted)
         /\ (snd r <> None ->
             snd r = Some (target_id target) /\ rest = [] /\ Forall accepted bodies))
      /\ (configured account = true -> clientHasCreate = true ->
          (forall k, signal k = false) -> Forall accepted bodies ->
          r = (map (CreateMessage target) bodies, Some (target_id target)))
      /\ (configured account = true -> bodies = [] -> r = ([], Some (target_id target)))
  end.
Proof.
  cbv zeta. unfold Outbound.sendChunkedText.
  destruct (parseFeishuTarget targetRaw) as [target|];
    [|destruct (configured account); reflexivity].
  set (l := Outbound.sendListOf (convertMarkdownTables text)).
  split; [|split].
  - destruct (configured account); cbn [negb].
    + destruct (sendChunks_sent signal account target 0 l)
        as (attempted & rest & Hl & Htrace & Hpre & Hdone).
      destruct (Outbound.sendChunks signal account target 0 l) as [sent ok].
      cbn [fst snd] in *. exists attempted, rest. repeat split; auto.
      * destruct ok; [reflexivity|congruence].
      * destruct ok; [now apply Hdone|congruence].
      * destruct ok; [|congruence]. destruct (Hdone eq_refl) as [-> Hall].
        rewrite Hl, app_nil_r. exact Hall.
    + exists [], (nonBlankBodies l). cbn. repeat split; try constructor; congruence.
  - intros Hcfg Hcreate Hsig Hall. rewrite Hcfg. cbn [negb].
    now rewrite (sendChunks_all signal account target 0 l Hcfg Hcreate Hsig Hall).
  - intros Hcfg Hnone. rewrite Hcfg. cbn [negb].
    destruct (sendChunks_sent signal account target 0 l)
      as (attempted & rest & Hl & Htrace & _ & _).
    rewrite Hnone in Hl. symmetry in Hl. apply app_eq_nil in Hl. destruct Hl as [-> ->].
    assert (snd (Outbound.sendChunks signal account target 0 l) = true) as Hok.
    { clear Htrace. generalize 0%nat. unfold nonBlankBodies in Hnone.
      induction l as [|chunk l' IH]; intros i; [reflexivity|].
      cbn [map List.filter] in Hnone. cbn [Outbound.sendChunks].
      destruct (JS.truthy (JS.trim chunk)); [discriminate|]. cbn [negb]. now apply IH. }
    destruct (Outbound.sendChunks signal account target 0 l) as [sent ok].
    cbn [fst snd] in *. now subst.
Qed.

End OutboundFacts.

Section DeliveryFacts.
Context `{out : OutboundRuntime}.





End DeliveryFacts.

Lemma chunked_text_delivery_witness :
  configured (accountOf None None None None None) = true
  /\ Outbound.sendChunkedText (out := plainOutbound) (fun _ => false)
       (accountOf None None None None None) "chat:oc_1" " hi "
     = ([CreateMessage {| receiveIdType := ReceiveChatId; target_id := "oc_1" |} "hi"],
        Some "oc_1").
Proof.
  split; [reflexivity|].
  pose proof (chunked_text_delivery (out := plainOutbound) (fun _ => false)
                (accountOf None None None None None) "chat:oc_1" " hi ") as H.
  cbv zeta in H.
  assert (parseFeishuTarget "chat:oc_1"
          = Some {| receiveIdType := ReceiveChatId; target_id := "oc_1" |}) as Hp
    by reflexivity.
  rewrite Hp in H. destruct H as (_ & H & _).
  apply H; try reflexivity. repeat constructor.
Defined.


(** ** Credentials *)

Section AccountFacts.
Context `{host : HostEnvironment}.




End AccountFacts.

(** ** The directory of peers *)

Lemma uniqueInOrder_fold (l seen : list string) :
  List.NoDup seen ->
  let r := fold_left (fun seen x => if includes seen x then seen else (seen ++ [x])%list)
             l seen in
  List.NoDup r /\ forall x, In x r <-> In x seen \/ In x l.
Proof.
  cbv zeta. revert seen. induction l as [|y l IH]; intros seen Hnd; cbn [fold_left].
  - split; [exact Hnd|]. intros x. cbn. tauto.
  - destruct (includes seen y) eqn:Hy.
    + apply includes_In in Hy. destruct (IH seen Hnd) as [H1 H2]. split; [exact H1|].
      intros x. rewrite H2. cbn. intuition congruence.
    + assert (~ In y seen) as Hny.
      { intros Hin. apply includes_In in Hin. congruence. }
      assert (List.NoDup (seen ++ [y])) as Hnd'.
      { apply List.NoDup_app; [exact Hnd|repeat constructor; intros []|].
        intros x Hx [<-|[]]. contradiction. }
      destruct (IH _ Hnd') as [H1 H2]. split; [exact H1|].
      intros x. rewrite H2, in_app_iff. cbn. tauto.
Qed.

Lemma uniqueInOrder_spec (l : list string) :
  List.NoDup (uniqueInOrder l) /\ forall x, In x (uniqueInOrder l) <-> In x l.
Proof.
  destruct (uniqueInOrder_fold l [] (List.NoDup_nil _)) as [H1 H2]. split; [exact H1|].
  intros x. unfold uniqueInOrder. rewrite H2. cbn. tauto.
Qed.

Lemma NoDup_firstn_list {A} (n : nat) (l : list A) :
  List.NoDup l -> List.NoDup (firstn n l).
Proof.
  intros H. rewrite <- (firstn_skipn n l) in H. now apply List.NoDup_app_remove_r in H.
Qed.

Lemma In_firstn {A} (n : nat) (l : list A) (x : A) : In x (firstn n l) -> In x l.
Proof. intros H. rewrite <- (firstn_skipn n l). apply in_or_app. now left. Qed.

(** X23: the peers the directory lists. They are entries of the account's
    normalised allow-list, never the wildcard, never empty and never
    repeated; with a query, each contains the query, trimmed and in lower
    case; with a positive limit there are no more than the limit; without
    query and limit every entry of the allow-list but the wildcard is
    listed. *)
Theorem listed_peers account query limit :
  let peers := listPeers account query limit in
  let allow := normalizeFeishuAllowlist (cfg_allowFrom (config account)) in
  List.NoDup peers
  /\ Forall (fun id => In id allow /\ id <> "*" /\ id <> "") peers
  /\ (forall q, query = Some q -> JS.trim q <> "" ->
      Forall (fun id => stringIncludes (JS.toLowerCase id) (JS.toLowerCase (JS.trim q)) = true)
        peers)
  /\ (forall n, limit = Some n -> (0 < n)%Z -> (List.length peers <= Z.to_nat n)%nat)
  /\ (JS.trim (default "" query) = "" ->
      limit = None \/ (exists n, limit = Some n /\ (n <= 0)%Z) ->
      forall id, In id peers <-> In id allow /\ id <> "*").
Proof.
  cbv zeta. unfold listPeers.
  set (allow := normalizeFeishuAllowlist (cfg_allowFrom (config account))).
  set (q := default "" (JS.orElse ((fun s => JS.toLowerCase (JS.trim s)) <$> query) None)).
  set (peers := uniqueInOrder (List.filter (fun e => negb (String.eqb e "*")) allow)).
  set (matching := List.filter _ peers).
  destruct (uniqueInOrder_spec (List.filter (fun e => negb (String.eqb e "*")) allow))
    as [Hnd Hin]. fold peers in Hnd, Hin.
  assert (forall id, In id peers <-> In id allow /\ id <> "*") as Hpeers.
  { intros id. rewrite Hin, List.filter_In, negb_true_iff, String.eqb_neq. reflexivity. }
  assert (List.NoDup matching) as Hndm by (now apply List.NoDup_filter).
  assert (forall id, In id matching -> In id allow /\ id <> "*" /\ id <> "") as Hm.
  { intros id H. apply List.filter_In in H. destruct H as [H _]. apply Hpeers in H.
    destruct H as [Ha Hs]. repeat split; auto.
    unfold allow, normalizeFeishuAllowlist in Ha. apply List.filter_In in Ha.
    now apply truthy_nonempty. }
  assert (forall s, query = Some s -> JS.trim s <> "" ->
            forall id, In id matching ->
              stringIncludes (JS.toLowerCase id) (JS.toLowerCase (JS.trim s)) = true) as Hq.
  { intros s -> Hs id H. apply List.filter_In in H. destruct H as [_ H].
    assert (q = JS.toLowerCase (JS.trim s)) as Hqs.
    { unfold q. cbn [fmap option_fmap option_map].
      destruct (JS.trim s) as [|c r]; [congruence|]. reflexivity. }
    rewrite Hqs in H.
    destruct (JS.truthy (JS.toLowerCase (JS.trim s))) eqn:Ht; [exact H|].
    destruct (JS.trim s); [congruence|discriminate]. }
  assert (JS.trim (default "" query) = "" -> matching = peers) as Hall.
  { intros Hblank. assert (q = "") as ->.
    { unfold q. destruct query as [s|]; [|reflexivity].
      change (JS.trim s = "") in Hblank.
      change (default "" (JS.orElse (Some (JS.toLowerCase (JS.trim s))) None) = "").
      now rewrite Hblank. }
    unfold matching. cbn [JS.truthy]. clear. induction peers as [|x l IH]; [reflexivity|].
    cbn. now rewrite IH. }
  split; [|split; [|split; [|split]]].
  - destruct limit as [n|]; [destruct (0 <? n)%Z|]; auto using NoDup_firstn_list.
  - apply List.Forall_forall. intros id H. apply Hm.
    destruct limit as [n|]; [destruct (0 <? n)%Z|]; eauto using In_firstn.
  - intros s Hs Hne. apply List.Forall_forall. intros id H. apply (Hq s Hs Hne).
    destruct limit as [n|]; [destruct (0 <? n)%Z|]; eauto using In_firstn.
  - intros n -> Hn. apply Z.ltb_lt in Hn. rewrite Hn. apply firstn_le_length.
  - intros Hblank Hlimit id. rewrite <- Hpeers, <- (Hall Hblank).
    destruct Hlimit as [->|(n & -> & Hn)]; [reflexivity|].
    apply Z.ltb_ge in Hn. now rewrite Hn.
Qed.

Lemma listed_peers_witness :
  listPeers (accountOf None None (Some ["Feishu:User:OU_1"; "*"; "user:ou_1"; "ou_2"]) None None)
    (Some " OU ") (Some 5%Z)
  = ["ou_1"; "ou_2"]
  /\ (List.length ["ou_1"; "ou_2"] <= Z.to_nat 5)%nat.
Proof.
  split; [reflexivity|].
  destruct (listed_peers
              (accountOf None None (Some ["Feishu:User:OU_1"; "*"; "user:ou_1"; "ou_2"])
                 None None) (Some " OU ") (Some 5%Z)) as (_ & _ & _ & H & _).
  apply (H 5%Z eq_refl). reflexivity.
Defined.

(** ** Targets and allow-list entries as the plugin shows them *)

Lemma dropPrefix_toLowerCase (p s : string) :
  JS.dropPrefix p (JS.toLowerCase s) = JS.toLowerCase <$> dropPrefixIgnoreCase p s.
Proof.
  revert s. induction p as [|a p IH]; intros s; [reflexivity|].
  destruct s as [|b s]; [reflexivity|].
  cbn [JS.toLowerCase JS.dropPrefix dropPrefixIgnoreCase].
  destruct (Ascii.eqb a (JS.lowerChar b)); [apply IH|reflexivity].
Qed.

Lemma replacePrefix_toLowerCase (alts : list string) (s : string) :
  JS.replacePrefix alts (JS.toLowerCase s)
  = JS.toLowerCase (replacePrefixIgnoreCase alts s).
Proof.
  induction alts as [|p alts IH]; [reflexivity|].
  cbn [JS.replacePrefix replacePrefixIgnoreCase]. rewrite dropPrefix_toLowerCase.
  destruct (dropPrefixIgnoreCase p s); [reflexivity|exact IH].
Qed.

(** X24: the allow-list as the plugin shows it and as the matcher reads
    it. The entries shown are the configured ones that are neither blank
    nor the wildcard, trimmed, without their platform prefix and in lower
    case; removing the kind prefix from an entry shown gives the entry the
    matcher compares senders with. *)
Theorem shown_allowlist_matches_policy (allowFrom : list string) :
  map (JS.replacePrefix kindPrefixes) (formatAllowFrom allowFrom)
  = map normalizeFeishuAllowEntry
      (List.filter (fun e => usableTarget (JS.trim e)) allowFrom)
  /\ Forall (fun e => JS.toLowerCase e = e) (formatAllowFrom allowFrom)
  /\ (List.length (formatAllowFrom allowFrom) <= List.length allowFrom)%nat.
Proof.
  unfold formatAllowFrom. change (fun e => JS.truthy e && negb (String.eqb e "*")) with usableTarget.
  induction allowFrom as [|e l (IH1 & IH2 & IH3)]; [repeat split; constructor|].
  cbn [map List.filter]. destruct (usableTarget (JS.trim e)); cbn [map List.length].
  - split; [|split].
    + rewrite IH1. f_equal. unfold normalizeFeishuAllowEntry.
      now rewrite (replacePrefix_toLowerCase platformPrefixes).
    + constructor; [apply toLowerCase_idem|exact IH2].
    + lia.
  - repeat split; auto.
Qed.

(** X25: normalising a messaging target and then parsing it names the
    same target as parsing it directly, as long as what is left after the
    platform prefix is not blank and does not begin with a second platform
    prefix. When nothing but white space is left, the normalised target no
    longer parses, while parsing the input directly gives a chat target
    with an empty id. *)
Theorem normalized_target_parses (raw n : string) :
  normalizeFeishuMessagingTarget raw = Some n ->
  let value := JS.trim n in
  (value <> "" -> replacePrefixIgnoreCase platformPrefixes value = value ->
   parseFeishuTarget n = parseFeishuTarget raw)
  /\ (value = "" ->
      parseFeishuTarget n = None
      /\ parseFeishuTarget raw
         = Some {| receiveIdType := ReceiveChatId; target_id := "" |}).
Proof.
  unfold normalizeFeishuMessagingTarget.
  destruct (JS.truthy (JS.trim raw)) eqn:Hraw; [|discriminate].
  cbn [negb]. intros Hn.
  assert (n = replacePrefixIgnoreCase platformPrefixes (JS.trim raw)) as -> by congruence.
  clear Hn. cbv zeta.
  set (value := JS.trim (replacePrefixIgnoreCase platformPrefixes (JS.trim raw))).
  split.
  - intros Hne Hplain. unfold parseFeishuTarget. fold value.
    rewrite Hraw. apply truthy_nonempty in Hne. rewrite Hne. cbn [negb].
    assert (JS.trim value = value) as Htrim by (unfold value; apply trim_idem).
    cbv zeta. rewrite Hplain, !Htrim. reflexivity.
  - intros Hblank. unfold parseFeishuTarget. fold value.
    rewrite Hraw, Hblank. cbn [negb JS.truthy]. split; reflexivity.
Qed.

Lemma normalized_target_parses_witness :
  normalizeFeishuMessagingTarget " Feishu:chat:oc_1 " = Some "chat:oc_1"
  /\ parseFeishuTarget "chat:oc_1" = parseFeishuTarget " Feishu:chat:oc_1 ".
Proof.
  split; [reflexivity|].
  destruct (normalized_target_parses " Feishu:chat:oc_1 " "chat:oc_1" eq_refl) as [H _].
  apply H; [discriminate|reflexivity].
Defined.

(** ** The connection supervisor: what it reports *)

Section SupervisorReports.
Context `{engine : NumberEngine}.

Ltac sound_parts Hc :=
  split;
  [cbn; let Hx := fresh "Hx" in
   intros Hx;
   first [discriminate Hx
         |destruct (Hc Hx) as [? ?]; split; first [assumption|reflexivity]]
  |split; [cbn; try lia|split; cbn]].

Lemma requestRestart_sound cfg clk why s :
  supervisorSound cfg s -> supervisorSound cfg (requestRestart clk why s).
Proof.
  intros (Hc & Ha & Hl & Hr). unfold requestRestart.
  destruct (shutDown s); [exact (conj Hc (conj Ha (conj Hl Hr)))|].
  destruct (restartInFlight s); [sound_parts Hc; assumption|].
  sound_parts Hc.
  - apply Forall_app. split; [exact Hl|]. repeat constructor; [lia|].
    apply computeBackoff_capped.
  - constructor; [apply computeBackoff_capped|exact Hr].
Qed.

Lemma stop_sound cfg why s :
  supervisorSound cfg s -> supervisorSound cfg (stop why s).
Proof.
  intros Hs. pose proof Hs as (Hc & Ha & Hl & Hr). unfold stop.
  case_eq (stopped s); intros Hst; [exact Hs|].
  sound_parts Hc; [|exact Hr].
  apply Forall_app. split; [exact Hl|]. repeat constructor.
Qed.

Lemma startWsClient_sound cfg s :
  stopped s = false -> supervisorSound cfg s ->
  supervisorSound cfg (fst (startWsClient cfg s)).
Proof.
  intros Hs (Hc & Ha & Hl & Hr). unfold startWsClient.
  assert (Forall restartLogged (supervisorLog s ++ [LogConnectStart])) as Hl'
    by (apply Forall_app; split; [exact Hl|repeat constructor]).
  destruct (negb (hasStart (createWsClient cfg))); cbn [fst].
  - split; [|split; [exact Ha|split; [exact Hl'|exact Hr]]].
    cbn. intros Hx. destruct (Hc Hx) as [_ ?]. auto.
  - split; [|split; [exact Ha|split; [exact Hl'|exact Hr]]].
    cbn. auto.
Qed.

Lemma step_sound cfg clk e s :
  supervisorSound cfg s -> supervisorSound cfg (step cfg clk e s).
Proof.
  intros Hs. pose proof Hs as (Hc & Ha & Hl & Hr).
  destruct e as [started| | | | |why|i started]; cbn [step].
  - unfold startupSettled. destruct (negb (startup s)); [exact Hs|].
    destruct (negb started).
    + sound_parts Hc; assumption.
    + assert (supervisorSound cfg (ensureWatchdog cfg (set_startup false s))) as Hw.
      { unfold ensureWatchdog.
        destruct (watchdogTimer (set_startup false s)); [exact Hs|].
        destruct (_ || _); [exact Hs|]. sound_parts Hc; assumption. }
      destruct (aborted _); [now apply stop_sound|exact Hw].
  - destruct (watchdogTimer s); [|exact Hs]. unfold watchdogTick.
    destruct (shutDown s); [exact Hs|]. destruct (_ <? _)%Z; [exact Hs|].
    apply requestRestart_sound. sound_parts Hc; [|exact Hr].
    apply Forall_app. split; [exact Hl|repeat constructor].
  - unfold onInbound. destruct (shutDown s); [exact Hs|]. sound_parts Hc; assumption.
  - destruct (aborted s); [exact Hs|]. apply stop_sound. sound_parts Hc; assumption.
  - now apply stop_sound.
  - now apply requestRestart_sound.
  - unfold resumeRestart. destruct (restarts s !! i) as [r|] eqn:Hi; [|exact Hs].
    assert (withinCap (maxMs WS_RECONNECT_POLICY) (delayMs r)) as Hd.
    { rewrite List.Forall_forall in Hr. apply Hr. apply list_elem_of_In.
      now apply list_elem_of_lookup_2 in Hi. }
    assert (forall st l, Forall (fun r => withinCap (maxMs WS_RECONNECT_POLICY) (delayMs r)) l ->
              Forall (fun r => withinCap (maxMs WS_RECONNECT_POLICY) (delayMs r))
                (<[i := set_stage st r]> l)) as Hins
      by (intros st l H; apply Forall_insert; [exact H|exact Hd]).
    destruct (stage r).
    + sound_parts Hc; auto.
    + destruct (aborted s) eqn:Hab; [sound_parts Hc; auto|].
      destruct (shutDown s) eqn:Hsd; [sound_parts Hc; auto|].
      assert (stopped s = false) as Hst.
      { unfold shutDown in Hsd. now apply orb_false_elim in Hsd. }
      pose proof (startWsClient_sound cfg s Hst Hs) as Hsw.
      destruct (startWsClient cfg s) as [s' reached] eqn:Hstart. cbn [fst] in Hsw.
      destruct Hsw as (Hc' & Ha' & Hl' & Hr').
      assert (restarts s' = restarts s) as Hsame.
      { unfold startWsClient in Hstart.
        destruct (negb (hasStart (createWsClient cfg))); injection Hstart as <- _;
          reflexivity. }
      destruct reached; sound_parts Hc'; auto; rewrite Hsame; auto.
    + destruct started; sound_parts Hc; auto.
      apply Forall_app. split; [exact Hl|repeat constructor].
    + unfold settleRestart. cbn.
      assert (Forall (fun r => withinCap (maxMs WS_RECONNECT_POLICY) (delayMs r))
                (delete i (restarts s))) as Hdel by (now apply Forall_delete).
      destruct (restartQueued s).
      * apply requestRestart_sound. sound_parts Hc; auto.
      * sound_parts Hc; auto.
Qed.

(** X26: what the supervisor reports and how long it waits. In every
    state it goes through, it reports itself connected only while it holds
    the client it created and has not been stopped; the attempt counter is
    never negative; every restart it has logged is an attempt numbered from
    1 with a delay that, when it is a number, is at most 30 seconds, and
    so is the delay of every restart still pending. *)
Theorem supervisor_reports cfg s :
  reachable cfg s ->
  (connected s = true -> wsClient s = Some (createWsClient cfg) /\ stopped s = false)
  /\ (0 <= reconnectAttempts s)%Z
  /\ Forall restartLogged (supervisorLog s)
  /\ Forall (fun r => withinCap (Double.ofZ 30000) (delayMs r)) (restarts s).
Proof.
  intros H. change (supervisorSound cfg s).
  induction H as [alreadyAborted clk|clk e s _ IH]; [|now apply step_sound].
  unfold monitorFeishuProvider, startWsClient.
  destruct (negb (hasStart (createWsClient cfg)));
    (split; [cbn; intros Hx; first [discriminate Hx|split; reflexivity]
            |split; [cbn; lia|split; cbn; repeat constructor]]).
Qed.

End SupervisorReports.

Section SupervisorReportsRuns.
#[local] Existing Instance productEngine.

Lemma supervisor_reports_witness :
  reachable minuteConfig racingTriggers
  /\ Forall (fun r => withinCap (Double.ofZ 30000) (delayMs r)) (restarts racingTriggers).
Proof.
  assert (reachable minuteConfig racingTriggers) as Hreach
    by (apply reachable_run; constructor).
  split; [exact Hreach|].
  apply (supervisor_reports minuteConfig racingTriggers Hreach).
Defined.

End SupervisorReportsRuns.
